(** * kedro.framework.cli.utils: command routing, deduplication and suggestions

    A shallow embedding of [src/kedro/framework/cli/utils.py] together with
    the properties of the command router that its specification states.

    Conventions of the embedding.
    - A Python [str] is a [string]; its characters are the code points below
      256 (Latin-1), which is where the whitespace and line-boundary tables
      below are exact.
    - A Python [int] is a [Z]; a [dict] keyed by command name whose order is
      never observed is a [gmap string _]; a [dict] whose insertion order is
      observed is an association list.
    - Objects that the code mutates in place and may share (click groups)
      live in a store indexed by reference.
    - An exception is a value of [exn]; code that may raise returns
      [raising]. *)

From Stdlib Require Import String Ascii List ZArith QArith Lia Lqa.
From stdpp Require Import gmap gmultiset strings list fin_maps functions sorting.

Close Scope Q_scope.
Local Open Scope string_scope.
Local Open Scope list_scope.

(** ** Python built-ins used by the module *)

Module py.

(** [str.isspace] on one character, for code points below 256. *)
Definition isspace (c : ascii) : bool :=
  let n := nat_of_ascii c in
  (Nat.leb 9 n && Nat.leb n 13) || (Nat.leb 28 n && Nat.leb n 32)
  || Nat.eqb n 133 || Nat.eqb n 160.

Fixpoint lstrip (s : string) : string :=
  match s with
  | String c s' => if isspace c then lstrip s' else s
  | EmptyString => EmptyString
  end.

(** [rstrip] keeps a character when it is not whitespace or when something
    survives to its right. *)
Fixpoint rstrip (s : string) : string :=
  match s with
  | String c s' =>
      match rstrip s' with
      | EmptyString => if isspace c then EmptyString else String c EmptyString
      | r => String c r
      end
  | EmptyString => EmptyString
  end.

(** [str.strip()] with no argument. *)
Definition strip (s : string) : string := rstrip (lstrip s).

(** Truthiness of a [str]: non-empty. *)
Definition truthy (s : string) : bool :=
  match s with EmptyString => false | _ => true end.

(** [sep.join(parts)]. *)
Fixpoint join (sep : string) (parts : list string) : string :=
  match parts with
  | [] => ""
  | [p] => p
  | p :: rest => p ++ sep ++ join sep rest
  end.

(** [x in s] for strings: [x] occurs in [s] as a contiguous substring. *)
Fixpoint contains (x s : string) : bool :=
  String.prefix x s
  || match s with
     | String _ s' => contains x s'
     | EmptyString => false
     end.

(** The line boundaries of [str.splitlines], for code points below 256:
    LF, VT, FF, CR, FS, GS, RS and NEL. *)
Definition is_linebreak (c : ascii) : bool :=
  let n := nat_of_ascii c in
  (Nat.leb 10 n && Nat.leb n 13) || (Nat.leb 28 n && Nat.leb n 30) || Nat.eqb n 133.

(** [s.splitlines(True)]: the lines of [s], each with its line boundary; a
    CR directly followed by LF is one boundary, and a last line without a
    boundary is kept when it is not empty. *)
Fixpoint splitlines (s : string) : list string :=
  match s with
  | EmptyString => []
  | String c s' =>
      if Ascii.eqb c "013" then
        match s' with
        | String c' s'' =>
            if Ascii.eqb c' "010" then String c (String c' "") :: splitlines s''
            else String c "" :: splitlines s'
        | EmptyString => [String c ""]
        end
      else if is_linebreak c then String c "" :: splitlines s'
      else
        match splitlines s' with
        | [] => [String c ""]
        | line :: lines => String c line :: lines
        end
  end.

(** [''.join(parts)]. *)
Definition concat_str (parts : list string) : string :=
  fold_right append "" parts.

End py.

(** ** split_node_names *)

(** The loop state of [split_node_names]: [result], [argument] and
    [match_state]. *)
Record split_state := SplitState {
  result : list string;
  argument : string;
  match_state : Z
}.

(** One iteration of [for char in to_split + ","]. *)
Definition split_node_names_step (st : split_state) (char : ascii) : split_state :=
  let match_state :=
    if Ascii.eqb char "[" then (match_state st + 1)%Z
    else if Ascii.eqb char "]" then (match_state st - 1)%Z
    else match_state st in
  if Ascii.eqb char "," && (match_state =? 0)%Z && py.truthy (argument st)
  then SplitState (result st ++ [py.strip (argument st)]) "" match_state
  else SplitState (result st) (argument st ++ String char "") match_state.

Definition split_node_names (to_split : string) : list string :=
  result (fold_left split_node_names_step
            (list_ascii_of_string (to_split ++ ","))
            (SplitState [] "" 0)).


(** ** Exceptions *)

(** The exceptions that the modelled code raises or lets through. *)
Inductive exn :=
| IndexError
| KeyError (key : string)
| ValueError
| AttributeError
| KedroCliError (message : string)
| BaseException (what : string).

(** A computation that returns or raises. *)
Inductive raising (A : Type) :=
| Ok (a : A)
| Raise (e : exn).
Arguments Ok {A} a.
Arguments Raise {A} e.

#[global] Instance exn_eq_dec : EqDecision exn.
Proof. solve_decision. Defined.

#[global] Instance raising_eq_dec {A : Type} `{EqDecision A} : EqDecision (raising A).
Proof. solve_decision. Defined.

(** ** The click data model

    [click] is a dependency of the module; only the attributes and the two
    lookup methods that [utils.py] relies on are described. *)

(** A [click.Command] object, known by its identity. *)
Inductive Command := CommandObj (id : nat).

#[global] Instance Command_eq_dec : EqDecision Command.
Proof. solve_decision. Defined.

(** A [click.Parameter]; only its [name] is read. *)
Record ClickParameter := { param_name : string }.

(** A [click.Group] (a [click.MultiCommand] that owns a [commands] dict).
    [callback] is the identity of the callable, if any. *)
Record Group := {
  name : option string;
  help : option string;
  callback : option nat;
  params : list ClickParameter;
  commands : gmap string Command
}.

(** Group objects are shared and mutated in place: a reference names one
    object, and the store gives every reference its current contents. *)
Abbreviation gref := nat (only parsing).
Abbreviation store := (gref -> Group).

(** [cmd_group.commands = cmds]. *)
Definition set_commands (g : Group) (cmds : gmap string Command) : Group :=
  {| name := name g; help := help g; callback := callback g;
     params := params g; commands := cmds |}.

(** A [click.CommandCollection] as built by [_merge_same_name_collections]:
    a fresh object holding references to its source groups. *)
Record CommandCollection := {
  cc_name : option string;
  cc_sources : list gref;
  cc_help : string;
  cc_callback : option nat;
  cc_params : list ClickParameter
}.

(** [cli_collection.sources = srcs]. *)
Definition set_sources (c : CommandCollection) (srcs : list gref) : CommandCollection :=
  {| cc_name := cc_name c; cc_sources := srcs; cc_help := cc_help c;
     cc_callback := cc_callback c; cc_params := cc_params c |}.

Module click.

(** [Group.get_command]: [self.commands.get(cmd_name)]. *)
Definition group_get_command (st : store) (r : gref) (cmd_name : string) : option Command :=
  commands (st r) !! cmd_name.

(** [CommandCollection.get_command]: the first source that knows the name
    answers. *)
Fixpoint first_command (st : store) (sources : list gref) (cmd_name : string) : option Command :=
  match sources with
  | [] => None
  | r :: rest =>
      match group_get_command st r cmd_name with
      | Some c => Some c
      | None => first_command st rest cmd_name
      end
  end.

Definition get_command (st : store) (c : CommandCollection) (cmd_name : string) : option Command :=
  first_command st (cc_sources c) cmd_name.

(** [CommandCollection.list_commands]: the union of the names its sources
    list.  The sorted list that click returns is only tested for
    membership, so a set stands for it. *)
Definition list_commands (st : store) (c : CommandCollection) : gset string :=
  ⋃ ((fun r => dom (commands (st r))) <$> cc_sources c).


End click.

(** ** CommandCollection._dedupe_commands *)

(** The body of the inner loop: filter the names already seen out of one
    group, then add what is left to [seen_names]. *)
Definition dedupe_group (acc : store * gset string) (cmd_group : gref) : store * gset string :=
  let '(st, seen_names) := acc in
  let cmds := filter (fun kv => kv.1 ∉ seen_names) (commands (st cmd_group)) in
  (<[cmd_group := set_commands (st cmd_group) cmds]> st, seen_names ∪ dom cmds).

(** [for cmd_group in reversed(cli_collection.sources)]. *)
Definition dedupe_collection (acc : store * gset string) (cli_collection : CommandCollection)
  : store * gset string :=
  foldl dedupe_group acc (reverse (cc_sources cli_collection)).

(** The first pass, [for cli_collection in reversed(cli_collections)]. *)
Definition dedupe_pass (st : store) (cli_collections : list CommandCollection)
  : store * gset string :=
  foldl dedupe_collection (st, ∅) (reverse cli_collections).

(** Truthiness of [cmd_group.commands]: the dict is not empty. *)
Definition has_commands (st : store) (cmd_group : gref) : Prop :=
  commands (st cmd_group) ≠ ∅.

#[global] Instance has_commands_dec st cmd_group : Decision (has_commands st cmd_group).
Proof. unfold has_commands. apply _. Defined.

(** The second pass: drop the groups whose [commands] became empty. *)
Definition remove_empty_groups (st : store) (cli_collection : CommandCollection)
  : CommandCollection :=
  set_sources cli_collection (filter (has_commands st) (cc_sources cli_collection)).

(** [_dedupe_commands] returns nothing; its effect is the new store and the
    new [sources] of every collection. *)
Definition _dedupe_commands (st : store) (cli_collections : list CommandCollection)
  : store * list CommandCollection :=
  let st' := (dedupe_pass st cli_collections).1 in
  (st', remove_empty_groups st' <$> cli_collections).

(** Resolution over the deduplicated sources, as the router's inherited
    [get_command] does it: collections in order, first answer wins. *)
Fixpoint resolve (st : store) (sources : list CommandCollection) (cmd_name : string)
  : option Command :=
  match sources with
  | [] => None
  | c :: rest =>
      match click.get_command st c cmd_name with
      | Some cmd => Some cmd
      | None => resolve st rest cmd_name
      end
  end.

(** The names that the groups [l] hold in [st]. *)
Definition names_of (st : store) (l : list gref) : gset string :=
  ⋃ ((fun r => dom (commands (st r))) <$> l).

(** All group references of a list of collections, in listing order. *)
Definition group_refs (cli_collections : list CommandCollection) : list gref :=
  concat (cc_sources <$> cli_collections).

(** The names a list of collections provides. *)
Definition provided_names (st : store) (cli_collections : list CommandCollection) : gset string :=
  ⋃ (click.list_commands st <$> cli_collections).


(** ** Sample data

    Two sources that both provide [run]: the global group (reference 0) and
    a project group (reference 1), listed in that order. *)

Definition sample_global : Group :=
  {| name := Some "kedro"; help := Some "Global commands"; callback := Some 0%nat;
     params := [];
     commands := {[ "run" := CommandObj 10; "info" := CommandObj 11 ]} |}.

Definition sample_project : Group :=
  {| name := Some "project"; help := Some "Project commands"; callback := Some 1%nat;
     params := [];
     commands := {[ "run" := CommandObj 20; "test" := CommandObj 21 ]} |}.

Definition no_group : Group :=
  {| name := None; help := None; callback := None; params := []; commands := ∅ |}.

Definition sample_store : store :=
  fun r => match r with
           | 0%nat => sample_global
           | 1%nat => sample_project
           | _ => no_group
           end.

Definition collection_of (st : store) (r : gref) : CommandCollection :=
  {| cc_name := name (st r); cc_sources := [r]; cc_help := default "" (help (st r));
     cc_callback := callback (st r); cc_params := params (st r) |}.

Definition sample_sources : list CommandCollection :=
  [collection_of sample_store 0%nat; collection_of sample_store 1%nat].

(** ** CommandCollection._merge_same_name_collections *)

Module defaultdict.

(** A [defaultdict(list)] whose iteration order is observed: an association
    list in insertion order, with at most one entry per key. *)

(** [d[k].append(v)]: a missing key is inserted at the end with [[v]]. *)
Fixpoint append_to {K V : Type} `{EqDecision K} (d : list (K * list V)) (k : K) (v : V)
  : list (K * list V) :=
  match d with
  | [] => [(k, [v])]
  | (k', vs) :: d' =>
      if decide (k' = k) then (k', vs ++ [v]) :: d'
      else (k', vs) :: append_to d' k v
  end.

(** [d[k]] read: a missing key reads as the empty list. *)
Fixpoint get {K V : Type} `{EqDecision K} (d : list (K * list V)) (k : K) : list V :=
  match d with
  | [] => []
  | (k', vs) :: d' => if decide (k' = k) then vs else get d' k
  end.

End defaultdict.

(** The line feed character and the separator ["\n\n"]. *)
Definition LF : string := String "010" "".
Definition blank_line : string := LF ++ LF.

(** [group.help] when it is truthy (neither [None] nor empty). *)
Definition truthy_help (g : Group) : option string :=
  match help g with
  | Some h => if py.truthy h then Some h else None
  | None => None
  end.

(** The loop of [_merge_same_name_collections]: one step files the group
    under its name in [named_groups] and its help, when truthy, in
    [helps]. *)
Definition merge_step (st : store)
    (acc : list (option string * list gref) * list (option string * list string))
    (group : gref)
  : list (option string * list gref) * list (option string * list string) :=
  let '(named_groups, helps) := acc in
  (defaultdict.append_to named_groups (name (st group)) group,
   match truthy_help (st group) with
   | Some h => defaultdict.append_to helps (name (st group)) h
   | None => helps
   end).

(** The comprehension that builds one [click.CommandCollection] per entry
    of [named_groups]; [if cli_list] skips an empty list. *)
Definition merged_collection (st : store) (helps : list (option string * list string))
    (entry : option string * list gref) : option CommandCollection :=
  let '(group_name, cli_list) := entry in
  match cli_list with
  | [] => None
  | first :: _ =>
      Some {| cc_name := group_name;
              cc_sources := cli_list;
              cc_help := py.join blank_line (defaultdict.get helps group_name);
              cc_callback := callback (st first);
              cc_params := params (st first) |}
  end.

Definition _merge_same_name_collections (st : store) (groups : list gref)
  : list CommandCollection :=
  let '(named_groups, helps) := foldl (merge_step st) ([], []) groups in
  omap (merged_collection st helps) named_groups.

(** The distinct elements of a list in the order of their first
    occurrence. *)
Fixpoint first_seen {K : Type} `{EqDecision K} (l : list K) : list K :=
  match l with
  | [] => []
  | x :: l' => x :: filter (fun y => y ≠ x) (first_seen l')
  end.

(** The groups of [groups] named [k], in order. *)
Definition constituents (st : store) (groups : list gref) (k : option string) : list gref :=
  filter (fun r => name (st r) = k) groups.

(** The truthy helps of a list of groups, in order. *)
Definition helps_of (st : store) (l : list gref) : list string :=
  omap (fun r => truthy_help (st r)) l.

(** Two groups both named [project], with helps [H1] and [H2]. *)
Definition project_one : Group :=
  {| name := Some "project"; help := Some "H1"; callback := Some 1%nat;
     params := [ {| param_name := "env" |} ];
     commands := {[ "run" := CommandObj 1; "test" := CommandObj 2 ]} |}.

Definition project_two : Group :=
  {| name := Some "project"; help := Some "H2"; callback := Some 2%nat;
     params := [];
     commands := {[ "run" := CommandObj 3; "package" := CommandObj 4 ]} |}.

Definition project_store : store :=
  fun r => match r with
           | 0%nat => project_one
           | 1%nat => project_two
           | _ => no_group
           end.

(** ** The command router: lazy plugin loading *)

(** An [importlib_metadata.EntryPoint]: the plugin's name and what reading
    its [module] attribute gives.  [module] is a property: the library
    matches the entry point's value against its pattern and returns the
    module part, so [ep_module] is [Ok] of the module name when the value
    parses and [Raise] of what the property raises when it does not (an
    [AttributeError] on the missing match, an [AssertionError] in later
    versions of the library). *)
Record EntryPoint := { ep_name : string; ep_module : raising string }.

#[global] Instance EntryPoint_eq_dec : EqDecision EntryPoint.
Proof. solve_decision. Defined.

(** What [entry_point.load()] does in the running interpreter: it returns
    the plugin's click group, raises an [Exception] (the text is
    [str(exc)]), or raises something that is not an [Exception]
    ([KeyboardInterrupt], [SystemExit]).  For an entry point whose value
    does not parse, [load] raises an [Exception] before it imports
    anything. *)
Inductive load_outcome :=
| Loaded (plugin : gref)
| LoadError (exc : string)
| LoadAbort (what : string).

(** One call of [logger.warning] in [_safe_load_entry_point], with its three
    arguments. *)
Record warning := {
  warn_module : string;
  warn_entry_point : EntryPoint;
  warn_exc : string
}.

(** An element of the router's [sources] list: one of the merged
    collections, a group that a plugin provided, or [None]. *)
Inductive source :=
| SrcCollection (c : CommandCollection)
| SrcGroup (r : gref)
| SrcNone.

(** The router object together with what it has done so far: [sources] and
    [lazy_groups] are its attributes ([lazy_groups] is a dict in insertion
    order), [loads] records every entry point passed to the loader and
    [warnings] every logged warning, both oldest first. *)
Record cli := {
  sources : list source;
  lazy_groups : list (string * EntryPoint);
  loads : list EntryPoint;
  warnings : list warning
}.

(** A method of the router: it changes the router and returns or raises. *)
Definition M (A : Type) : Type := cli → raising A * cli.

Definition ret {A : Type} (a : A) : M A := fun s => (Ok a, s).

Definition bind {A B : Type} (m : M A) (f : A → M B) : M B :=
  fun s =>
    match m s with
    | (Ok a, s') => f a s'
    | (Raise e, s') => (Raise e, s')
    end.

Definition raise {A : Type} (e : exn) : M A := fun s => (Raise e, s).

Notation "'do' x <- m ; k" := (bind m (fun x => k))
  (at level 10, x name, m at level 100, k at level 200).

(** [_partial_match]: the first plugin name that contains the command
    name. *)
Fixpoint _partial_match (plugin_names : list string) (command_name : string)
  : option string :=
  match plugin_names with
  | [] => None
  | plugin_name :: rest =>
      if py.contains command_name plugin_name then Some plugin_name
      else _partial_match rest command_name
  end.

(** [_safe_load_entry_point]: an [Exception] is caught, logged and turned
    into [None]; anything else that is raised goes through.  The handler
    reads [entry_point.module] for the arguments of [logger.warning]: when
    that read raises, nothing is logged and the exception leaves the
    function. *)
Definition _safe_load_entry_point (env : EntryPoint → load_outcome)
    (entry_point : EntryPoint) : M (option gref) :=
  fun s =>
    let s1 := {| sources := sources s; lazy_groups := lazy_groups s;
                 loads := loads s ++ [entry_point]; warnings := warnings s |} in
    match env entry_point with
    | Loaded plugin => (Ok (Some plugin), s1)
    | LoadError exc =>
        match ep_module entry_point with
        | Ok module =>
            (Ok None,
             {| sources := sources s1; lazy_groups := lazy_groups s1; loads := loads s1;
                warnings := warnings s1
                            ++ [ {| warn_module := module;
                                    warn_entry_point := entry_point;
                                    warn_exc := exc |} ] |})
        | Raise e => (Raise e, s1)
        end
    | LoadAbort what => (Raise (BaseException what), s1)
    end.

(** click's [add_source]: [self.sources.append(multi_cmd)], whatever the
    argument is. *)
Definition add_source (multi_cmd : option gref) : M unit :=
  fun s =>
    (Ok tt,
     {| sources := sources s ++ [match multi_cmd with
                                 | Some r => SrcGroup r
                                 | None => SrcNone
                                 end];
        lazy_groups := lazy_groups s; loads := loads s; warnings := warnings s |}).

(** [source.list_commands(ctx)] for one element of [sources]; [None] has no
    such attribute. *)
Definition source_list_commands (st : store) (src : source) : raising (gset string) :=
  match src with
  | SrcCollection c => Ok (click.list_commands st c)
  | SrcGroup r => Ok (dom (commands (st r)))
  | SrcNone => Raise AttributeError
  end.

(** click's [CommandCollection.list_commands] on the router: the union over
    [self.sources], in order. *)
Fixpoint list_commands_of (st : store) (srcs : list source) : raising (gset string) :=
  match srcs with
  | [] => Ok ∅
  | src :: rest =>
      match source_list_commands st src with
      | Ok names =>
          match list_commands_of st rest with
          | Ok more => Ok (names ∪ more)
          | Raise e => Raise e
          end
      | Raise e => Raise e
      end
  end.

Definition list_commands (st : store) : M (gset string) :=
  fun s => (list_commands_of st (sources s), s).

(** [self.lazy_groups[key]]. *)
Fixpoint lazy_group (groups : list (string * EntryPoint)) (key : string) : raising EntryPoint :=
  match groups with
  | [] => Raise (KeyError key)
  | (k, ep) :: rest => if String.eqb k key then Ok ep else lazy_group rest key
  end.

(** The loop [for ep in self.lazy_groups.values()] of [_load_plugins]. *)
Fixpoint load_all_plugins (env : EntryPoint → load_outcome) (st : store)
    (command_name : string) (eps : list EntryPoint) : M unit :=
  match eps with
  | [] => ret tt
  | ep :: rest =>
      do names <- list_commands st;
      if bool_decide (command_name ∈ names) then ret tt
      else
        do loaded_ep <- _safe_load_entry_point env ep;
        do _ <- add_source loaded_ep;
        load_all_plugins env st command_name rest
  end.

(** The [if part_match:] block of [_load_plugins]; it answers whether the
    method returns from inside it. *)
Definition load_partial_match (env : EntryPoint → load_outcome) (st : store)
    (command_name : string) : M bool :=
  fun s =>
    let ep_names := (lazy_groups s).*1 in
    match _partial_match ep_names command_name with
    | Some part_match =>
        if py.truthy part_match then
          (do ep <- (fun s => (lazy_group (lazy_groups s) part_match, s));
           do loaded_ep <- _safe_load_entry_point env ep;
           do _ <- add_source loaded_ep;
           do names <- list_commands st;
           ret (bool_decide (command_name ∈ names))) s
        else (Ok false, s)
    | None => (Ok false, s)
    end.

Definition _load_plugins (env : EntryPoint → load_outcome) (st : store)
    (command_name : string) : M unit :=
  do returned <- load_partial_match env st command_name;
  if returned then ret tt
  else fun s => load_all_plugins env st command_name (lazy_groups s).*2 s.

(** [CommandCollection.main]; [super_main] is click's [main], which parses,
    resolves and dispatches. *)
Definition main {R : Type} (super_main : option (list string) → M R)
    (env : EntryPoint → load_outcome) (st : store) (args : option (list string)) : M R :=
  do _ <- match args with
          | None => ret tt
          | Some [] => raise IndexError
          | Some (arg0 :: _) =>
              do names <- list_commands st;
              if bool_decide (arg0 ∈ names) then ret tt
              else _load_plugins env st arg0
          end;
  super_main args.

(** The names the router lists, when listing does not raise. *)
Definition listed (st : store) (srcs : list source) : gset string :=
  match list_commands_of st srcs with
  | Ok names => names
  | Raise _ => ∅
  end.

(** The exception that leaves [_safe_load_entry_point] for [ep], if one
    does: what [load] raised that is not an [Exception], or what reading
    [module] raised in the handler. *)
Definition escaping (env : EntryPoint → load_outcome) (ep : EntryPoint) : option exn :=
  match env ep with
  | Loaded _ => None
  | LoadError _ =>
      match ep_module ep with
      | Ok _ => None
      | Raise e => Some e
      end
  | LoadAbort what => Some (BaseException what)
  end.

(** The source that loading [ep] adds. *)
Definition plugin_source (env : EntryPoint → load_outcome) (ep : EntryPoint) : source :=
  match env ep with
  | Loaded plugin => SrcGroup plugin
  | _ => SrcNone
  end.

(** The entry point that the partial-match phase loads, if any. *)
Definition partial_match_load (groups : list (string * EntryPoint)) (command_name : string)
  : list EntryPoint :=
  match _partial_match groups.*1 command_name with
  | Some part_match =>
      if py.truthy part_match then
        match lazy_group groups part_match with
        | Ok ep => [ep]
        | Raise _ => []
        end
      else []
  | None => []
  end.

(** Sample plugins.  [kedro-viz] and [kedro-docker] are registered lazily;
    in [plugins_env] the first provides the project group of
    [sample_store] (reference 1, which has no [viz] command), the second
    the global group (reference 0); in [broken_env] every load raises. *)
Definition viz_ep : EntryPoint :=
  {| ep_name := "kedro-viz"; ep_module := Ok "kedro_viz.launchers.cli" |}.

Definition docker_ep : EntryPoint :=
  {| ep_name := "kedro-docker"; ep_module := Ok "kedro_docker.plugin" |}.

Definition plugins_env (ep : EntryPoint) : load_outcome :=
  if decide (ep = viz_ep) then Loaded 1 else Loaded 0.

Definition broken_env (ep : EntryPoint) : load_outcome :=
  LoadError "No module named kedro_viz".

Definition fresh_cli (groups : list (string * EntryPoint)) : cli :=
  {| sources := []; lazy_groups := groups; loads := []; warnings := [] |}.

(** The router after [_safe_load_entry_point] and [add_source] ran for
    [ep], when the load returned or raised an [Exception] that the loader
    logged. *)
Definition after_load (env : EntryPoint → load_outcome) (ep : EntryPoint) (s : cli) : cli :=
  {| sources := sources s ++ [plugin_source env ep];
     lazy_groups := lazy_groups s;
     loads := loads s ++ [ep];
     warnings := warnings s
                 ++ match env ep, ep_module ep with
                    | LoadError exc, Ok module =>
                        [ {| warn_module := module; warn_entry_point := ep;
                             warn_exc := exc |} ]
                    | _, _ => []
                    end |}.

(** The router after a load from which an exception left the loader. *)
Definition after_abort (ep : EntryPoint) (s : cli) : cli :=
  {| sources := sources s; lazy_groups := lazy_groups s;
     loads := loads s ++ [ep]; warnings := warnings s |}.

(** The router [s] after the handles [new] were loaded, all of them
    successfully, and added as sources. *)
Definition with_loaded (env : EntryPoint → load_outcome) (s : cli) (new : list EntryPoint) : cli :=
  {| sources := sources s ++ (plugin_source env <$> new);
     lazy_groups := lazy_groups s;
     loads := loads s ++ new;
     warnings := warnings s |}.

(** Two lazily registered plugins, in registration order. *)
Definition two_plugins : list (string * EntryPoint) :=
  [("kedro-docker", docker_ep); ("kedro-viz", viz_ep)].

(** A router with the global commands as its only eager source and one
    lazily registered plugin. *)
Definition viz_cli : cli :=
  {| sources := [SrcCollection (collection_of sample_store 0%nat)];
     lazy_groups := [("kedro-viz", viz_ep)];
     loads := [];
     warnings := [] |}.

(** A plugin group with the command [viz]: reference 2 of [plugin_store],
    which is [sample_store] elsewhere.  In [viz_env] the plugin [kedro-viz]
    provides it; in [docker_viz_env] it is [kedro-docker] that does, while
    [kedro-viz] provides the project group. *)
Definition sample_viz : Group :=
  {| name := Some "viz"; help := Some "Visualise the pipeline"; callback := None;
     params := [];
     commands := {[ "viz" := CommandObj 30 ]} |}.

Definition plugin_store : store :=
  fun r => match r with
           | 2%nat => sample_viz
           | _ => sample_store r
           end.

Definition viz_env (ep : EntryPoint) : load_outcome :=
  if decide (ep = viz_ep) then Loaded 2 else Loaded 0.

Definition docker_viz_env (ep : EntryPoint) : load_outcome :=
  if decide (ep = docker_ep) then Loaded 2 else Loaded 1.

(** An entry point whose value does not parse: reading its [module]
    raises.  In [malformed_env] its load raises an [Exception], as does the
    load of [kedro-viz]; every other load gives the global group. *)
Definition malformed_ep : EntryPoint :=
  {| ep_name := "kedro-telemetry"; ep_module := Raise AttributeError |}.

Definition malformed_env (ep : EntryPoint) : load_outcome :=
  if decide (ep = malformed_ep) then LoadError "'NoneType' object has no attribute 'group'"
  else if decide (ep = viz_ep) then LoadError "No module named kedro_viz"
  else Loaded 0.


(** ** The standard-library helpers of [_suggest_cli_command]

    [difflib], [heapq] and [textwrap] are Python's own; they are described
    here as far as [get_close_matches] and [indent] go.  A similarity ratio
    is the float [2.0 * M / T] of two small integers; it is kept as the
    rational it rounds, which compares the same way. *)

Module heapq.

(** The order of the tuples [(score, x)]: [p] is at least [q]. *)
Definition tuple_geb (p q : Q * string) : bool :=
  match Qcompare q.1 p.1 with
  | Lt => true
  | Eq => String.leb q.2 p.2
  | Gt => false
  end.

Definition tuple_ge (p q : Q * string) : Prop := tuple_geb p q = true.

#[global] Instance tuple_ge_dec p q : Decision (tuple_ge p q).
Proof. unfold tuple_ge. apply _. Defined.

(** [nlargest(n, result)]: [sorted(result, reverse=True)[:n]]. *)
Definition nlargest (n : nat) (result : list (Q * string)) : list (Q * string) :=
  take n (merge_sort tuple_ge result).

End heapq.

Module difflib.

(** [b2j] leaves out the popular elements of [b]: with [autojunk], when [b]
    has 200 elements or more, those that occur more than [n // 100 + 1]
    times. *)
Definition popular (b : list ascii) (x : ascii) : bool :=
  Nat.leb 200 (length b)
  && Nat.ltb (length b / 100 + 1) (length (filter (fun y => y = x) b)).

(** One pass of the inner loop of [find_longest_match]: [newj2len] for the
    element [x] of [a], as a dense row indexed by [j] (0 where the dict has
    no entry). *)
Definition newj2len (b : list ascii) (blo bhi : nat) (x : ascii) (j2len : list nat)
  : list nat :=
  imap (fun j y =>
          if Nat.leb blo j && Nat.ltb j bhi && Ascii.eqb x y && negb (popular b x)
          then S (match j with O => O | S j' => nth j' j2len O end)
          else O) b.

(** [if k > bestsize: besti, bestj, bestsize = i-k+1, j-k+1, k]. *)
Definition update_best (i : nat) (best : nat * nat * nat) (jk : nat * nat)
  : nat * nat * nat :=
  if Nat.ltb best.2 jk.2 then ((i + 1 - jk.2)%nat, (jk.1 + 1 - jk.2)%nat, jk.2) else best.

(** The body of [for i in range(alo, ahi)]. *)
Definition scan (a b : list ascii) (blo bhi : nat)
    (acc : list nat * (nat * nat * nat)) (i : nat) : list nat * (nat * nat * nat) :=
  let row := newj2len b blo bhi (nth i a Ascii.zero) acc.1 in
  (row, foldl (update_best i) acc.2 (imap pair row)).

(** The first extension loop: grow the block to the left while the elements
    before it agree. *)
Fixpoint extend_left (fuel : nat) (a b : list ascii) (alo blo : nat)
    (best : nat * nat * nat) : nat * nat * nat :=
  match fuel with
  | O => best
  | S fuel' =>
      let '(besti, bestj, bestsize) := best in
      if Nat.ltb alo besti && Nat.ltb blo bestj
         && bool_decide (a !! (besti - 1)%nat = b !! (bestj - 1)%nat)
      then extend_left fuel' a b alo blo ((besti - 1)%nat, (bestj - 1)%nat, S bestsize)
      else best
  end.

(** The second extension loop: grow it to the right. *)
Fixpoint extend_right (fuel : nat) (a b : list ascii) (ahi bhi : nat)
    (best : nat * nat * nat) : nat * nat * nat :=
  match fuel with
  | O => best
  | S fuel' =>
      let '(besti, bestj, bestsize) := best in
      if Nat.ltb (besti + bestsize) ahi && Nat.ltb (bestj + bestsize) bhi
         && bool_decide (a !! (besti + bestsize)%nat = b !! (bestj + bestsize)%nat)
      then extend_right fuel' a b ahi bhi (besti, bestj, S bestsize)
      else best
  end.

(** [find_longest_match] without junk: the block [(besti, bestj, bestsize)].
    Each extension loop moves an index by one per round, so [length a]
    rounds are enough. *)
Definition find_longest_match (a b : list ascii) (alo ahi blo bhi : nat)
  : nat * nat * nat :=
  let best := (foldl (scan a b blo bhi) ([], (alo, blo, O)) (seq alo (ahi - alo))).2 in
  let best := extend_left (length a) a b alo blo best in
  extend_right (length a) a b ahi bhi best.

(** The sum of the sizes of the blocks of [get_matching_blocks]: a block is
    found by [find_longest_match], then the pieces to its left and to its
    right are searched. *)
Fixpoint matches (fuel : nat) (a b : list ascii) (alo ahi blo bhi : nat) : nat :=
  match fuel with
  | O => O
  | S fuel' =>
      let '(i, j, k) := find_longest_match a b alo ahi blo bhi in
      if Nat.eqb k 0 then O
      else
        (k
         + (if Nat.ltb alo i && Nat.ltb blo j then matches fuel' a b alo i blo j else O)
         + (if Nat.ltb (i + k) ahi && Nat.ltb (j + k) bhi
            then matches fuel' a b (i + k) ahi (j + k) bhi else O))%nat
  end.

Definition _calculate_ratio (matches length : nat) : Q :=
  if Nat.eqb length 0 then 1%Q
  else (Z.of_nat (2 * matches) # Pos.of_nat length)%Q.

(** [SequenceMatcher.ratio] with [a] the candidate and [b] the word. *)
Definition ratio (a b : list ascii) : Q :=
  _calculate_ratio (matches (S (length a)) a b 0 (length a) 0 (length b))
                   (length a + length b).

(** [quick_ratio]: [avail] starts as the element counts of [b]. *)
Definition quick_step (acc : (ascii → Z) * nat) (elt : ascii) : (ascii → Z) * nat :=
  let numb := acc.1 elt in
  (<[elt := (numb - 1)%Z]> acc.1, if (0 <? numb)%Z then S acc.2 else acc.2).

Definition quick_ratio (a b : list ascii) : Q :=
  let fullbcount := fun x => Z.of_nat (length (filter (fun y => y = x) b)) in
  _calculate_ratio (foldl quick_step (fullbcount, O) a).2 (length a + length b).

Definition real_quick_ratio (a b : list ascii) : Q :=
  _calculate_ratio (Nat.min (length a) (length b)) (length a + length b).

(** The test of the loop of [get_close_matches] for one possibility. *)
Definition close_enough (word x : string) (cutoff : Q) : bool :=
  let a := list_ascii_of_string x in
  let b := list_ascii_of_string word in
  Qle_bool cutoff (real_quick_ratio a b)
  && Qle_bool cutoff (quick_ratio a b)
  && Qle_bool cutoff (ratio a b).

(** The pair [(s.ratio(), x)] appended to [result]. *)
Definition scored (word x : string) : Q * string :=
  (ratio (list_ascii_of_string x) (list_ascii_of_string word), x).

(** [get_close_matches(word, possibilities, n, cutoff)]. *)
Definition get_close_matches (word : string) (possibilities : list string)
    (n : nat) (cutoff : Q) : raising (list string) :=
  if negb (Nat.ltb 0 n) then Raise ValueError
  else if negb (Qle_bool 0 cutoff && Qle_bool cutoff 1) then Raise ValueError
  else
    let result :=
      scored word
        <$> filter (fun x => close_enough word x cutoff = true) possibilities in
    Ok ((heapq.nlargest n result).*2).

End difflib.

Module textwrap.

(** [indent(text, prefix)] with the default predicate: the prefix goes
    before every line that does not consist of whitespace only. *)
Definition indent (text prefix : string) : string :=
  py.concat_str
    ((fun line => if py.truthy (py.strip line) then (prefix ++ line)%string else line)
       <$> py.splitlines text).

End textwrap.

(** ** _suggest_cli_command *)

Definition MAX_SUGGESTIONS : nat := 3.
Definition CUTOFF : Q := (1 # 2)%Q.

Definition _suggest_cli_command (original_command_name : string)
    (existing_command_names : list string) : raising string :=
  match difflib.get_close_matches original_command_name existing_command_names
          MAX_SUGGESTIONS CUTOFF with
  | Raise e => Raise e
  | Ok matches =>
      match matches with
      | [] => Ok ""
      | _ =>
          let suggestion :=
            if Nat.eqb (length matches) 1
            then (LF ++ LF ++ "Did you mean this?")%string
            else (LF ++ LF ++ "Did you mean one of these?" ++ LF)%string in
          Ok (suggestion ++ textwrap.indent (py.join LF matches) "    ")%string
      end
  end.

(** A candidate that prints as one line of its own: it has no line boundary
    and is not made of whitespace only. *)
Fixpoint has_nonspace (s : string) : bool :=
  match s with
  | EmptyString => false
  | String c s' => negb (py.isspace c) || has_nonspace s'
  end.

Fixpoint no_linebreak (s : string) : bool :=
  match s with
  | EmptyString => true
  | String c s' => negb (py.is_linebreak c) && no_linebreak s'
  end.

Definition one_line (s : string) : Prop :=
  no_linebreak s = true ∧ has_nonspace s = true.

(** The two headers of [_suggest_cli_command]. *)
Definition singular_header : string := LF ++ LF ++ "Did you mean this?".
Definition plural_header : string := LF ++ LF ++ "Did you mean one of these?" ++ LF.

(** ** The config-file callback *)

(** The Python values that occur as option values and in a config file. *)
Inductive pyvalue :=
| VNone
| VBool (b : bool)
| VInt (z : Z)
| VStr (s : string).

(** Truthiness, as [if value:] tests it. *)
Definition value_truthy (v : pyvalue) : bool :=
  match v with
  | VNone => false
  | VBool b => b
  | VInt z => negb (z =? 0)%Z
  | VStr s => py.truthy s
  end.

(** [l.remove(x)]: the list without the first [x]; [None] stands for the
    [ValueError] raised when there is none. *)
Fixpoint list_remove (x : string) (l : list string) : option (list string) :=
  match l with
  | [] => None
  | y :: l' =>
      if String.eqb y x then Some l'
      else option_map (cons y) (list_remove x l')
  end.

(** [d.update(items)]. *)
Definition dict_update (d : gmap string pyvalue) (items : list (string * pyvalue))
  : gmap string pyvalue :=
  foldl (fun d kv => <[kv.1 := kv.2]> d) d items.

(** A [click.Context], as far as the callback uses it. *)
Record Context := {
  default_map : option (gmap string pyvalue);
  info_name : string
}.

(** What the callback can change: the context and the class attribute
    [KedroCliError.VERBOSE_EXISTS]. *)
Record config_world := {
  ctx : Context;
  VERBOSE_EXISTS : bool
}.

Definition set_default_map (w : config_world) (d : gmap string pyvalue) : config_world :=
  {| ctx := {| default_map := Some d; info_name := info_name (ctx w) |};
     VERBOSE_EXISTS := VERBOSE_EXISTS w |}.

(** The message of the [KedroCliError] of [_validate_config_file]. *)
Definition invalid_key_message (key message : string) : string :=
  "Key `" ++ key ++ "` in provided configuration is not valid. " ++ message.

(** [_validate_config_file]; [run_params] is [run.params] of
    [kedro.framework.cli.project]. *)
Definition _validate_config_file (run_params : list ClickParameter) (key : string)
    (w : config_world) : raising unit * config_world :=
  match list_remove "config" (param_name <$> run_params) with
  | None => (Raise ValueError, w)
  | Some run_args =>
      if bool_decide (key ∈ run_args) then (Ok tt, w)
      else
        let w' := {| ctx := ctx w; VERBOSE_EXISTS := false |} in
        match _suggest_cli_command key run_args with
        | Ok message => (Raise (KedroCliError (invalid_key_message key message)), w')
        | Raise e => (Raise e, w')
        end
  end.

(** [for key, value in config.items(): _validate_config_file(key)]; the
    loop variable [value] shadows the callback's argument. *)
Fixpoint validate_items (run_params : list ClickParameter)
    (items : list (string * pyvalue)) (value : pyvalue) (w : config_world)
  : raising pyvalue * config_world :=
  match items with
  | [] => (Ok value, w)
  | (key, value') :: rest =>
      match _validate_config_file run_params key w with
      | (Ok _, w') => validate_items run_params rest value' w'
      | (Raise e, w') => (Raise e, w')
      end
  end.

(** [_config_file_callback]; [load_config value section] is
    [OmegaConf.to_container(OmegaConf.load(value))[section]], the items of
    the section in file order. *)
Definition _config_file_callback
    (load_config : pyvalue → string → raising (list (string * pyvalue)))
    (run_params : list ClickParameter) (value : pyvalue) (w : config_world)
  : raising pyvalue * config_world :=
  let w1 := set_default_map w (default ∅ (default_map (ctx w))) in
  let section := info_name (ctx w1) in
  if value_truthy value then
    match load_config value section with
    | Raise e => (Raise e, w1)
    | Ok config =>
        match validate_items run_params config value w1 with
        | (Ok value', w2) =>
            (Ok value',
             set_default_map w2
               (dict_update (default ∅ (default_map (ctx w2))) config))
        | (Raise e, w2) => (Raise e, w2)
        end
    end
  else (Ok value, w1).


(** A run command whose parameters are [env], [pipeline] and [config], and
    a config section with one key it does not accept. *)
Definition sample_run_params : list ClickParameter :=
  [ {| param_name := "env" |}; {| param_name := "pipeline" |};
    {| param_name := "config" |} ].

Definition sample_config : list (string * pyvalue) :=
  [("env", VStr "prod"); ("bogus_key", VInt 1)].

Definition sample_world : config_world :=
  {| ctx := {| default_map := None; info_name := "run" |}; VERBOSE_EXISTS := true |}.

(** A string without square brackets. *)
Fixpoint no_brackets (s : string) : bool :=
  match s with
  | EmptyString => true
  | String c s' => negb (Ascii.eqb c "[") && negb (Ascii.eqb c "]") && no_brackets s'
  end.

(** The loop of [split_node_names] run over the characters of [s]. *)
Definition split_loop (s : string) (st : split_state) : split_state :=
  fold_left split_node_names_step (list_ascii_of_string s) st.

(** [load_entry_points], the eager way in: [eps] stands for
    [_get_entry_points(name)].  Only what the loader returned and is truthy
    is kept. *)
Fixpoint load_entry_points (env : EntryPoint → load_outcome) (eps : list EntryPoint)
  : M (list gref) :=
  match eps with
  | [] => ret []
  | entry_point :: rest =>
      do loaded_entry_point <- _safe_load_entry_point env entry_point;
      do entry_point_commands <- load_entry_points env rest;
      ret (match loaded_entry_point with
           | Some plugin => plugin :: entry_point_commands
           | None => entry_point_commands
           end)
  end.

(** ** What the longest match and the ratio satisfy *)

(** What holds of [j2len] before the pass for [i]: an entry [k] at [j] says
    that the [k] elements ending at [i - 1] in [a] and at [j] in [b] agree,
    inside the windows. *)
Definition row_ok (a b : list ascii) (alo blo bhi : nat) (i : nat) (row : list nat) : Prop :=
  ∀ j, (nth j row 0 ≤ i - alo ∧ nth j row 0 ≤ j + 1 - blo
        ∧ (0 < nth j row 0 → j < bhi)
        ∧ ∀ t, t < nth j row 0 → a !! (i - 1 - t) = b !! (j - t))%nat.

(** A block inside the windows whose elements agree. *)
Definition block_ok (a b : list ascii) (alo ahi blo bhi : nat) (best : nat * nat * nat)
  : Prop :=
  (alo ≤ best.1.1 ∧ best.1.1 + best.2 ≤ ahi
   ∧ blo ≤ best.1.2 ∧ best.1.2 + best.2 ≤ bhi
   ∧ ∀ t, t < best.2 → a !! (best.1.1 + t) = b !! (best.1.2 + t))%nat.

(** The slice [l[lo:hi]]. *)
Definition window (l : list ascii) (lo hi : nat) : list ascii :=
  take (hi - lo) (drop lo l).

(** How many elements two sequences have in common, as multisets. *)
Definition common (x y : list ascii) : nat :=
  size ((list_to_set_disj x : gmultiset ascii) ∩ list_to_set_disj y).

(** A candidate whose similarity ratio with the typed name is at least the
    cutoff. *)
Definition clears_cutoff (typed x : string) : Prop :=
  Qle_bool CUTOFF (difflib.ratio (list_ascii_of_string x) (list_ascii_of_string typed))
  = true.

#[global] Instance clears_cutoff_dec typed x : Decision (clears_cutoff typed x).
Proof. unfold clears_cutoff. apply _. Defined.

(** ** More string methods *)

Module pystr.

(** [s.split(sep)] for a separator [sep] of one character: the pieces
    between the separators, empty ones included; the empty string gives one
    empty piece. *)
Fixpoint split (sep : ascii) (s : string) : list string :=
  match s with
  | EmptyString => [""]
  | String c s' =>
      if Ascii.eqb c sep then "" :: split sep s'
      else
        match split sep s' with
        | piece :: pieces => String c piece :: pieces
        | [] => [String c ""]
        end
  end.

(** [s.split(sep, 1)]: cut at the first separator only. *)
Fixpoint split_once (sep : ascii) (s : string) : list string :=
  match s with
  | EmptyString => [""]
  | String c s' =>
      if Ascii.eqb c sep then [""; s']
      else
        match split_once sep s' with
        | piece :: pieces => String c piece :: pieces
        | [] => [String c ""]
        end
  end.

(** [s.find(sep)]: the index of the first [sep], or -1. *)
Fixpoint find (sep : ascii) (s : string) : Z :=
  match s with
  | EmptyString => (-1)%Z
  | String c s' =>
      if Ascii.eqb c sep then 0%Z
      else
        let i := find sep s' in
        if (i =? -1)%Z then (-1)%Z else (i + 1)%Z
  end.

(** [s.partition(sep)]: what is before the first [sep], the separator and
    what is after it; without a separator, [s] and two empty strings. *)
Fixpoint partition (sep : ascii) (s : string) : string * string * string :=
  match s with
  | EmptyString => ("", "", "")
  | String c s' =>
      if Ascii.eqb c sep then ("", String sep "", s')
      else
        let '(before, found, after) := partition sep s' in
        (String c before, found, after)
  end.

End pystr.

(** ** split_string *)

(** [[item.strip() for item in value.split(",") if item.strip()]]; the
    click context and the parameter are not used. *)
Definition split_string (value : string) : list string :=
  py.strip <$> filter (fun item => py.truthy (py.strip item) = true) (pystr.split "," value).

(** A string in which the character [c] does not occur. *)
Fixpoint free_of (c : ascii) (s : string) : bool :=
  match s with
  | EmptyString => true
  | String a s' => negb (Ascii.eqb a c) && free_of c s'
  end.

(** A string made of whitespace and commas only. *)
Fixpoint blank_or_comma (s : string) : bool :=
  match s with
  | EmptyString => true
  | String c s' => (py.isspace c || Ascii.eqb c ",") && blank_or_comma s'
  end.

(** Scanning [x] with the bracket counter of [split_node_names] at [d]: no
    comma is met while the counter is 0, and the counter is 0 at the end. *)
Fixpoint balanced_from (d : Z) (x : string) : bool :=
  match x with
  | EmptyString => (d =? 0)%Z
  | String c x' =>
      let d' := if Ascii.eqb c "[" then (d + 1)%Z
                else if Ascii.eqb c "]" then (d - 1)%Z else d in
      negb (Ascii.eqb c "," && (d' =? 0)%Z) && balanced_from d' x'
  end.

(** ** _split_load_versions *)

(** The message of the [KedroCliError] of [_split_load_versions]. *)
Definition load_versions_message (load_version : string) : string :=
  "Expected the form of 'load_versions' to be 'dataset_name:YYYY-MM-DDThh.mm.ss.sssZ',found "
  ++ load_version ++ " instead".

(** The loop [for load_version in lv_tuple]. *)
Fixpoint load_versions_loop (lv_tuple : list string) (load_versions_dict : gmap string string)
  : raising (gmap string string) :=
  match lv_tuple with
  | [] => Ok load_versions_dict
  | load_version :: rest =>
      let load_version := py.strip load_version in
      match pystr.split_once ":" load_version with
      | [dataset; version] =>
          load_versions_loop rest (<[dataset := version]> load_versions_dict)
      | _ => Raise (KedroCliError (load_versions_message load_version))
      end
  end.

(** [_split_load_versions]; [lv_tuple] is [value.split(",")]. *)
Definition _split_load_versions (value : string) : raising (gmap string string) :=
  if negb (py.truthy value) then Ok ∅
  else load_versions_loop (pystr.split "," value) ∅.

(** ** _split_params *)

(** What a callback that may call [ctx.fail] does: it returns, or it raises
    click's [UsageError] with a message. *)
Inductive usage (A : Type) :=
| Pass (a : A)
| Fail (message : string).
Arguments Pass {A} a.
Arguments Fail {A} message.

Definition missing_equals_message (option_name item : string) : string :=
  "Invalid format of `" ++ option_name ++ "` option: Item `" ++ item
  ++ "` must contain a key and a value separated by `=`.".

Definition empty_key_message (option_name : string) : string :=
  "Invalid format of `" ++ option_name
  ++ "` option: Parameter key cannot be an empty string.".

(** The loop [for item in split_string(ctx, param, value)], which builds
    [dot_list]. *)
Fixpoint split_params_loop (option_name : string) (items : list string)
    (dot_list : list string) : usage (list string) :=
  match items with
  | [] => Pass dot_list
  | item :: rest =>
      if (pystr.find "=" item =? -1)%Z
      then Fail (missing_equals_message option_name item)
      else
        let '(key, _, val) := pystr.partition "=" item in
        let key := py.strip key in
        if negb (py.truthy key) then Fail (empty_key_message option_name)
        else split_params_loop option_name rest (dot_list ++ [(key ++ "=" ++ val)%string])
  end.

(** [_split_params].  A value that is a dict already is returned as it is;
    [from_dotlist dot_list] stands for
    [OmegaConf.to_container(OmegaConf.from_dotlist(dot_list))]. *)
Definition _split_params {dict : Type} (from_dotlist : list string → dict)
    (param : ClickParameter) (value : dict + string) : usage dict :=
  match value with
  | inl d => Pass d
  | inr s =>
      match split_params_loop (param_name param) (split_string s) [] with
      | Pass dot_list => Pass (from_dotlist dot_list)
      | Fail message => Fail message
      end
  end.

(** ** CommandCollection.__init__ and format_commands *)

(** The attributes that [__init__] sets on the router besides [sources] and
    [lazy_groups]: [groups] (titles with their merged collections), [help],
    [params] and [callback]. *)
Record Router := {
  rt_groups : list (string * list CommandCollection);
  rt_cli : cli;
  rt_help : string;
  rt_params : list ClickParameter;
  rt_callback : option nat
}.

(** The collection objects in [self.groups] are the objects in [sources]:
    what [_dedupe_commands] does to the latter shows in the former.  The
    [i]-th object of the chained groups is the [i]-th of [objs]. *)
Fixpoint regroup {A B : Type} (groups : list (A * list B)) (objs : list B)
  : list (A * list B) :=
  match groups with
  | [] => []
  | (title, cli_list) :: rest =>
      (title, take (length cli_list) objs) :: regroup rest (drop (length cli_list) objs)
  end.

(** [CommandCollection.__init__], given the titled groups and the plugin
    entry points.  It raises at [sources[0]] when there is no source. *)
Definition __init__ (st : store) (groups : list (string * list gref))
    (plugin_entry_points : list (string * EntryPoint)) : raising (store * Router) :=
  let self_groups :=
    (fun group : string * list gref =>
       (group.1, _merge_same_name_collections st group.2)) <$> groups in
  let sources := concat (self_groups.*2) in
  let help_texts := helps_of st (group_refs sources) in
  let '(st', sources') := _dedupe_commands st sources in
  match sources' with
  | [] => Raise IndexError
  | first :: _ =>
      Ok (st',
          {| rt_groups := regroup self_groups sources';
             rt_cli := {| sources := SrcCollection <$> sources';
                          lazy_groups := plugin_entry_points;
                          loads := []; warnings := [] |};
             rt_help := py.join blank_line help_texts;
             rt_params := cc_params first;
             rt_callback := cc_callback first |})
  end.

(** What [format_commands] does with the formatter: it writes a styled
    heading, or lets a collection format its own commands. *)
Inductive formatter_call :=
| write_styled (text : string) (fg : string)
| group_format_commands (group : CommandCollection).

(** [str(group.name)] inside the f-string. *)
Definition name_text (group_name : option string) : string :=
  match group_name with
  | Some n => n
  | None => "None"
  end.

(** The heading ["\n{title} from {group.name}"]. *)
Definition heading (title : string) (group : CommandCollection) : string :=
  LF ++ title ++ " from " ++ name_text (cc_name group).

(** [format_commands]: the calls it makes, in order. *)
Definition format_commands (self_groups : list (string * list CommandCollection))
  : list formatter_call :=
  concat
    ((fun entry : string * list CommandCollection =>
        concat
          ((fun group =>
              match cc_sources group with
              | [] => []
              | _ => [write_styled (heading entry.1 group) "green";
                      group_format_commands group]
              end) <$> entry.2)) <$> self_groups).

(** ** CommandCollection.resolve_command *)

(** The order of [str]: by code points, a prefix first. *)
Definition str_le (x y : string) : Prop := String.leb x y = true.

#[global] Instance str_le_dec x y : Decision (str_le x y).
Proof. unfold str_le. apply _. Defined.

(** [sorted(names)], as click's [list_commands] returns the names. *)
Definition sorted_names (names : gset string) : list string :=
  merge_sort str_le (elements names).

(** What click's [resolve_command] and the override do: return, raise
    click's [UsageError] with a message, or raise something else. *)
Inductive resolution (A : Type) :=
| Resolved (a : A)
| UsageError (message : string)
| Raised (e : exn).
Arguments Resolved {A} a.
Arguments UsageError {A} message.
Arguments Raised {A} e.

(** [CommandCollection.resolve_command]; [super_resolve_command] is click's
    method on the same arguments. *)
Definition resolve_command {A : Type} (super_resolve_command : list string → resolution A)
    (st : store) (args : list string) (s : cli) : resolution A :=
  match super_resolve_command args with
  | UsageError message =>
      match args with
      | [] => Raised IndexError
      | original_command_name :: _ =>
          match list_commands_of st (sources s) with
          | Raise e => Raised e
          | Ok existing_command_names =>
              match _suggest_cli_command original_command_name
                      (sorted_names existing_command_names) with
              | Ok suggestion => UsageError (message ++ suggestion)
              | Raise e => Raised e
              end
          end
      end
  | other => other
  end.

(** ** Sample data for the router

    Three groups that all provide [run]: references 0 and 2 are named
    [a], reference 1 is named [b]; they are given in the order 0, 1, 2. *)

Definition clustered_store : store :=
  fun r =>
    match r with
    | 0%nat => {| name := Some "a"; help := Some "first"; callback := Some 7%nat;
                  params := [ {| param_name := "env" |} ];
                  commands := {[ "run" := CommandObj 1 ]} |}
    | 1%nat => {| name := Some "b"; help := None; callback := None; params := [];
                  commands := {[ "run" := CommandObj 2 ]} |}
    | 2%nat => {| name := Some "a"; help := Some "third"; callback := None; params := [];
                  commands := {[ "run" := CommandObj 3 ]} |}
    | _ => no_group
    end.

(** ** What one load gives *)

(** The group [load_entry_points] keeps for [ep], if any. *)
Definition loaded_group (env : EntryPoint → load_outcome) (ep : EntryPoint) : option gref :=
  match env ep with
  | Loaded plugin => Some plugin
  | _ => None
  end.

(** The warning [_safe_load_entry_point] logs for [ep], if any: none when
    the load returns, none when reading [module] raises in the handler. *)
Definition load_warning (env : EntryPoint → load_outcome) (ep : EntryPoint)
  : option warning :=
  match env ep, ep_module ep with
  | LoadError exc, Ok module =>
      Some {| warn_module := module; warn_entry_point := ep; warn_exc := exc |}
  | _, _ => None
  end.

(** The source [_load_plugins] appends for [ep], if the loader came back:
    the plugin's group, or [None] after a load whose [Exception] was
    logged. *)
Definition added_source (env : EntryPoint → load_outcome) (ep : EntryPoint)
  : option source :=
  match escaping env ep with
  | None => Some (plugin_source env ep)
  | Some _ => None
  end.

(** In [half_broken_env] the load of [kedro-viz] raises an [ImportError]
    and every other load gives the global group. *)
Definition half_broken_env (ep : EntryPoint) : load_outcome :=
  if decide (ep = viz_ep) then LoadError "No module named kedro_viz" else Loaded 0.

(** [x] occurs in [s] as a contiguous substring. *)
Definition substring_of (x s : string) : Prop :=
  ∃ before after, s = (before ++ x ++ after)%string.

(** ** KedroCliError.show *)

(** One call of [click.secho]: the text, whether a line feed follows, and
    the colour. *)
Record secho_call := {
  secho_message : string;
  secho_nl : bool;
  secho_fg : string
}.

Definition COOKIECUTTER_EXCEPTIONS_PREFIX : string := "cookiecutter.exceptions".

(** The loop over [traceback.format_exception(...)]: the first line that
    contains the prefix, else the empty string. *)
Fixpoint cookiecutter_exception (lines : list string) : string :=
  match lines with
  | [] => ""
  | ex_line :: rest =>
      if py.contains COOKIECUTTER_EXCEPTIONS_PREFIX ex_line then ex_line
      else cookiecutter_exception rest
  end.

(** [KedroCliError.show].  [VERBOSE_ERROR] is the class attribute that
    [_update_verbose_flag] sets, [VERBOSE_EXISTS] is read from [w];
    [format_exc], [format_exception_only] and [format_exception] are what
    the functions of [traceback] return for the exception being handled. *)
Definition show (VERBOSE_ERROR : bool) (w : config_world) (format_exc : string)
    (format_exception_only format_exception : list string) : secho_call :=
  if VERBOSE_ERROR then
    {| secho_message := format_exc; secho_nl := false; secho_fg := "yellow" |}
  else if VERBOSE_EXISTS w then
    let formatted_exception := py.concat_str format_exception_only in
    {| secho_message :=
         cookiecutter_exception format_exception ++ formatted_exception
         ++ "Run with --verbose to see the full exception";
       secho_nl := true; secho_fg := "yellow" |}
  else
    {| secho_message := py.concat_str format_exception_only;
       secho_nl := true; secho_fg := "yellow" |}.

(** * Properties *)

(** ** Strings *)

Lemma append_cons c (s t : string) : (String c s ++ t)%string = String c (s ++ t).
Proof. reflexivity. Qed.

Lemma string_app_assoc (s t u : string) : ((s ++ t) ++ u = s ++ (t ++ u))%string.
Proof. induction s as [|c s IH]; [reflexivity|]. rewrite !append_cons. by rewrite IH. Qed.

Lemma string_app_nil_r (s : string) : (s ++ "")%string = s.
Proof. induction s as [|c s IH]; [reflexivity|]. rewrite append_cons. by rewrite IH. Qed.

(** ** split_node_names *)

Lemma split_loop_app s t st : split_loop (s ++ t) st = split_loop t (split_loop s st).
Proof.
  unfold split_loop. revert st. induction s as [|c s IH]; intros st; [reflexivity|].
  change (String c s ++ t)%string with (String c (s ++ t)). cbn. apply IH.
Qed.




(** ** Deduplication: the first pass *)

Section dedupe_pass_facts.

Implicit Types (st : store) (seen : gset string) (l : list gref) (r : gref).

Lemma elem_of_names_of st l n :
  n ∈ names_of st l ↔ ∃ r, r ∈ l ∧ n ∈ dom (commands (st r)).
Proof.
  unfold names_of. rewrite elem_of_union_list. split.
  - intros (X & HX & Hn). apply list_elem_of_fmap in HX as (r & -> & Hr). eauto.
  - intros (r & Hr & Hn). eexists. split; [|exact Hn].
    apply list_elem_of_fmap. eauto.
Qed.

Lemma dedupe_pass_flat st cli_collections :
  dedupe_pass st cli_collections
  = foldl dedupe_group (st, ∅) (reverse (group_refs cli_collections)).
Proof.
  unfold dedupe_pass, group_refs. generalize (st, ∅ : gset string).
  induction cli_collections as [|c cs IH]; intros acc; [reflexivity|].
  rewrite fmap_cons. cbn [concat]. rewrite reverse_cons, reverse_app, !foldl_app.
  cbn [foldl]. rewrite IH. reflexivity.
Qed.

Lemma dedupe_group_unfold st seen r :
  dedupe_group (st, seen) r
  = (<[r := set_commands (st r) (filter (fun kv => kv.1 ∉ seen) (commands (st r)))]> st,
     seen ∪ dom (commands (st r))).
Proof.
  cbn. f_equal. apply set_eq. intros n. rewrite !elem_of_union, !elem_of_dom.
  split.
  - intros [?|[c Hc]]; [by left|]. apply map_lookup_filter_Some in Hc as [Hc _].
    right. eauto.
  - intros [?|[c Hc]]; [by left|].
    destruct (decide (n ∈ seen)); [by left|]. right. exists c.
    apply map_lookup_filter_Some. eauto.
Qed.

Lemma dedupe_fold_seen l st seen :
  (foldl dedupe_group (st, seen) l).2 = seen ∪ names_of st l.
Proof.
  revert st seen. induction l as [|r l IH]; intros st seen; cbn [foldl].
  - cbn. unfold names_of. cbn. set_solver.
  - rewrite dedupe_group_unfold, IH. apply set_eq. intros n.
    rewrite !elem_of_union, !elem_of_names_of. split.
    + intros [[?|?]|(r' & Hr' & Hn)]; [by left| right; exists r; split; [left|done] |].
      right. destruct (decide (r' = r)) as [->|Hne].
      * rewrite fn_lookup_insert in Hn. cbn in Hn.
        exists r. split; [left|]. apply elem_of_dom in Hn as [c Hc].
        apply map_lookup_filter_Some in Hc as [Hc _]. apply elem_of_dom. eauto.
      * rewrite fn_lookup_insert_ne in Hn by done. exists r'. split; [by right|done].
    + intros [?|(r' & Hr' & Hn)]; [by left; left|].
      apply elem_of_cons in Hr' as [->|Hr']; [by left; right|].
      destruct (decide (r' = r)) as [->|Hne]; [by left; right|].
      right. exists r'. split; [done|]. by rewrite fn_lookup_insert_ne.
Qed.

Lemma dedupe_fold_frame l st seen r :
  r ∉ l → (foldl dedupe_group (st, seen) l).1 r = st r.
Proof.
  revert st seen. induction l as [|r0 l IH]; intros st seen Hr; cbn [foldl]; [done|].
  apply not_elem_of_cons in Hr as [Hne Hr].
  rewrite dedupe_group_unfold, IH by done. by rewrite fn_lookup_insert_ne.
Qed.

Lemma dedupe_fold_shrink l st seen r :
  commands ((foldl dedupe_group (st, seen) l).1 r) ⊆ commands (st r).
Proof.
  revert st seen. induction l as [|r0 l IH]; intros st seen; cbn [foldl]; [done|].
  rewrite dedupe_group_unfold. etrans; [apply IH|].
  destruct (decide (r = r0)) as [->|Hne].
  - rewrite fn_lookup_insert. cbn. apply map_filter_subseteq.
  - by rewrite fn_lookup_insert_ne.
Qed.

Lemma dedupe_fold_fresh l st seen r :
  r ∈ l → dom (commands ((foldl dedupe_group (st, seen) l).1 r)) ## seen.
Proof.
  revert st seen. induction l as [|r0 l IH]; intros st seen Hr; cbn [foldl].
  - by apply elem_of_nil in Hr.
  - rewrite dedupe_group_unfold.
    destruct (decide (r ∈ l)) as [Hin|Hnin].
    + specialize (IH (<[r0:=set_commands (st r0)
             (filter (λ kv : string * Command, kv.1 ∉ seen) (commands (st r0)))]> st)
             (seen ∪ dom (commands (st r0))) Hin). set_solver.
    + apply elem_of_cons in Hr as [->|?]; [|done].
      rewrite dedupe_fold_frame by done. rewrite fn_lookup_insert. cbn.
      intros n Hn Hs. apply elem_of_dom in Hn as [c Hc].
      apply map_lookup_filter_Some in Hc as [_ Hc]. cbn in Hc. done.
Qed.

(** After the first pass the processed groups have pairwise disjoint names,
    also when one object is listed more than once. *)
Lemma dedupe_fold_pairwise l st seen :
  ForallOrdPairs
    (fun r1 r2 =>
       dom (commands ((foldl dedupe_group (st, seen) l).1 r1))
       ## dom (commands ((foldl dedupe_group (st, seen) l).1 r2))) l.
Proof.
  revert st seen. induction l as [|r0 l IH]; intros st seen; cbn [foldl].
  - constructor.
  - rewrite dedupe_group_unfold. constructor; [|apply IH].
    apply List.Forall_forall. intros r2 Hr2%list_elem_of_In.
    pose proof (dedupe_fold_fresh l
      (<[r0:=set_commands (st r0)
             (filter (λ kv : string * Command, kv.1 ∉ seen) (commands (st r0)))]> st)
      (seen ∪ dom (commands (st r0))) r2 Hr2) as Hfresh.
    pose proof (dedupe_fold_shrink l
      (<[r0:=set_commands (st r0)
             (filter (λ kv : string * Command, kv.1 ∉ seen) (commands (st r0)))]> st)
      (seen ∪ dom (commands (st r0))) r0) as Hshrink.
    rewrite fn_lookup_insert in Hshrink. cbn in Hshrink.
    apply subseteq_dom in Hshrink.
    pose proof (map_filter_subseteq (λ kv : string * Command, kv.1 ∉ seen)
                  (commands (st r0))) as Hsub%subseteq_dom.
    set_solver.
Qed.

(** When every object is listed once, each group keeps exactly the names that
    no group processed before it holds. *)
Lemma dedupe_fold_exact l1 r l2 st seen :
  NoDup (l1 ++ r :: l2) →
  commands ((foldl dedupe_group (st, seen) (l1 ++ r :: l2)).1 r)
  = filter (fun kv => kv.1 ∉ seen ∪ names_of st l1) (commands (st r)).
Proof.
  revert st seen. induction l1 as [|r0 l1 IH]; intros st seen Hnd.
  - cbn [app foldl]. apply list.NoDup_cons in Hnd as [Hr _].
    rewrite dedupe_group_unfold, dedupe_fold_frame by done.
    rewrite fn_lookup_insert. cbn. apply map_filter_ext. intros n c _. cbn.
    unfold names_of. cbn. set_solver.
  - cbn [app foldl] in *. apply list.NoDup_cons in Hnd as [Hr0 Hnd].
    rewrite dedupe_group_unfold, IH by done.
    assert (r ≠ r0) as Hne by (intros ->; apply Hr0; set_solver).
    rewrite fn_lookup_insert_ne by done.
    apply map_filter_ext. intros n c _. cbn.
    assert (names_of (<[r0:=set_commands (st r0)
             (filter (λ kv : string * Command, kv.1 ∉ seen) (commands (st r0)))]> st) l1
            = names_of st l1) as ->.
    { apply set_eq. intros m. rewrite !elem_of_names_of.
      split; intros (r' & Hr' & Hm); exists r'; split; try done.
      - rewrite fn_lookup_insert_ne in Hm; [done|]. intros ->. apply Hr0. set_solver.
      - rewrite fn_lookup_insert_ne; [done|]. intros ->. apply Hr0. set_solver. }
    unfold names_of. set_solver.
Qed.

End dedupe_pass_facts.

(** ** Ordered pairs of a list, for a symmetric relation *)

Section ordered_pairs.

Context {A : Type} (R : A → A → Prop).

Lemma ForallOrdPairs_snoc l x :
  ForallOrdPairs R (l ++ [x]) → ForallOrdPairs R l ∧ Forall (fun y => R y x) l.
Proof.
  induction l as [|a l IH]; cbn; intros H.
  - split; constructor.
  - inversion H as [|? ? Ha Hl]; subst.
    destruct (IH Hl) as [IH1 IH2].
    apply List.Forall_app in Ha as [Ha1 Ha2].
    split; constructor; auto. by inversion Ha2.
Qed.

Lemma ForallOrdPairs_reverse l :
  Symmetric R → ForallOrdPairs R (reverse l) → ForallOrdPairs R l.
Proof.
  intros Hsym. induction l as [|a l IH]; [constructor|].
  rewrite reverse_cons. intros [H1 H2]%ForallOrdPairs_snoc.
  constructor; [|auto].
  apply List.Forall_forall. intros y Hy. symmetry.
  rewrite List.Forall_forall in H2. apply H2.
  apply list_elem_of_In, elem_of_reverse, list_elem_of_In, Hy.
Qed.

Lemma ForallOrdPairs_filter (P : A → Prop) `{∀ x, Decision (P x)} l :
  ForallOrdPairs R l → ForallOrdPairs R (filter P l).
Proof.
  induction 1 as [|a l Ha Hl IH]; [constructor|].
  rewrite filter_cons. destruct (decide (P a)); [|done].
  constructor; [|done].
  apply List.Forall_forall. intros y Hy%list_elem_of_In%list_elem_of_filter.
  rewrite List.Forall_forall in Ha. apply Ha, list_elem_of_In, Hy.
Qed.

Lemma ForallOrdPairs_NoDup l :
  ForallOrdPairs R l → (∀ x, x ∈ l → ¬ R x x) → NoDup l.
Proof.
  induction 1 as [|a l Ha Hl IH]; intros Hirr; [constructor|].
  apply list.NoDup_cons. split.
  - intros Hin. apply (Hirr a); [left|].
    rewrite List.Forall_forall in Ha. apply Ha, list_elem_of_In, Hin.
  - apply IH. intros x Hx. apply Hirr. by right.
Qed.

Lemma ForallOrdPairs_elem_of l x y :
  Symmetric R → ForallOrdPairs R l → x ∈ l → y ∈ l → x = y ∨ R x y.
Proof.
  intros Hsym Hl Hx%list_elem_of_In Hy%list_elem_of_In.
  destruct (ForallOrdPairs_In Hl _ _ Hx Hy) as [?|[?|?]]; auto.
Qed.

End ordered_pairs.

(** ** Deduplication: the second pass and the invariant *)

Lemma group_refs_remove_empty st cli_collections :
  group_refs (remove_empty_groups st <$> cli_collections)
  = filter (has_commands st) (group_refs cli_collections).
Proof.
  unfold group_refs. induction cli_collections as [|c cs IH]; [reflexivity|].
  rewrite !fmap_cons. cbn [concat]. rewrite list.filter_app, IH. reflexivity.
Qed.

Lemma dom_disjoint_self (m : gmap string Command) : dom m ## dom m → m = ∅.
Proof.
  intros Hd. apply map_empty. intros n. apply not_elem_of_dom. set_solver.
Qed.

Lemma dedupe_commands_survivors (st : store) (cli_collections : list CommandCollection) :
  let '(st', sources') := _dedupe_commands st cli_collections in
  NoDup (group_refs sources')
  ∧ (∀ n r1 r2,
       r1 ∈ group_refs sources' → r2 ∈ group_refs sources' →
       n ∈ dom (commands (st' r1)) → n ∈ dom (commands (st' r2)) → r1 = r2)
  ∧ Forall2
      (fun c c' =>
         cc_sources c' `sublist_of` cc_sources c
         ∧ (∀ r, r ∈ cc_sources c' ↔ r ∈ cc_sources c ∧ commands (st' r) ≠ ∅)
         ∧ cc_name c' = cc_name c ∧ cc_help c' = cc_help c
         ∧ cc_callback c' = cc_callback c ∧ cc_params c' = cc_params c)
      cli_collections sources'.
Proof.
  unfold _dedupe_commands. rewrite dedupe_pass_flat.
  set (st' := (foldl dedupe_group (st, ∅) (reverse (group_refs cli_collections))).1).
  rewrite group_refs_remove_empty.
  set (R := fun r1 r2 => dom (commands (st' r1)) ## dom (commands (st' r2))).
  assert (Symmetric R) as Hsym by (intros r1 r2; unfold R; set_solver).
  assert (ForallOrdPairs R (filter (has_commands st') (group_refs cli_collections)))
    as Hpairs.
  { apply ForallOrdPairs_filter, ForallOrdPairs_reverse; [done|].
    apply dedupe_fold_pairwise. }
  split; [|split].
  - apply (ForallOrdPairs_NoDup R); [done|].
    intros r [Hne _]%list_elem_of_filter Hrr. apply Hne, dom_disjoint_self, Hrr.
  - intros n r1 r2 H1 H2 Hn1 Hn2.
    destruct (ForallOrdPairs_elem_of R _ r1 r2 Hsym Hpairs H1 H2) as [?|Hd]; [done|].
    exfalso. apply (Hd n Hn1 Hn2).
  - apply Forall2_fmap_r, Forall_Forall2_diag, List.Forall_forall. intros c _.
    cbn. split; [apply sublist_filter|]. split; [|done].
    intros r. rewrite list_elem_of_filter. unfold has_commands. tauto.
Qed.

(** ** Lookups after deduplication *)

Lemma names_of_app st l1 l2 : names_of st (l1 ++ l2) = names_of st l1 ∪ names_of st l2.
Proof. unfold names_of. rewrite fmap_app. apply leibniz_equiv, union_list_app. Qed.

Lemma names_of_reverse st l : names_of st (reverse l) = names_of st l.
Proof.
  apply set_eq. intros n. rewrite !elem_of_names_of.
  split; intros (r & Hr & Hn); exists r; split; try done;
    by apply elem_of_reverse.
Qed.

Lemma provided_names_refs st cli_collections :
  provided_names st cli_collections = names_of st (group_refs cli_collections).
Proof.
  unfold provided_names, group_refs.
  induction cli_collections as [|c cs IH]; [reflexivity|].
  rewrite !fmap_cons. cbn [concat]. rewrite names_of_app, <- IH. reflexivity.
Qed.

Lemma first_command_app_none st l1 l2 n :
  n ∉ names_of st l1 →
  click.first_command st (l1 ++ l2) n = click.first_command st l2 n.
Proof.
  induction l1 as [|r l1 IH]; intros Hn; [reflexivity|].
  cbn. unfold click.group_get_command.
  destruct (commands (st r) !! n) as [c|] eqn:E.
  - exfalso. apply Hn, elem_of_names_of. exists r. split; [left|].
    apply elem_of_dom. eauto.
  - apply IH. intros Hin. apply Hn. apply elem_of_names_of in Hin as (r' & ? & ?).
    apply elem_of_names_of. exists r'. split; [by right|done].
Qed.

Lemma first_command_none st l n :
  n ∉ names_of st l → click.first_command st l n = None.
Proof.
  intros Hn. rewrite <- (app_nil_r l). by rewrite first_command_app_none.
Qed.

Lemma resolve_flat st cli_collections n :
  resolve st cli_collections n = click.first_command st (group_refs cli_collections) n.
Proof.
  unfold group_refs. induction cli_collections as [|c cs IH]; [reflexivity|].
  rewrite fmap_cons. cbn [concat resolve]. unfold click.get_command. rewrite IH.
  induction (cc_sources c) as [|r l IHl]; [reflexivity|].
  cbn. destruct (click.group_get_command st r n); [reflexivity|apply IHl].
Qed.

(** The last group of [l] that holds [n]. *)
Lemma last_provider st l n :
  n ∈ names_of st l →
  ∃ l1 r l2, l = l1 ++ r :: l2 ∧ n ∈ dom (commands (st r)) ∧ n ∉ names_of st l2.
Proof.
  induction l as [|r l IH]; intros Hn.
  - apply elem_of_names_of in Hn as (? & []%elem_of_nil & _).
  - destruct (decide (n ∈ names_of st l)) as [Hl|Hl].
    + destruct (IH Hl) as (l1 & r' & l2 & -> & ? & ?).
      by exists (r :: l1), r', l2.
    + exists [], r, l. split; [done|]. split; [|done].
      apply elem_of_names_of in Hn as (r' & [->|Hr']%elem_of_cons & Hn); [done|].
      exfalso. apply Hl, elem_of_names_of. eauto.
Qed.

(** What one group holds after [_dedupe_commands], when no object is listed
    twice: its names that no group listed after it holds. *)
Lemma dedupe_commands_exact st cli_collections l1 r l2 :
  NoDup (group_refs cli_collections) →
  group_refs cli_collections = l1 ++ r :: l2 →
  commands ((_dedupe_commands st cli_collections).1 r)
  = filter (fun kv => kv.1 ∉ names_of st l2) (commands (st r)).
Proof.
  intros Hnd Hsplit. cbn. rewrite dedupe_pass_flat, Hsplit.
  rewrite reverse_app, reverse_cons, <- app_assoc. cbn [app].
  rewrite dedupe_fold_exact.
  - apply map_filter_ext. intros n c _. cbn. rewrite names_of_reverse. set_solver.
  - rewrite Hsplit, <- reverse_Permutation in Hnd.
    by rewrite reverse_app, reverse_cons, <- app_assoc in Hnd.
Qed.

Lemma list_commands_names_of st c :
  click.list_commands st c = names_of st (cc_sources c).
Proof. reflexivity. Qed.






(** The theorem needs its first hypothesis: a group object that two sources
    share is visited twice by the first pass, loses every command on the
    second visit and is then dropped from both. *)
Lemma dedupe_shared_group_is_emptied :
  let shared := [collection_of sample_store 0; collection_of sample_store 0] in
  cc_sources <$> (_dedupe_commands sample_store shared).2 = [[]; []]
  ∧ commands ((_dedupe_commands sample_store shared).1 0) = ∅
  ∧ resolve (_dedupe_commands sample_store shared).1
            (_dedupe_commands sample_store shared).2 "run" = None.
Proof. cbn zeta. repeat split; vm_compute; reflexivity. Qed.

(** C5: after [_dedupe_commands] no command name appears in more than one
    surviving command group of all sources together (the surviving groups
    are distinct objects and any two of them hold disjoint names), and every
    source keeps, in their original order, exactly its groups whose command
    mapping is not empty. *)
Theorem dedupe_commands_invariant (st : store) (cli_collections : list CommandCollection) :
  let '(st', sources') := _dedupe_commands st cli_collections in
  NoDup (group_refs sources')
  ∧ (∀ n r1 r2,
       r1 ∈ group_refs sources' → r2 ∈ group_refs sources' →
       n ∈ dom (commands (st' r1)) → n ∈ dom (commands (st' r2)) → r1 = r2)
  ∧ Forall2
      (fun c c' =>
         cc_sources c' `sublist_of` cc_sources c
         ∧ (∀ r, r ∈ cc_sources c' ↔ r ∈ cc_sources c ∧ commands (st' r) ≠ ∅)
         ∧ cc_name c' = cc_name c ∧ cc_help c' = cc_help c
         ∧ cc_callback c' = cc_callback c ∧ cc_params c' = cc_params c)
      cli_collections sources'.
Proof. exact (dedupe_commands_survivors st cli_collections). Qed.

(** ** Merging groups that share a name *)

Section defaultdict_facts.

Context {K V : Type} `{EqDecision K}.

Lemma first_seen_elem_of (l : list K) x : x ∈ first_seen l ↔ x ∈ l.
Proof.
  induction l as [|a l IH]; [done|]. cbn [first_seen].
  rewrite !elem_of_cons, list_elem_of_filter, IH.
  destruct (decide (x = a)); naive_solver.
Qed.

Lemma first_seen_NoDup (l : list K) : NoDup (first_seen l).
Proof.
  induction l as [|a l IH]; [constructor|]. cbn [first_seen].
  apply list.NoDup_cons. split.
  - intros [? _]%list_elem_of_filter. done.
  - by apply list.NoDup_filter.
Qed.

Lemma first_seen_snoc (l : list K) x :
  first_seen (l ++ [x])
  = if decide (x ∈ l) then first_seen l else first_seen l ++ [x].
Proof.
  induction l as [|a l IH]; [done|].
  cbn [app first_seen]. rewrite IH.
  destruct (decide (x ∈ l)) as [Hin|Hnin].
  - destruct (decide (x ∈ a :: l)) as [_|Hn]; [done|].
    exfalso. apply Hn. by apply elem_of_cons; right.
  - rewrite list.filter_app, filter_cons, filter_nil.
    destruct (decide (x ∈ a :: l)) as [[->|?]%elem_of_cons|Hn]; [| done |].
    + destruct (decide (a ≠ a)); [done|]. by rewrite app_nil_r.
    + destruct (decide (x ≠ a)) as [|Heq]; [done|].
      exfalso. apply Hn, elem_of_cons. left. by destruct (decide (x = a)).
Qed.

Lemma append_to_closed (f f' : K → list V) (ks : list K) k v :
  NoDup ks →
  (k ∉ ks → f k = []) →
  (∀ k', f' k' = if decide (k' = k) then f k ++ [v] else f k') →
  defaultdict.append_to ((fun k => (k, f k)) <$> ks) k v
  = (fun k => (k, f' k)) <$> (if decide (k ∈ ks) then ks else ks ++ [k]).
Proof.
  intros Hnd Hnew Hf'. induction ks as [|a ks IH].
  - destruct (decide (k ∈ [])) as [[]%elem_of_nil|_].
    cbn. rewrite Hf'. destruct (decide (k = k)); [|done].
    rewrite Hnew by apply not_elem_of_nil. done.
  - apply list.NoDup_cons in Hnd as [Ha Hnd]. rewrite fmap_cons.
    cbn [defaultdict.append_to]. destruct (decide (a = k)) as [->|Hne].
    + destruct (decide (k ∈ k :: ks)) as [_|Hn];
        [|exfalso; apply Hn, elem_of_cons; by left].
      rewrite fmap_cons, Hf'. destruct (decide (k = k)); [|done].
      f_equal. apply list_fmap_ext. intros _ k' Hk'%list_elem_of_lookup_2.
      rewrite Hf'. destruct (decide (k' = k)) as [->|]; done.
    + rewrite IH; [|done|].
      * destruct (decide (k ∈ ks)) as [Hin|Hnin].
        -- destruct (decide (k ∈ a :: ks)) as [_|Hn];
             [|exfalso; apply Hn, elem_of_cons; by right].
           rewrite fmap_cons, Hf'. by destruct (decide (a = k)).
        -- destruct (decide (k ∈ a :: ks)) as [[->|?]%elem_of_cons|_]; [done..|].
           cbn [app]. rewrite fmap_cons, Hf'. by destruct (decide (a = k)).
      * intros Hk. apply Hnew. intros [->|?]%elem_of_cons; done.
Qed.

Lemma get_closed (f : K → list V) (ks : list K) k :
  (k ∉ ks → f k = []) →
  defaultdict.get ((fun k => (k, f k)) <$> ks) k = f k.
Proof.
  intros Hnew. induction ks as [|a ks IH]; cbn.
  - symmetry. apply Hnew, not_elem_of_nil.
  - destruct (decide (a = k)) as [->|Hne]; [done|].
    apply IH. intros Hk. apply Hnew. intros [->|?]%elem_of_cons; done.
Qed.

End defaultdict_facts.

Lemma constituents_snoc st p g k :
  constituents st (p ++ [g]) k
  = if decide (k = name (st g)) then constituents st p k ++ [g] else constituents st p k.
Proof.
  unfold constituents. rewrite list.filter_app, filter_cons, filter_nil.
  destruct (decide (name (st g) = k)) as [<-|Hne].
  - by destruct (decide (name (st g) = name (st g))).
  - destruct (decide (k = name (st g))); [by subst|]. by rewrite app_nil_r.
Qed.

Lemma constituents_nil st p k :
  k ∉ (fun r => name (st r)) <$> p → constituents st p k = [].
Proof.
  intros Hk. unfold constituents. induction p as [|g p IH]; [done|].
  rewrite filter_cons. rewrite fmap_cons in Hk.
  destruct (decide (name (st g) = k)) as [<-|Hne].
  - exfalso. apply Hk. by apply elem_of_cons; left.
  - apply IH. intros ?. apply Hk. by apply elem_of_cons; right.
Qed.

Lemma helps_of_nil st p k :
  k ∉ (fun r => name (st r)) <$> filter (fun r => is_Some (truthy_help (st r))) p →
  helps_of st (constituents st p k) = [].
Proof.
  intros Hk. unfold helps_of, constituents. induction p as [|g p IH]; [done|].
  rewrite filter_cons in Hk. rewrite filter_cons.
  destruct (decide (is_Some (truthy_help (st g)))) as [Hs|Hn].
  - rewrite fmap_cons in Hk. destruct (decide (name (st g) = k)) as [<-|Hne].
    + exfalso. apply Hk. by apply elem_of_cons; left.
    + apply IH. intros ?. apply Hk. by apply elem_of_cons; right.
  - destruct (decide (name (st g) = k)); [|by apply IH].
    cbn. destruct (truthy_help (st g)) eqn:E; [exfalso; apply Hn; eauto|].
    by apply IH.
Qed.

(** The two dictionaries after the loop, in closed form. *)
Lemma merge_fold_closed st groups :
  foldl (merge_step st) ([], []) groups
  = ((fun k => (k, constituents st groups k))
       <$> first_seen ((fun r => name (st r)) <$> groups),
     (fun k => (k, helps_of st (constituents st groups k)))
       <$> first_seen ((fun r => name (st r))
                         <$> filter (fun r => is_Some (truthy_help (st r))) groups)).
Proof.
  induction groups as [|g p IH] using rev_ind; [reflexivity|].
  rewrite foldl_snoc, IH. cbn [merge_step]. f_equal.
  - rewrite fmap_app.
    change ((fun r => name (st r)) <$> [g]) with [name (st g)].
    rewrite first_seen_snoc.
    rewrite (append_to_closed (constituents st p) (constituents st (p ++ [g]))).
    + repeat case_decide; try done; exfalso;
        match goal with H : _ ∈ first_seen _ |- _ => rewrite first_seen_elem_of in H
                   | H : _ ∉ first_seen _ |- _ => rewrite first_seen_elem_of in H end;
        done.
    + apply first_seen_NoDup.
    + rewrite first_seen_elem_of. apply constituents_nil.
    + intros k. rewrite constituents_snoc. by case_decide; subst.
  - rewrite list.filter_app, filter_cons, filter_nil.
    destruct (truthy_help (st g)) as [h|] eqn:E.
    + destruct (decide (is_Some (Some h))) as [_|Hn]; [|exfalso; apply Hn; eauto].
      rewrite fmap_app.
      change ((fun r => name (st r)) <$> [g]) with [name (st g)].
      rewrite first_seen_snoc.
      rewrite (append_to_closed (fun k => helps_of st (constituents st p k))
                 (fun k => helps_of st (constituents st (p ++ [g]) k))).
      * repeat case_decide; try done; exfalso;
          match goal with H : _ ∈ first_seen _ |- _ => rewrite first_seen_elem_of in H
                     | H : _ ∉ first_seen _ |- _ => rewrite first_seen_elem_of in H end;
          done.
      * apply first_seen_NoDup.
      * rewrite first_seen_elem_of. apply helps_of_nil.
      * intros k. rewrite constituents_snoc.
        destruct (decide (k = name (st g))) as [->|]; [|done].
        unfold helps_of. rewrite omap_app. cbn. by rewrite E.
    + destruct (decide (is_Some (@None string))) as [[? [=]]|_].
      rewrite app_nil_r. apply list_fmap_ext. intros _ k _.
      rewrite constituents_snoc. destruct (decide (k = name (st g))); [|done].
      unfold helps_of. rewrite omap_app. cbn. by rewrite E, app_nil_r.
Qed.

Lemma constituents_cons_of st groups g :
  g ∈ groups → ∃ first rest, constituents st groups (name (st g)) = first :: rest.
Proof.
  intros Hg. destruct (constituents st groups (name (st g))) as [|first rest] eqn:E.
  - assert (g ∈ constituents st groups (name (st g))) as Hin
      by (by apply list_elem_of_filter). rewrite E in Hin. by apply elem_of_nil in Hin.
  - eauto.
Qed.

Lemma merge_collections_closed st groups (ks : list (option string)) :
  (∀ k, k ∈ ks → k ∈ (fun r => name (st r)) <$> groups) →
  let built :=
    omap (merged_collection st (foldl (merge_step st) ([], []) groups).2)
         ((fun k => (k, constituents st groups k)) <$> ks) in
  cc_name <$> built = ks
  ∧ Forall (fun c =>
       cc_sources c = constituents st groups (cc_name c)
       ∧ cc_help c = py.join blank_line (helps_of st (constituents st groups (cc_name c)))
       ∧ ∃ first rest,
           constituents st groups (cc_name c) = first :: rest
           ∧ cc_callback c = callback (st first) ∧ cc_params c = params (st first))
     built.
Proof.
  induction ks as [|k ks IH]; intros Hks; [by split|].
  rewrite fmap_cons. cbn [omap list_omap].
  destruct IH as [IH1 IH2]; [intros k' ?; apply Hks; by apply elem_of_cons; right|].
  assert (k ∈ (fun r => name (st r)) <$> groups) as Hk
    by (apply Hks, elem_of_cons; by left).
  apply list_elem_of_fmap in Hk as (g & -> & Hg).
  destruct (constituents_cons_of st groups g Hg) as (first & rest & Hc).
  cbn [merged_collection]. rewrite Hc. cbn [fmap list_fmap cc_name].
  split.
  - f_equal. exact IH1.
  - constructor; [|exact IH2]. cbn [cc_sources cc_name cc_help cc_callback cc_params].
    rewrite Hc. split; [done|]. split; [|eauto].
    rewrite merge_fold_closed. cbn [snd]. rewrite get_closed; [by rewrite Hc|].
    rewrite first_seen_elem_of. apply helps_of_nil.
Qed.

Lemma merge_same_name_closed st groups :
  let merged := _merge_same_name_collections st groups in
  cc_name <$> merged = first_seen ((fun r => name (st r)) <$> groups)
  ∧ Forall (fun c =>
       cc_sources c = constituents st groups (cc_name c)
       ∧ cc_help c = py.join blank_line (helps_of st (constituents st groups (cc_name c)))
       ∧ ∃ first rest,
           constituents st groups (cc_name c) = first :: rest
           ∧ cc_callback c = callback (st first) ∧ cc_params c = params (st first))
     merged.
Proof.
  pose proof (merge_collections_closed st groups
                (first_seen ((fun r => name (st r)) <$> groups))) as H.
  unfold _merge_same_name_collections.
  destruct (foldl (merge_step st) ([], []) groups) as [named_groups helps] eqn:E.
  pose proof (merge_fold_closed st groups) as Hc. rewrite E in Hc.
  injection Hc as Hng Hh. cbn [snd] in H. rewrite <- Hng in H. apply H.
  intros k. by rewrite first_seen_elem_of.
Qed.

(** C4, as the code has it: [_merge_same_name_collections] returns exactly
    one collection per distinct group name, in first-seen order; the sources
    of each are the groups of that name in their given order, so it lists
    the union of their command names and a lookup is answered by the first
    of them that knows the name; its help is the truthy helps of these
    groups, in order, joined by a blank line (two line feeds); and its
    callback and parameters are those of the first group of that name. *)
Theorem merge_same_name_collections_spec (st : store) (groups : list gref) :
  let merged := _merge_same_name_collections st groups in
  cc_name <$> merged = first_seen ((fun r => name (st r)) <$> groups)
  ∧ Forall (fun c =>
       cc_sources c = constituents st groups (cc_name c)
       ∧ click.list_commands st c = names_of st (constituents st groups (cc_name c))
       ∧ (∀ n, click.get_command st c n
               = click.first_command st (constituents st groups (cc_name c)) n)
       ∧ cc_help c = py.join blank_line (helps_of st (constituents st groups (cc_name c)))
       ∧ ∃ first rest,
           constituents st groups (cc_name c) = first :: rest
           ∧ cc_callback c = callback (st first) ∧ cc_params c = params (st first))
     merged.
Proof.
  destruct (merge_same_name_closed st groups) as [Hnames Hall].
  split; [exact Hnames|].
  eapply List.Forall_impl; [|exact Hall].
  intros c (Hsrc & Hhelp & Hfirst). split; [done|].
  split; [by rewrite list_commands_names_of, Hsrc|].
  split; [|done]. intros n. unfold click.get_command. by rewrite Hsrc.
Qed.

(** Two groups named [project] with helps [H1] and [H2] merge into one
    collection whose help has a blank line between the two, not a single
    line feed, and in which [run], defined by both, is answered by the
    first group. *)
Lemma merge_same_name_help_blank_line :
  cc_help <$> _merge_same_name_collections project_store [0; 1]
  = [("H1" ++ LF ++ LF ++ "H2")%string]
  ∧ cc_help <$> _merge_same_name_collections project_store [0; 1]
    ≠ [("H1" ++ LF ++ "H2")%string]
  ∧ (fun c => click.get_command project_store c "run")
      <$> _merge_same_name_collections project_store [0; 1]
    = [Some (CommandObj 1)]
  ∧ click.group_get_command project_store 1 "run" = Some (CommandObj 3).
Proof.
  split; [vm_compute; reflexivity|].
  split; [vm_compute; discriminate|].
  split; vm_compute; reflexivity.
Qed.

(** ** The router: what one invocation loads *)

Lemma bind_unfold {A B : Type} (m : M A) (f : A → M B) s :
  bind m f s = match m s with
               | (Ok a, s') => f a s'
               | (Raise e, s') => (Raise e, s')
               end.
Proof. reflexivity. Qed.

Lemma lazy_group_elem_of groups key ep :
  lazy_group groups key = Ok ep → ep ∈ groups.*2.
Proof.
  induction groups as [|[k e] groups IH]; cbn; [done|].
  destruct (String.eqb k key).
  - intros [= ->]. by apply elem_of_cons; left.
  - intros ?. apply elem_of_cons; right. by apply IH.
Qed.

Lemma partial_match_load_length groups command_name :
  (length (partial_match_load groups command_name) ≤ 1)%nat.
Proof.
  unfold partial_match_load.
  destruct (_partial_match groups.*1 command_name) as [n|]; cbn; [|lia].
  destruct (py.truthy n); cbn; [|lia].
  destruct (lazy_group groups n); cbn; lia.
Qed.

Lemma partial_match_load_elem_of groups command_name ep :
  ep ∈ partial_match_load groups command_name → ep ∈ groups.*2.
Proof.
  unfold partial_match_load.
  destruct (_partial_match groups.*1 command_name) as [n|]; [|by intros ?%elem_of_nil].
  destruct (py.truthy n); [|by intros ?%elem_of_nil].
  destruct (lazy_group groups n) eqn:E; [|by intros ?%elem_of_nil].
  intros ->%list_elem_of_singleton. by eapply lazy_group_elem_of.
Qed.

(** The name [_partial_match] returns is a key of the dict. *)
Lemma partial_match_key groups command_name n :
  _partial_match groups.*1 command_name = Some n →
  ∃ ep, lazy_group groups n = Ok ep.
Proof.
  induction groups as [|[k e] groups IH]; cbn; [done|].
  destruct (py.contains command_name k).
  - intros [= ->]. rewrite String.eqb_refl. eauto.
  - intros H. destruct (String.eqb k n); eauto.
Qed.

(** [_partial_match] returns the first name that contains the command. *)
Lemma partial_match_first plugin_names command_name n :
  _partial_match plugin_names command_name = Some n ↔
  ∃ before after,
    plugin_names = before ++ n :: after
    ∧ py.contains command_name n = true
    ∧ ∀ m, m ∈ before → py.contains command_name m = false.
Proof.
  induction plugin_names as [|p ps IH]; cbn.
  - split; [done|]. intros (before & after & H & _). by destruct before.
  - destruct (py.contains command_name p) eqn:E.
    + split.
      * intros [= ->]. exists [], ps. split; [done|]. split; [done|].
        by intros m ?%elem_of_nil.
      * intros (before & after & H & Hn & Hb). destruct before as [|b before].
        -- by injection H as ->.
        -- injection H as -> _. rewrite Hb in E; [done|]. by apply elem_of_cons; left.
    + rewrite IH. split.
      * intros (before & after & -> & Hn & Hb). exists (p :: before), after.
        split; [done|]. split; [done|].
        intros m [->|?]%elem_of_cons; [done|by apply Hb].
      * intros (before & after & H & Hn & Hb). destruct before as [|b before].
        -- injection H as -> _. by rewrite Hn in E.
        -- injection H as -> ->. exists before, after. split; [done|]. split; [done|].
           intros m ?. apply Hb. by apply elem_of_cons; right.
Qed.


Lemma escaping_loaded env ep g : env ep = Loaded g → escaping env ep = None.
Proof. intros H. unfold escaping. by rewrite H. Qed.

Lemma escaping_logged env ep exc module :
  env ep = LoadError exc → ep_module ep = Ok module → escaping env ep = None.
Proof. intros H Hm. unfold escaping. by rewrite H, Hm. Qed.

Lemma escaping_handler env ep exc e :
  env ep = LoadError exc → ep_module ep = Raise e → escaping env ep = Some e.
Proof. intros H Hm. unfold escaping. by rewrite H, Hm. Qed.

(** Loading one handle and adding what it gave, in one step. *)
Lemma load_and_add {A : Type} env ep (k : M A) s :
  bind (_safe_load_entry_point env ep)
       (fun loaded_ep => bind (add_source loaded_ep) (fun _ => k)) s
  = match escaping env ep with
    | Some e => (Raise e, after_abort ep s)
    | None => k (after_load env ep s)
    end.
Proof.
  rewrite bind_unfold.
  unfold _safe_load_entry_point, escaping, after_load, plugin_source.
  destruct (env ep); [|destruct (ep_module ep)|]; try reflexivity;
    rewrite bind_unfold; cbn; by rewrite ?app_nil_r.
Qed.

Lemma load_all_plugins_cons env st command_name ep rest s :
  load_all_plugins env st command_name (ep :: rest) s
  = match list_commands_of st (sources s) with
    | Raise e => (Raise e, s)
    | Ok names =>
        if bool_decide (command_name ∈ names) then (Ok tt, s)
        else match escaping env ep with
             | Some e => (Raise e, after_abort ep s)
             | None => load_all_plugins env st command_name rest (after_load env ep s)
             end
    end.
Proof.
  cbn [load_all_plugins]. rewrite bind_unfold. unfold list_commands.
  destruct (list_commands_of st (sources s)) as [names|e]; [|reflexivity].
  destruct (bool_decide (command_name ∈ names)); [reflexivity|].
  apply load_and_add.
Qed.

Lemma load_partial_match_unfold env st command_name s :
  load_partial_match env st command_name s
  = match partial_match_load (lazy_groups s) command_name with
    | [] => (Ok false, s)
    | ep :: _ =>
        match escaping env ep with
        | Some e => (Raise e, after_abort ep s)
        | None =>
            match list_commands_of st (sources (after_load env ep s)) with
            | Ok names => (Ok (bool_decide (command_name ∈ names)), after_load env ep s)
            | Raise e => (Raise e, after_load env ep s)
            end
        end
    end.
Proof.
  unfold load_partial_match, partial_match_load.
  destruct (_partial_match (lazy_groups s).*1 command_name) as [n|] eqn:E;
    [|reflexivity].
  destruct (py.truthy n); [|reflexivity].
  destruct (partial_match_key _ _ _ E) as [ep Hep].
  rewrite bind_unfold, Hep. cbv beta iota. rewrite load_and_add.
  destruct (escaping env ep); [reflexivity|]. rewrite bind_unfold. unfold list_commands.
  by destruct (list_commands_of _ _).
Qed.








(** Conversely, the first registered name that contains the command is the
    one whose handle the partial-match phase loads, unless that name is
    empty. *)
Lemma lazy_group_first before n ep after :
  n ∉ before.*1 → lazy_group (before ++ (n, ep) :: after) n = Ok ep.
Proof.
  induction before as [|[k e] before IH]; intros Hn; cbn.
  - by rewrite String.eqb_refl.
  - cbn in Hn. apply not_elem_of_cons in Hn as [Hne Hn].
    destruct (String.eqb_spec k n) as [->|_]; [done|]. by apply IH.
Qed.

Lemma partial_match_load_intro groups command_name before n ep after :
  groups = before ++ (n, ep) :: after →
  py.contains command_name n = true →
  (∀ m, m ∈ before.*1 → py.contains command_name m = false) →
  partial_match_load groups command_name = if decide (n = "") then [] else [ep].
Proof.
  intros -> Hn Hb. unfold partial_match_load.
  assert (_partial_match (before ++ (n, ep) :: after).*1 command_name = Some n) as ->.
  { apply partial_match_first. exists before.*1, after.*1.
    split; [by rewrite fmap_app|]. by split. }
  destruct (decide (n = "")) as [->|Hne]; [reflexivity|].
  replace (py.truthy n) with true by (by destruct n).
  rewrite lazy_group_first; [reflexivity|].
  intros Hin. specialize (Hb n Hin). congruence.
Qed.

Lemma partial_match_load_none groups command_name :
  (∀ m, m ∈ groups.*1 → py.contains command_name m = false) →
  partial_match_load groups command_name = [].
Proof.
  intros Hall. unfold partial_match_load.
  destruct (_partial_match groups.*1 command_name) as [n|] eqn:E; [|reflexivity].
  apply partial_match_first in E as (before & after & Heq & Hn & _).
  rewrite Hall in Hn; [done|]. rewrite Heq. apply elem_of_app. right. by left.
Qed.

(** ** The router: the two phases when every load succeeds *)

Lemma list_commands_of_ok st srcs :
  SrcNone ∉ srcs → list_commands_of st srcs = Ok (listed st srcs).
Proof.
  unfold listed. induction srcs as [|src srcs IH]; intros Hnone; [reflexivity|].
  cbn. destruct src as [c|r|]; cbn.
  - rewrite IH; [done|]. intros ?. apply Hnone. by apply elem_of_cons; right.
  - rewrite IH; [done|]. intros ?. apply Hnone. by apply elem_of_cons; right.
  - exfalso. apply Hnone. by apply elem_of_cons; left.
Qed.

Lemma list_commands_of_none st srcs :
  SrcNone ∈ srcs → list_commands_of st srcs = Raise AttributeError.
Proof.
  induction srcs as [|src srcs IH]; [by intros ?%elem_of_nil|].
  intros [<-|Hin]%elem_of_cons; [reflexivity|].
  cbn. rewrite (IH Hin). by destruct src.
Qed.

(** The router after the handles [eps] were loaded one after the other. *)
Lemma foldl_after_load env eps s :
  foldl (fun s ep => after_load env ep s) s eps
  = {| sources := sources s ++ (plugin_source env <$> eps);
       lazy_groups := lazy_groups s;
       loads := loads s ++ eps;
       warnings := warnings (foldl (fun s ep => after_load env ep s) s eps) |}.
Proof.
  revert s. induction eps as [|ep eps IH]; intros s.
  - cbn. rewrite !app_nil_r. by destruct s.
  - cbn [foldl]. rewrite IH at 1. cbn [after_load sources loads lazy_groups].
    rewrite fmap_cons, <- !app_assoc. reflexivity.
Qed.

Lemma foldl_after_load_warnings env eps s :
  (∀ ep, ep ∈ eps → ∃ g, env ep = Loaded g) →
  warnings (foldl (fun s ep => after_load env ep s) s eps) = warnings s.
Proof.
  revert s. induction eps as [|ep eps IH]; intros s Hok; [reflexivity|].
  cbn [foldl]. rewrite IH by (intros ? ?; apply Hok; by apply elem_of_cons; right).
  destruct (Hok ep) as [g Hg]; [by apply elem_of_cons; left|].
  cbn. rewrite Hg. apply app_nil_r.
Qed.

Lemma load_all_plugins_ok env st command_name eps s :
  SrcNone ∉ sources s →
  (∀ ep, ep ∈ eps → ∃ g, env ep = Loaded g) →
  ∃ k,
    load_all_plugins env st command_name eps s
    = (Ok tt, foldl (fun s ep => after_load env ep s) s (take k eps))
    ∧ (∀ j, (j < k)%nat →
            command_name ∉ listed st (sources s ++ (plugin_source env <$> take j eps)))
    ∧ (k = length eps
       ∨ command_name ∈ listed st (sources s ++ (plugin_source env <$> take k eps))).
Proof.
  revert s. induction eps as [|ep rest IH]; intros s Hnone Hok.
  - exists 0%nat. split; [reflexivity|]. split; [lia|by left].
  - rewrite load_all_plugins_cons, list_commands_of_ok by done.
    destruct (decide (command_name ∈ listed st (sources s))) as [Hin|Hnin].
    + rewrite bool_decide_eq_true_2 by done. exists 0%nat.
      split; [reflexivity|]. split; [lia|]. right. cbn. by rewrite app_nil_r.
    + rewrite bool_decide_eq_false_2 by done.
      destruct (Hok ep) as [g Hg]; [by apply elem_of_cons; left|].
      rewrite (escaping_loaded _ _ _ Hg).
      destruct (IH (after_load env ep s)) as (k & Hrun & Hbefore & Hat).
      * cbn. unfold plugin_source. rewrite Hg.
        intros [?|?%list_elem_of_singleton]%elem_of_app; done.
      * intros ? ?. apply Hok. by apply elem_of_cons; right.
      * exists (S k). split; [exact Hrun|]. cbn [after_load sources] in *. split.
        -- intros [|j] Hj; [cbn; by rewrite app_nil_r|].
           cbn [take]. rewrite fmap_cons, cons_middle, app_assoc. apply Hbefore. lia.
        -- destruct Hat as [->|Hat]; [by left|]. right.
           cbn [take]. by rewrite fmap_cons, cons_middle, app_assoc.
Qed.

(** The handle the partial-match phase loads belongs to the first
    registered name that contains the command. *)
Lemma partial_match_load_first groups command_name ep :
  partial_match_load groups command_name = [ep] →
  ∃ before n after,
    groups = before ++ (n, ep) :: after
    ∧ py.contains command_name n = true
    ∧ n ≠ ""
    ∧ ∀ m, m ∈ before.*1 → py.contains command_name m = false.
Proof.
  unfold partial_match_load. induction groups as [|[k e] groups IH]; [done|].
  cbn [fmap list_fmap fst _partial_match].
  destruct (py.contains command_name k) eqn:Ek.
  - destruct (py.truthy k) eqn:Et; [|done]. cbn. rewrite String.eqb_refl.
    intros [= ->]. exists [], k, groups. split; [done|]. split; [done|].
    split; [intros ->; discriminate Et|]. by intros m ?%elem_of_nil.
  - destruct (_partial_match groups.*1 command_name) as [n|] eqn:En; [|done].
    destruct (py.truthy n) eqn:Et; [|done].
    cbn [lazy_group]. destruct (String.eqb_spec k n) as [->|Hne].
    + apply partial_match_first in En as (? & ? & _ & Hn & _). congruence.
    + intros H. destruct (IH H) as (before & n' & after & -> & ? & ? & Hb).
      exists ((k, e) :: before), n', after. split; [done|]. split; [done|].
      split; [done|]. intros m [->|?]%elem_of_cons; [done|by apply Hb].
Qed.

Lemma foldl_after_load_ok env eps s :
  (∀ ep, ep ∈ eps → ∃ g, env ep = Loaded g) →
  foldl (fun s ep => after_load env ep s) s eps = with_loaded env s eps.
Proof.
  intros Hok. rewrite foldl_after_load, foldl_after_load_warnings by done. reflexivity.
Qed.

Lemma load_plugins_ok env st command_name s :
  SrcNone ∉ sources s →
  (∀ ep, ep ∈ (lazy_groups s).*2 → ∃ g, env ep = Loaded g) →
  ∃ k,
    let part_match := partial_match_load (lazy_groups s) command_name in
    let values := (lazy_groups s).*2 in
    _load_plugins env st command_name s
    = (Ok tt, with_loaded env s (part_match ++ take k values))
    ∧ (∀ j, (j < k)%nat →
            command_name
            ∉ listed st (sources s ++ (plugin_source env <$> part_match ++ take j values)))
    ∧ (k = length values
       ∨ command_name
         ∈ listed st (sources s ++ (plugin_source env <$> part_match ++ take k values))).
Proof.
  intros Hnone Hok. unfold _load_plugins. rewrite bind_unfold, load_partial_match_unfold.
  pose proof (partial_match_load_length (lazy_groups s) command_name) as Hlen.
  pose proof (partial_match_load_elem_of (lazy_groups s) command_name) as Helem.
  destruct (partial_match_load (lazy_groups s) command_name) as [|ep l].
  - destruct (load_all_plugins_ok env st command_name (lazy_groups s).*2 s Hnone Hok)
      as (k & Hrun & Hbefore & Hat).
    exists k. cbn zeta. cbn [app]. split; [|done].
    rewrite Hrun, foldl_after_load_ok; [done|].
    intros ep Hep. apply Hok. by eapply subseteq_take.
  - destruct l; [|cbn in Hlen; lia].
    destruct (Hok ep) as [g Hg]; [apply Helem; by apply elem_of_cons; left|].
    rewrite (escaping_loaded _ _ _ Hg).
    assert (SrcNone ∉ sources (after_load env ep s)) as Hnone1.
    { cbn. unfold plugin_source. rewrite Hg.
      intros [?|?%list_elem_of_singleton]%elem_of_app; done. }
    rewrite list_commands_of_ok by done.
    assert (after_load env ep s = with_loaded env s [ep]) as Hs1.
    { unfold after_load, with_loaded. cbn. by rewrite Hg, app_nil_r. }
    destruct (decide (command_name ∈ listed st (sources (after_load env ep s))))
      as [Hin|Hnin].
    + rewrite bool_decide_eq_true_2 by done. exists 0%nat. cbn zeta.
      rewrite take_0, app_nil_r. split; [by rewrite Hs1|]. split; [lia|].
      right. by rewrite Hs1 in Hin.
    + rewrite bool_decide_eq_false_2 by done.
      destruct (load_all_plugins_ok env st command_name (lazy_groups s).*2
                  (after_load env ep s) Hnone1 Hok) as (k & Hrun & Hbefore & Hat).
      exists k. cbn zeta. split; [|split].
      * cbn [lazy_groups after_load] in *. rewrite Hrun, foldl_after_load_ok.
        -- rewrite Hs1. unfold with_loaded. cbn [sources loads lazy_groups warnings].
           by rewrite !fmap_app, <- !app_assoc.
        -- intros ep' Hep'. apply Hok. by eapply subseteq_take.
      * intros j Hj. specialize (Hbefore j Hj). cbn [sources after_load] in Hbefore.
        by rewrite fmap_app, app_assoc.
      * destruct Hat as [->|Hat]; [by left|]. right.
        cbn [sources after_load] in Hat. by rewrite fmap_app, app_assoc.
Qed.

(** The index at which the fallback loop stops lies within the handles. *)
Lemma stop_index_bound (P : nat → Prop) (len k : nat) :
  (∀ j, (j < k)%nat → ¬ P (j `min` len)%nat) →
  k = len ∨ P (k `min` len)%nat →
  (k ≤ len)%nat.
Proof.
  intros Hbefore Hat. destruct (decide (k ≤ len)%nat) as [|Hgt]; [done|].
  destruct Hat as [->|Hat]; [done|]. exfalso.
  apply (Hbefore len); [lia|]. rewrite Nat.min_id. by rewrite Nat.min_r in Hat by lia.
Qed.

Lemma load_plugins_ok_bound env st command_name (s : cli) part_match k :
  let values := (lazy_groups s).*2 in
  (∀ j, (j < k)%nat →
        command_name
        ∉ listed st (sources s ++ (plugin_source env <$> part_match ++ take j values))) →
  (k = length values
   ∨ command_name
     ∈ listed st (sources s ++ (plugin_source env <$> part_match ++ take k values))) →
  (k ≤ length values)%nat.
Proof.
  cbn zeta. intros Hbefore Hat.
  assert (∀ j, take (j `min` length (lazy_groups s).*2) (lazy_groups s).*2
               = take j (lazy_groups s).*2) as Htake.
  { intros j. destruct (decide (j ≤ length (lazy_groups s).*2)%nat).
    - by rewrite Nat.min_l.
    - rewrite Nat.min_r by lia. by rewrite !take_ge by lia. }
  apply (stop_index_bound
           (fun j => command_name
                     ∈ listed st (sources s
                                  ++ (plugin_source env
                                      <$> part_match ++ take j (lazy_groups s).*2)))).
  - intros j Hj. rewrite Htake. by apply Hbefore.
  - destruct Hat as [?|Hat]; [by left|right]. by rewrite Htake.
Qed.

(** C2, as the code has it.  Let [main] be called with a first argument
    that is not among the listed commands, on a router none of whose sources
    is [None] and all of whose lazy handles load.  Then exactly these
    handles are loaded and added as sources before click's [main] runs:
    first the handle of the first lazy-plugin name that contains the typed
    command (that handle when there is such a name and it is not empty, no
    handle otherwise), then the first [k] of all lazy handles in enumeration
    order, the partial-match handle included again; [k] is the first point
    at which the typed command is listed (so [k] is 0 when the partial match
    already provides it), and all handles when it never is.  Handles after
    that point are not loaded. *)
Theorem main_loads_in_two_phases
    {R : Type} (super_main : option (list string) → M R)
    (env : EntryPoint → load_outcome) (st : store)
    (arg0 : string) (rest : list string) (s : cli) :
  SrcNone ∉ sources s →
  (∀ ep, ep ∈ (lazy_groups s).*2 → ∃ g, env ep = Loaded g) →
  arg0 ∉ listed st (sources s) →
  ∃ k,
    let part_match := partial_match_load (lazy_groups s) arg0 in
    let values := (lazy_groups s).*2 in
    main super_main env st (Some (arg0 :: rest)) s
    = super_main (Some (arg0 :: rest)) (with_loaded env s (part_match ++ take k values))
    ∧ (length part_match ≤ 1)%nat
    ∧ (∀ ep, part_match = [ep] →
         ∃ before n after,
           lazy_groups s = before ++ (n, ep) :: after
           ∧ py.contains arg0 n = true ∧ n ≠ ""
           ∧ ∀ m, m ∈ before.*1 → py.contains arg0 m = false)
    ∧ (∀ before n ep after,
         lazy_groups s = before ++ (n, ep) :: after →
         py.contains arg0 n = true →
         (∀ m, m ∈ before.*1 → py.contains arg0 m = false) →
         part_match = if decide (n = "") then [] else [ep])
    ∧ ((∀ m, m ∈ (lazy_groups s).*1 → py.contains arg0 m = false) → part_match = [])
    ∧ (k ≤ length values)%nat
    ∧ (∀ j, (j < k)%nat →
            arg0 ∉ listed st (sources s ++ (plugin_source env <$> part_match ++ take j values)))
    ∧ (k = length values
       ∨ arg0 ∈ listed st (sources s ++ (plugin_source env <$> part_match ++ take k values))).
Proof.
  intros Hnone Hok Hunlisted.
  destruct (load_plugins_ok env st arg0 s Hnone Hok) as (k & Hrun & Hbefore & Hat).
  exists k. cbn zeta in *.
  split; [|split; [|split; [|split; [|split; [|split; [|split]]]]]]; try done.
  - unfold main. rewrite bind_unfold, bind_unfold. unfold list_commands.
    rewrite list_commands_of_ok by done.
    rewrite bool_decide_eq_false_2 by done. by rewrite Hrun.
  - apply partial_match_load_length.
  - apply partial_match_load_first.
  - intros before n ep after Hgroups Hn Hb. by eapply partial_match_load_intro.
  - apply partial_match_load_none.
  - by eapply load_plugins_ok_bound.
Qed.

Lemma main_loads_in_two_phases_witness :
  SrcNone ∉ sources (fresh_cli two_plugins)
  ∧ (∀ ep, ep ∈ (lazy_groups (fresh_cli two_plugins)).*2 → ∃ g, viz_env ep = Loaded g)
  ∧ "viz" ∉ listed plugin_store (sources (fresh_cli two_plugins))
  ∧ partial_match_load two_plugins "viz" = [viz_ep]
  ∧ main (fun _ => ret tt) viz_env plugin_store (Some ["viz"]) (fresh_cli two_plugins)
    = (Ok tt, with_loaded viz_env (fresh_cli two_plugins) [viz_ep]).
Proof.
  assert (SrcNone ∉ sources (fresh_cli two_plugins)) as H1
    by (simpl; apply not_elem_of_nil).
  assert (∀ ep, ep ∈ (lazy_groups (fresh_cli two_plugins)).*2
                → ∃ g, viz_env ep = Loaded g) as H2
    by (intros ep _; unfold viz_env; destruct (decide (ep = viz_ep)); eauto).
  assert ("viz" ∉ listed plugin_store (sources (fresh_cli two_plugins))) as H3
    by (apply (bool_decide_unpack _); vm_compute; exact I).
  split; [exact H1|]. split; [exact H2|]. split; [exact H3|].
  destruct (main_loads_in_two_phases (fun _ => ret tt) viz_env plugin_store
              "viz" [] (fresh_cli two_plugins) H1 H2 H3)
    as (k & Hrun & _ & _ & Hfirst & _ & _ & Hbefore & _).
  cbn zeta in *.
  assert (partial_match_load (lazy_groups (fresh_cli two_plugins)) "viz" = [viz_ep]) as Hpm.
  { apply (Hfirst [("kedro-docker", docker_ep)] "kedro-viz" viz_ep []); [reflexivity..|].
    intros m Hm. cbn in Hm. apply list_elem_of_singleton in Hm as ->. reflexivity. }
  split; [exact Hpm|].
  assert (k = 0%nat) as ->.
  { destruct k as [|k]; [reflexivity|]. exfalso. apply (Hbefore 0%nat); [lia|].
    rewrite Hpm. apply (bool_decide_unpack _). vm_compute. exact I. }
  rewrite Hrun, Hpm. reflexivity.
Defined.

(** With [kedro-docker] registered before [kedro-viz], typing [viz] loads
    the partial match [kedro-viz], which does not provide it; the fallback
    then loads [kedro-docker] and [kedro-viz] a second time. *)
Lemma main_fallback_reloads_partial_match :
  loads (main (fun _ => ret tt) plugins_env sample_store (Some ["viz"])
           (fresh_cli two_plugins)).2
  = [viz_ep; docker_ep; viz_ep]
  ∧ partial_match_load two_plugins "viz" = [viz_ep].
Proof. split; vm_compute; reflexivity. Qed.

(** ** The router: nothing remembers a load *)




(** The partial-match handle is not loaded again when an earlier handle of
    the fallback loop provides the command: with [kedro-docker] registered
    first and providing [viz], the loads are [kedro-viz], [kedro-docker]. *)
Lemma load_plugins_stops_before_partial_match :
  loads (_load_plugins docker_viz_env plugin_store "viz" (fresh_cli two_plugins)).2
  = [viz_ep; docker_ep].
Proof. vm_compute. reflexivity. Qed.

(** A second invocation on the router that the first one left loads the
    same handles once more. *)
Lemma load_plugins_again_loads_again :
  let s1 := (_load_plugins plugins_env sample_store "viz"
               (fresh_cli [("kedro-viz", viz_ep)])).2 in
  loads (_load_plugins plugins_env sample_store "viz" s1).2
  = [viz_ep; viz_ep; viz_ep; viz_ep].
Proof. vm_compute. reflexivity. Qed.

(** ** The router: a load that fails *)

(** The loader itself catches an [Exception]: when the entry point's
    module can be read, it logs the module, the entry point and the error
    text, and returns [None]. *)
Lemma safe_load_entry_point_catches env ep exc module s :
  env ep = LoadError exc →
  ep_module ep = Ok module →
  _safe_load_entry_point env ep s
  = (Ok None,
     {| sources := sources s; lazy_groups := lazy_groups s;
        loads := loads s ++ [ep];
        warnings := warnings s
                    ++ [ {| warn_module := module; warn_entry_point := ep;
                            warn_exc := exc |} ] |}).
Proof. intros H Hm. unfold _safe_load_entry_point. by rewrite H, Hm. Qed.

(** When the module cannot be read, the handler itself raises: nothing is
    logged and the exception leaves the loader. *)
Lemma safe_load_entry_point_handler_raises env ep exc e s :
  env ep = LoadError exc →
  ep_module ep = Raise e →
  _safe_load_entry_point env ep s = (Raise e, after_abort ep s).
Proof. intros H Hm. unfold _safe_load_entry_point. by rewrite H, Hm. Qed.

(** What [_load_plugins] adds after a failed load is [None], and from then
    on listing the commands raises. *)
Lemma failed_load_breaks_listing env st ep exc s :
  env ep = LoadError exc →
  list_commands st (after_load env ep s) = (Raise AttributeError, after_load env ep s).
Proof.
  intros H. unfold list_commands. rewrite list_commands_of_none; [done|].
  cbn. unfold plugin_source. rewrite H. apply elem_of_app. right.
  by apply list_elem_of_singleton.
Qed.

(** The eager loader, by contrast, leaves out what failed to load: when no
    exception leaves the loader, it returns the groups of the entry points
    that loaded, in order, and no [None]. *)
Lemma load_entry_points_skips_failures env eps s :
  (∀ ep, ep ∈ eps → escaping env ep = None) →
  (load_entry_points env eps s).1
  = Ok (omap (fun ep => match env ep with Loaded g => Some g | _ => None end) eps).
Proof.
  revert s. induction eps as [|ep eps IH]; intros s Hok; [reflexivity|].
  cbn [load_entry_points]. rewrite bind_unfold. unfold _safe_load_entry_point at 1.
  assert (∀ ep', ep' ∈ eps → escaping env ep' = None) as Hok'
    by (intros ? ?; apply Hok; by apply elem_of_cons; right).
  cbn [omap list_omap].
  assert (escaping env ep = None) as Hesc by (apply Hok; by apply elem_of_cons; left).
  unfold escaping in Hesc.
  destruct (env ep) as [g|exc|what] eqn:E; [| |done].
  - rewrite bind_unfold.
    match goal with |- context [load_entry_points env eps ?s1] =>
      specialize (IH s1 Hok'); destruct (load_entry_points env eps s1) as [[l|e] s2] end;
      cbn in *; congruence.
  - destruct (ep_module ep) as [module|e0]; [|done]. rewrite bind_unfold.
    match goal with |- context [load_entry_points env eps ?s1] =>
      specialize (IH s1 Hok'); destruct (load_entry_points env eps s1) as [[l|e] s2] end;
      cbn in *; congruence.
Qed.

(** C6, at a failing input: the only lazy plugin, [kedro-viz], fails to
    load and the user types [viz].  The loader catches the error and logs
    it, but [_load_plugins] adds the [None] it returned as a source; the
    next listing of the commands raises [AttributeError], [main] ends with
    that error without reaching click's [main], and the router can no
    longer list the commands of its other source. *)
Theorem load_plugins_failed_load_is_fatal :
  let broken := {| sources := sources viz_cli ++ [SrcNone];
                   lazy_groups := lazy_groups viz_cli;
                   loads := [viz_ep];
                   warnings := [ {| warn_module := "kedro_viz.launchers.cli";
                                    warn_entry_point := viz_ep;
                                    warn_exc := "No module named kedro_viz" |} ] |} in
  _safe_load_entry_point broken_env viz_ep viz_cli
  = (Ok None, {| sources := sources viz_cli; lazy_groups := lazy_groups viz_cli;
                 loads := loads broken; warnings := warnings broken |})
  ∧ _load_plugins broken_env sample_store "viz" viz_cli = (Raise AttributeError, broken)
  ∧ main (fun _ => ret tt) broken_env sample_store (Some ["viz"]) viz_cli
    = (Raise AttributeError, broken)
  ∧ list_commands sample_store viz_cli
    = (Ok (click.list_commands sample_store (collection_of sample_store 0) ∪ ∅), viz_cli)
  ∧ list_commands sample_store broken = (Raise AttributeError, broken).
Proof.
  cbn zeta. split; [reflexivity|]. split; [vm_compute; reflexivity|].
  split; [vm_compute; reflexivity|]. split; reflexivity.
Qed.

(** ** The router: the guard of [main] *)

(** C10: [main] guards the plugin-loading step with [args is not None]
    only.  With an empty argument list it evaluates [args[0]] and raises
    [IndexError] before anything else happens: the router is unchanged,
    nothing is loaded and click's [main] is not reached, whatever it would
    have done.  With [None] the step is skipped, and with a first argument
    the commands are listed for it at once. *)
Theorem main_empty_args_index_error
    {R : Type} (super_main : option (list string) → M R)
    (env : EntryPoint → load_outcome) (st : store) (s : cli) :
  main super_main env st (Some []) s = (Raise IndexError, s)
  ∧ main super_main env st None s = super_main None s
  ∧ ∀ arg0 rest,
      main super_main env st (Some (arg0 :: rest)) s
      = match list_commands_of st (sources s) with
        | Raise e => (Raise e, s)
        | Ok names =>
            if bool_decide (arg0 ∈ names) then super_main (Some (arg0 :: rest)) s
            else bind (_load_plugins env st arg0)
                      (fun _ => super_main (Some (arg0 :: rest))) s
        end.
Proof.
  split; [reflexivity|]. split; [reflexivity|].
  intros arg0 rest. unfold main. rewrite !bind_unfold. unfold list_commands.
  destruct (list_commands_of st (sources s)) as [names|e]; [|reflexivity].
  destruct (bool_decide (arg0 ∈ names)); reflexivity.
Qed.

(** ** The order of the scored candidates *)

Lemma ascii_compare_lt_trans a b c :
  Ascii.compare a b = Lt → Ascii.compare b c = Lt → Ascii.compare a c = Lt.
Proof.
  unfold Ascii.compare. rewrite !N.compare_lt_iff. lia.
Qed.

Lemma string_compare_lt_trans s t u :
  String.compare s t = Lt → String.compare t u = Lt → String.compare s u = Lt.
Proof.
  revert t u. induction s as [|a s IH]; intros [|b t] [|c u]; cbn; try done.
  destruct (Ascii.compare a b) eqn:Eab; [|clear IH|done].
  - apply Ascii.compare_eq_iff in Eab as ->.
    destruct (Ascii.compare b c) eqn:Ebc; [|done..]. apply IH.
  - destruct (Ascii.compare b c) eqn:Ebc; [|intros _ _|done].
    + apply Ascii.compare_eq_iff in Ebc as ->. by rewrite Eab.
    + by rewrite (ascii_compare_lt_trans a b c).
Qed.

Lemma string_leb_trans s t u :
  String.leb s t = true → String.leb t u = true → String.leb s u = true.
Proof.
  unfold String.leb.
  destruct (String.compare s t) eqn:Est; [|intros _|done].
  - apply String.compare_eq_iff in Est as ->. done.
  - destruct (String.compare t u) eqn:Etu; [|intros _|done].
    + apply String.compare_eq_iff in Etu as ->. by rewrite Est.
    + by rewrite (string_compare_lt_trans s t u).
Qed.

#[global] Instance tuple_ge_total : Total heapq.tuple_ge.
Proof.
  intros p q. unfold heapq.tuple_ge, heapq.tuple_geb.
  rewrite <- (Qcompare_antisym p.1 q.1).
  destruct (Qcompare p.1 q.1); cbn; auto. apply String.leb_total.
Qed.

#[global] Instance tuple_ge_trans : Transitive heapq.tuple_ge.
Proof.
  intros p q r. unfold heapq.tuple_ge, heapq.tuple_geb.
  destruct (Qcompare_spec q.1 p.1) as [Hqp|Hqp|Hqp]; [| |done];
    destruct (Qcompare_spec r.1 q.1) as [Hrq|Hrq|Hrq]; try done;
    destruct (Qcompare_spec r.1 p.1) as [Hrp|Hrp|Hrp]; try done; try lra.
  intros H1 H2. exact (string_leb_trans _ _ _ H2 H1).
Qed.

Lemma tuple_ge_score p q : heapq.tuple_ge p q → (q.1 <= p.1)%Q.
Proof.
  unfold heapq.tuple_ge, heapq.tuple_geb.
  destruct (Qcompare_spec q.1 p.1); [lra|lra|done].
Qed.

Lemma tuple_ge_tie p q :
  heapq.tuple_ge p q → (q.1 == p.1)%Q → String.leb q.2 p.2 = true.
Proof.
  unfold heapq.tuple_ge, heapq.tuple_geb.
  destruct (Qcompare_spec q.1 p.1); [done|lra|done].
Qed.

(** ** difflib: the longest match stays inside its window *)

Lemma foldl_invariant {A B : Type} (f : A → B → A) (P : A → Prop) (Q : B → Prop) l a :
  P a → Forall Q l → (∀ a x, P a → Q x → P (f a x)) → P (foldl f a l).
Proof.
  intros Ha Hl Hf. revert a Ha. induction Hl as [|x l Hx Hl IH]; intros a Ha; [done|].
  cbn. apply IH, Hf; done.
Qed.

Section longest_match.

Context (a b : list ascii) (alo ahi blo bhi : nat).
Hypothesis (Ha : (alo ≤ ahi ≤ length a)%nat) (Hb : (blo ≤ bhi ≤ length b)%nat).

Lemma newj2len_ok i row :
  (alo ≤ i < ahi)%nat → row_ok a b alo blo bhi i row →
  row_ok a b alo blo bhi (S i) (difflib.newj2len b blo bhi (nth i a Ascii.zero) row).
Proof.
  intros Hi Hrow j. rewrite nth_lookup. unfold difflib.newj2len.
  rewrite list_lookup_imap. destruct (b !! j) as [y|] eqn:Ey; [|cbn; repeat split; intros; lia].
  cbn [fmap option_fmap option_map default from_option id].
  destruct (Nat.leb_spec blo j); cbn [andb]; [|repeat split; intros; lia].
  destruct (Nat.ltb_spec j bhi); cbn [andb]; [|repeat split; intros; lia].
  destruct (Ascii.eqb_spec (nth i a Ascii.zero) y) as [Hxy|]; cbn [andb];
    [|repeat split; intros; lia].
  destruct (negb _); [|repeat split; intros; lia].
  assert (a !! i = Some y) as Hai.
  { rewrite <- Hxy, nth_lookup. destruct (lookup_lt_is_Some_2 a i) as [x ->]; [lia|done]. }
  destruct j as [|j'].
  - repeat split; try lia. intros t Ht. replace t with 0%nat by lia.
    replace (S i - 1 - 0)%nat with i by lia. cbn. congruence.
  - destruct (Hrow j') as (H1 & H2 & H3 & H4).
    repeat split; try lia. intros t Ht. destruct t as [|t'].
    + replace (S i - 1 - 0)%nat with i by lia. cbn. congruence.
    + replace (S i - 1 - S t')%nat with (i - 1 - t')%nat by lia.
      replace (S j' - S t')%nat with (j' - t')%nat by lia. apply H4. lia.
Qed.

Lemma update_best_ok i row best :
  (alo ≤ i < ahi)%nat → row_ok a b alo blo bhi (S i) row → block_ok a b alo ahi blo bhi best →
  block_ok a b alo ahi blo bhi (foldl (difflib.update_best i) best (imap pair row)).
Proof.
  intros Hi Hrow Hbest.
  apply (foldl_invariant _ (block_ok a b alo ahi blo bhi)
           (fun jk : nat * nat => nth jk.1 row 0 = jk.2)%nat); [done| |].
  - apply List.Forall_forall. intros [j k] Hin%list_elem_of_In.
    apply list_elem_of_lookup in Hin as [j' Hj']. rewrite list_lookup_imap in Hj'.
    destruct (row !! j') as [k'|] eqn:E; [|done]. injection Hj' as <- <-. cbn.
    by rewrite nth_lookup, E.
  - intros best' [j k] Hb' Hk. cbn in Hk. unfold difflib.update_best. cbn [fst snd].
    destruct (Nat.ltb_spec best'.2 k); [|done].
    destruct (Hrow j) as (H1 & H2 & H3 & H4). rewrite Hk in *.
    unfold block_ok. cbn [fst snd]. repeat split; try lia.
    intros t Ht. specialize (H4 (k - 1 - t)%nat).
    replace (S i - 1 - (k - 1 - t))%nat with (i + 1 - k + t)%nat in H4 by lia.
    replace (j - (k - 1 - t))%nat with (j + 1 - k + t)%nat in H4 by lia.
    apply H4. lia.
Qed.

Lemma scan_ok :
  block_ok a b alo ahi blo bhi (foldl (difflib.scan a b blo bhi) ([], (alo, blo, O))
                  (seq alo (ahi - alo))).2.
Proof.
  assert (∀ n acc,
    (n ≤ ahi - alo)%nat →
    row_ok a b alo blo bhi (ahi - n) acc.1 → block_ok a b alo ahi blo bhi acc.2 →
    block_ok a b alo ahi blo bhi (foldl (difflib.scan a b blo bhi) acc (seq (ahi - n) n)).2) as Hgen.
  { induction n as [|n IH]; intros acc Hn Hrow Hbest; [done|].
    cbn [seq foldl]. replace (S (ahi - S n)) with (ahi - n)%nat by lia.
    apply IH; [lia| |]; unfold difflib.scan; cbn [fst snd].
    - replace (ahi - n)%nat with (S (ahi - S n)) by lia. apply newj2len_ok; [lia|done].
    - apply update_best_ok; [lia| |done].
      apply newj2len_ok; [lia|done]. }
  specialize (Hgen (ahi - alo)%nat ([], (alo, blo, O))).
  replace (ahi - (ahi - alo))%nat with alo in Hgen by lia.
  apply Hgen; [lia| |].
  - intros j. cbn. destruct j; cbn; repeat split; intros; lia.
  - unfold block_ok. cbn. repeat split; intros; lia.
Qed.

Lemma extend_left_ok fuel best :
  block_ok a b alo ahi blo bhi best → block_ok a b alo ahi blo bhi (difflib.extend_left fuel a b alo blo best).
Proof.
  revert best. induction fuel as [|fuel IH]; intros [[bi bj] bk] Hbest; [done|].
  cbn [difflib.extend_left].
  destruct (Nat.ltb_spec alo bi); cbn [andb]; [|done].
  destruct (Nat.ltb_spec blo bj); cbn [andb]; [|done].
  case_bool_decide as Heq; [|done]. apply IH.
  destruct Hbest as (H1 & H2 & H3 & H4 & H5). cbn [fst snd] in *.
  unfold block_ok. cbn [fst snd]. repeat split; try lia.
  intros t Ht. destruct t as [|t'].
  - by rewrite !Nat.add_0_r.
  - replace (bi - 1 + S t')%nat with (bi + t')%nat by lia.
    replace (bj - 1 + S t')%nat with (bj + t')%nat by lia. apply H5. lia.
Qed.

Lemma extend_right_ok fuel best :
  block_ok a b alo ahi blo bhi best → block_ok a b alo ahi blo bhi (difflib.extend_right fuel a b ahi bhi best).
Proof.
  revert best. induction fuel as [|fuel IH]; intros [[bi bj] bk] Hbest; [done|].
  cbn [difflib.extend_right].
  destruct (Nat.ltb_spec (bi + bk) ahi); cbn [andb]; [|done].
  destruct (Nat.ltb_spec (bj + bk) bhi); cbn [andb]; [|done].
  case_bool_decide as Heq; [|done]. apply IH.
  destruct Hbest as (H1 & H2 & H3 & H4 & H5). cbn [fst snd] in *.
  unfold block_ok. cbn [fst snd]. repeat split; try lia.
  intros t Ht. destruct (decide (t = bk)) as [->|]; [done|]. apply H5. lia.
Qed.

Lemma find_longest_match_ok :
  block_ok a b alo ahi blo bhi (difflib.find_longest_match a b alo ahi blo bhi).
Proof.
  unfold difflib.find_longest_match.
  apply extend_right_ok, extend_left_ok, scan_ok.
Qed.

End longest_match.

(** ** difflib: the count is at most what the sequences have in common *)

Lemma window_split l lo mid hi :
  (lo ≤ mid ≤ hi)%nat → window l lo hi = window l lo mid ++ window l mid hi.
Proof.
  intros H. unfold window.
  replace (hi - lo)%nat with ((mid - lo) + (hi - mid))%nat by lia.
  rewrite <- take_take_drop, drop_drop. by replace (lo + (mid - lo))%nat with mid by lia.
Qed.

Lemma window_length l lo hi :
  (lo ≤ hi ≤ length l)%nat → length (window l lo hi) = (hi - lo)%nat.
Proof. intros H. unfold window. rewrite length_take, length_drop. lia. Qed.

Lemma window_whole l : window l 0 (length l) = l.
Proof. unfold window. rewrite drop_0, Nat.sub_0_r. apply firstn_all. Qed.

Lemma size_list_to_set_disj (l : list ascii) :
  size (list_to_set_disj l : gmultiset ascii) = length l.
Proof.
  induction l as [|x l IH]; [done|].
  rewrite list_to_set_disj_cons, gmultiset_size_disj_union, gmultiset_size_singleton, IH.
  done.
Qed.

Lemma common_le_l x y : (common x y ≤ length x)%nat.
Proof.
  unfold common. rewrite <- size_list_to_set_disj.
  apply gmultiset_subseteq_size. multiset_solver.
Qed.

Lemma common_le_r x y : (common x y ≤ length y)%nat.
Proof.
  unfold common. rewrite <- (size_list_to_set_disj y).
  apply gmultiset_subseteq_size. multiset_solver.
Qed.

Lemma common_split x1 m x3 y1 y3 :
  (common x1 y1 + length m + common x3 y3
   ≤ common (x1 ++ m ++ x3) (y1 ++ m ++ y3))%nat.
Proof.
  unfold common. rewrite !list_to_set_disj_app, <- (size_list_to_set_disj m).
  rewrite <- !gmultiset_size_disj_union.
  apply gmultiset_subseteq_size. multiset_solver.
Qed.

Lemma block_windows a b alo ahi blo bhi best :
  block_ok a b alo ahi blo bhi best →
  window a best.1.1 (best.1.1 + best.2) = window b best.1.2 (best.1.2 + best.2).
Proof.
  intros (_ & _ & _ & _ & Heq). unfold window. apply list_eq. intros t.
  replace (best.1.1 + best.2 - best.1.1)%nat with best.2 by lia.
  replace (best.1.2 + best.2 - best.1.2)%nat with best.2 by lia.
  destruct (decide (t < best.2)%nat).
  - rewrite !lookup_take_lt, !lookup_drop by done. by apply Heq.
  - rewrite !lookup_take_ge by lia. done.
Qed.

Lemma matches_le_common a b fuel alo ahi blo bhi :
  (alo ≤ ahi ≤ length a)%nat → (blo ≤ bhi ≤ length b)%nat →
  (difflib.matches fuel a b alo ahi blo bhi
   ≤ common (window a alo ahi) (window b blo bhi))%nat.
Proof.
  revert alo ahi blo bhi. induction fuel as [|fuel IH]; intros alo ahi blo bhi Ha Hb;
    [cbn; lia|].
  cbn [difflib.matches].
  pose proof (find_longest_match_ok a b alo ahi blo bhi Ha Hb) as Hok.
  pose proof (block_windows _ _ _ _ _ _ _ Hok) as Hwin.
  destruct (difflib.find_longest_match a b alo ahi blo bhi) as [[i j] k].
  destruct Hok as (H1 & H2 & H3 & H4 & _). cbn [fst snd] in *.
  destruct (Nat.eqb_spec k 0); [lia|].
  rewrite (window_split a alo i ahi), (window_split a i (i + k) ahi) by lia.
  rewrite (window_split b blo j bhi), (window_split b j (j + k) bhi) by lia.
  rewrite <- Hwin.
  etrans; [|apply common_split]. rewrite window_length by lia.
  replace (i + k - i)%nat with k by lia.
  assert ((if Nat.ltb alo i && Nat.ltb blo j
           then difflib.matches fuel a b alo i blo j else 0)
          ≤ common (window a alo i) (window b blo j))%nat as Hl.
  { destruct (Nat.ltb alo i && Nat.ltb blo j); [apply IH; lia|lia]. }
  assert ((if Nat.ltb (i + k) ahi && Nat.ltb (j + k) bhi
           then difflib.matches fuel a b (i + k) ahi (j + k) bhi else 0)
          ≤ common (window a (i + k) ahi) (window b (j + k) bhi))%nat as Hr.
  { destruct (Nat.ltb (i + k) ahi && Nat.ltb (j + k) bhi); [apply IH; lia|lia]. }
  lia.
Qed.

Lemma multiplicity_list_to_set_disj (l : list ascii) x :
  multiplicity x (list_to_set_disj l : gmultiset ascii)
  = length (filter (fun y => y = x) l).
Proof.
  induction l as [|y l IH]; [done|].
  rewrite list_to_set_disj_cons, multiplicity_disj_union, filter_cons, IH.
  destruct (decide (y = x)) as [->|Hne].
  - by rewrite multiplicity_singleton_eq.
  - by rewrite multiplicity_singleton_ne.
Qed.

Lemma quick_fold a : ∀ (f : ascii → Z) (m : nat) (B : gmultiset ascii),
  (∀ c, Z.max 0 (f c) = Z.of_nat (multiplicity c B)) →
  (foldl difflib.quick_step (f, m) a).2
  = (m + size ((list_to_set_disj a : gmultiset ascii) ∩ B))%nat.
Proof.
  induction a as [|x a IH]; intros f m B Hf.
  - cbn [foldl snd]. rewrite list_to_set_disj_nil.
    replace ((∅ : gmultiset ascii) ∩ B) with (∅ : gmultiset ascii) by multiset_solver.
    rewrite gmultiset_size_empty. lia.
  - cbn [foldl]. unfold difflib.quick_step at 2. cbn [fst snd].
    rewrite list_to_set_disj_cons. pose proof (Hf x) as Hx.
    destruct (Z.ltb_spec 0 (f x)).
    + rewrite (IH _ _ (B ∖ {[+ x +]})).
      * assert (({[+ x +]} ⊎ list_to_set_disj a) ∩ B
                = ({[+ x +]} : gmultiset ascii) ⊎ (list_to_set_disj a ∩ (B ∖ {[+ x +]})))
          as ->.
        { apply gmultiset_eq. intros c.
          rewrite !multiplicity_intersection, !multiplicity_disj_union,
            !multiplicity_intersection, !multiplicity_difference.
          destruct (decide (c = x)) as [->|Hne].
          - rewrite multiplicity_singleton_eq. lia.
          - rewrite multiplicity_singleton_ne by done. lia. }
        rewrite gmultiset_size_disj_union, gmultiset_size_singleton. lia.
      * intros c. rewrite multiplicity_difference. specialize (Hf c).
        destruct (decide (c = x)) as [->|Hne].
        -- rewrite fn_lookup_insert, multiplicity_singleton_eq. lia.
        -- rewrite fn_lookup_insert_ne, multiplicity_singleton_ne by done. lia.
    + rewrite (IH _ _ B).
      * f_equal. f_equal. apply gmultiset_eq. intros c.
        rewrite !multiplicity_intersection, !multiplicity_disj_union.
        destruct (decide (c = x)) as [->|Hne].
        -- rewrite multiplicity_singleton_eq. lia.
        -- rewrite multiplicity_singleton_ne by done. lia.
      * intros c. specialize (Hf c). destruct (decide (c = x)) as [->|Hne].
        -- rewrite fn_lookup_insert. lia.
        -- by rewrite fn_lookup_insert_ne.
Qed.

Lemma quick_matches_common a b :
  (foldl difflib.quick_step
         (fun x => Z.of_nat (length (filter (fun y => y = x) b)), O) a).2
  = common a b.
Proof.
  rewrite (quick_fold a _ _ (list_to_set_disj b)); [done|].
  intros c. rewrite multiplicity_list_to_set_disj. lia.
Qed.

Lemma calculate_ratio_mono m1 m2 T :
  (m1 ≤ m2)%nat → (difflib._calculate_ratio m1 T <= difflib._calculate_ratio m2 T)%Q.
Proof.
  intros H. unfold difflib._calculate_ratio. destruct (Nat.eqb T 0); [apply Qle_refl|].
  unfold Qle. cbn [Qnum Qden]. nia.
Qed.

Lemma ratio_le_quick_ratio a b : (difflib.ratio a b <= difflib.quick_ratio a b)%Q.
Proof.
  unfold difflib.ratio, difflib.quick_ratio. cbn zeta. apply calculate_ratio_mono.
  rewrite quick_matches_common.
  pose proof (matches_le_common a b (S (length a)) 0 (length a) 0 (length b)) as H.
  rewrite !window_whole in H. apply H; lia.
Qed.

Lemma ratio_le_real_quick_ratio a b : (difflib.ratio a b <= difflib.real_quick_ratio a b)%Q.
Proof.
  unfold difflib.ratio, difflib.real_quick_ratio. apply calculate_ratio_mono.
  pose proof (matches_le_common a b (S (length a)) 0 (length a) 0 (length b)) as H.
  rewrite !window_whole in H.
  pose proof (common_le_l a b). pose proof (common_le_r a b).
  assert (difflib.matches (S (length a)) a b 0 (length a) 0 (length b) ≤ common a b)%nat
    by (apply H; lia).
  lia.
Qed.

(** The two quick ratios are upper bounds of the ratio, so the three tests
    of [get_close_matches] come to the last one. *)
Lemma close_enough_ratio word x cutoff :
  difflib.close_enough word x cutoff
  = Qle_bool cutoff (difflib.ratio (list_ascii_of_string x) (list_ascii_of_string word)).
Proof.
  unfold difflib.close_enough. cbn zeta.
  destruct (Qle_bool cutoff (difflib.ratio _ _)) eqn:E; [|apply andb_false_r].
  apply Qle_bool_iff in E.
  rewrite andb_true_r. apply andb_true_intro. split; apply Qle_bool_iff.
  - eapply Qle_trans; [exact E|apply ratio_le_real_quick_ratio].
  - eapply Qle_trans; [exact E|apply ratio_le_quick_ratio].
Qed.

(** ** difflib: the search ends by itself *)

(** Once the fuel exceeds the width of the window in [a], more fuel does
    not change the count: the search ends by itself. *)
Lemma matches_fuel a b f1 f2 alo ahi blo bhi :
  (alo ≤ ahi ≤ length a)%nat → (blo ≤ bhi ≤ length b)%nat →
  (ahi - alo < f1)%nat → (ahi - alo < f2)%nat →
  difflib.matches f1 a b alo ahi blo bhi = difflib.matches f2 a b alo ahi blo bhi.
Proof.
  revert f2 alo ahi blo bhi. induction f1 as [|f1 IH];
    intros [|f2] alo ahi blo bhi Ha Hb H1 H2; try lia.
  cbn [difflib.matches].
  pose proof (find_longest_match_ok a b alo ahi blo bhi Ha Hb) as Hok.
  destruct (difflib.find_longest_match a b alo ahi blo bhi) as [[i j] k].
  destruct Hok as (? & ? & ? & ? & _). cbn [fst snd] in *.
  destruct (Nat.eqb_spec k 0); [done|].
  f_equal; [f_equal|].
  - destruct (Nat.ltb_spec alo i); cbn [andb]; [|done].
    destruct (Nat.ltb_spec blo j); [|done]. apply IH; lia.
  - destruct (Nat.ltb_spec (i + k) ahi); cbn [andb]; [|done].
    destruct (Nat.ltb_spec (j + k) bhi); [|done]. apply IH; lia.
Qed.

(** [ratio] is computed with enough fuel. *)
Lemma ratio_fuel a b fuel :
  (length a < fuel)%nat →
  difflib.ratio a b
  = difflib._calculate_ratio (difflib.matches fuel a b 0 (length a) 0 (length b))
                             (length a + length b).
Proof.
  intros H. unfold difflib.ratio. f_equal. apply matches_fuel; lia.
Qed.

(** ** textwrap.indent on candidates that are one line each *)

Lemma rstrip_truthy s : py.truthy (py.rstrip s) = has_nonspace s.
Proof.
  induction s as [|c s IH]; [reflexivity|]. cbn.
  destruct (py.rstrip s) eqn:E; cbn in *.
  - rewrite <- IH. by destruct (py.isspace c).
  - rewrite <- IH. by rewrite orb_true_r.
Qed.

Lemma lstrip_has_nonspace s : has_nonspace (py.lstrip s) = has_nonspace s.
Proof.
  induction s as [|c s IH]; [reflexivity|]. cbn.
  destruct (py.isspace c) eqn:E; cbn; [done|]. by rewrite E.
Qed.

Lemma strip_truthy s : py.truthy (py.strip s) = has_nonspace s.
Proof. unfold py.strip. by rewrite rstrip_truthy, lstrip_has_nonspace. Qed.

Lemma has_nonspace_app s t : has_nonspace (s ++ t) = has_nonspace s || has_nonspace t.
Proof.
  induction s as [|c s IH]; [reflexivity|].
  rewrite append_cons. cbn [has_nonspace]. by rewrite IH, orb_assoc.
Qed.

Lemma linebreak_not_cr c : py.is_linebreak c = false → Ascii.eqb c "013" = false.
Proof.
  intros H. destruct (Ascii.eqb_spec c "013") as [->|]; [|done]. discriminate H.
Qed.

Lemma splitlines_one_line s :
  no_linebreak s = true → s ≠ "" → py.splitlines s = [s].
Proof.
  induction s as [|c s IH]; [done|]. cbn. intros [Hc Hs]%andb_prop _.
  apply negb_true_iff in Hc. rewrite (linebreak_not_cr c Hc), Hc.
  destruct s as [|c' s']; [reflexivity|]. by rewrite IH.
Qed.

Lemma splitlines_first_line s rest :
  no_linebreak s = true →
  py.splitlines (s ++ LF ++ rest) = (s ++ LF)%string :: py.splitlines rest.
Proof.
  induction s as [|c s IH]; [reflexivity|]. cbn [no_linebreak].
  intros [Hc Hs]%andb_prop. apply negb_true_iff in Hc.
  rewrite !append_cons. cbn [py.splitlines].
  rewrite (linebreak_not_cr c Hc), Hc. by rewrite IH.
Qed.

Lemma concat_str_cons x l : py.concat_str (x :: l) = (x ++ py.concat_str l)%string.
Proof. reflexivity. Qed.

(** Each candidate is indented on a line of its own. *)
Lemma indent_one_line_each (ms : list string) (prefix : string) :
  Forall one_line ms →
  textwrap.indent (py.join LF ms) prefix
  = py.join LF ((fun m => (prefix ++ m)%string) <$> ms).
Proof.
  unfold textwrap.indent. induction 1 as [|m ms [Hlb Hns] Hms IH]; [reflexivity|].
  destruct ms as [|m' ms'].
  - cbn [py.join fmap list_fmap]. rewrite splitlines_one_line; [|done|by destruct m].
    cbn. by rewrite strip_truthy, Hns, string_app_nil_r.
  - change (py.join LF (m :: m' :: ms')) with (m ++ LF ++ py.join LF (m' :: ms'))%string.
    rewrite splitlines_first_line by done. rewrite fmap_cons.
    rewrite concat_str_cons, IH.
    rewrite strip_truthy, has_nonspace_app, Hns. cbn [orb].
    rewrite !fmap_cons.
    change (py.join LF ((prefix ++ m)%string :: (prefix ++ m')%string
                          :: ((fun m => (prefix ++ m)%string) <$> ms')))
      with ((prefix ++ m) ++ LF
            ++ py.join LF ((prefix ++ m')%string
                             :: ((fun m => (prefix ++ m)%string) <$> ms')))%string.
    by rewrite !string_app_assoc.
Qed.

(** ** _suggest_cli_command *)

Lemma StronglySorted_lookup {A : Type} (R : relation A) l i j p q :
  StronglySorted R l → (i < j)%nat → l !! i = Some p → l !! j = Some q → R p q.
Proof.
  intros Hl. revert i j. induction Hl as [|x l Hl IH Hx]; intros i j Hij Hi Hj; [done|].
  destruct j as [|j]; [lia|]. destruct i as [|i].
  - injection Hi as ->. rewrite List.Forall_forall in Hx.
    apply Hx, list_elem_of_In, list_elem_of_lookup. eauto.
  - apply (IH i j); [lia|done..].
Qed.

(** What [get_close_matches] returns: the first [n] of the candidates that
    clear the cutoff, sorted by descending [(ratio, candidate)]. *)
Lemma get_close_matches_ranked word possibilities :
  let ranked :=
    merge_sort heapq.tuple_ge
      (difflib.scored word <$> filter (clears_cutoff word) possibilities) in
  difflib.get_close_matches word possibilities MAX_SUGGESTIONS CUTOFF
  = Ok (take 3 ranked).*2
  ∧ ranked ≡ₚ difflib.scored word <$> filter (clears_cutoff word) possibilities
  ∧ StronglySorted heapq.tuple_ge ranked.
Proof.
  cbn zeta. split; [|split].
  - unfold difflib.get_close_matches. cbn [negb Nat.ltb Nat.leb MAX_SUGGESTIONS].
    change (Qle_bool 0 CUTOFF && Qle_bool CUTOFF 1) with true. cbn [negb].
    unfold heapq.nlargest. do 5 f_equal. apply list_filter_iff. intros x.
    unfold clears_cutoff. by rewrite close_enough_ratio.
  - apply merge_sort_Permutation.
  - apply StronglySorted_merge_sort; apply _.
Qed.

Lemma close_match_is_candidate word possibilities (ranked : list (Q * string)) m :
  ranked ≡ₚ difflib.scored word <$> filter (clears_cutoff word) possibilities →
  m ∈ (take 3 ranked).*2 →
  m ∈ possibilities
  ∧ (1 # 2 <= difflib.ratio (list_ascii_of_string m) (list_ascii_of_string word))%Q.
Proof.
  intros Hperm (p & -> & Hp)%list_elem_of_fmap.
  apply subseteq_take in Hp. rewrite Hperm in Hp.
  apply list_elem_of_fmap in Hp as (x & -> & Hx).
  apply list_elem_of_filter in Hx as [Hclose Hx]. split; [exact Hx|].
  by apply Qle_bool_imp_le in Hclose.
Qed.

(** Nothing is suggested exactly when no candidate clears the cutoff. *)
Lemma no_close_match word possibilities (ranked : list (Q * string)) :
  ranked ≡ₚ difflib.scored word <$> filter (clears_cutoff word) possibilities →
  (take 3 ranked).*2 = [] ↔
  ∀ x, x ∈ possibilities →
       ¬ (1 # 2 <= difflib.ratio (list_ascii_of_string x) (list_ascii_of_string word))%Q.
Proof.
  intros Hperm. split.
  - intros Hnil x Hx Hclears.
    assert (ranked = []) as ->.
    { destruct ranked as [|p ranked]; [done|]. discriminate Hnil. }
    symmetry in Hperm. apply Permutation_nil_r in Hperm.
    apply fmap_nil_inv in Hperm.
    assert (x ∈ filter (clears_cutoff word) possibilities) as Hin.
    { apply list_elem_of_filter. split; [|done]. by apply Qle_bool_iff. }
    rewrite Hperm in Hin. by apply elem_of_nil in Hin.
  - intros Hnone. destruct ((take 3 ranked).*2) as [|m ms] eqn:E; [done|].
    exfalso. destruct (close_match_is_candidate word possibilities ranked m Hperm)
      as [Hin Hr]; [rewrite E; by left|].
    by apply (Hnone m).
Qed.

Lemma suggest_unfold typed names matches :
  difflib.get_close_matches typed names MAX_SUGGESTIONS CUTOFF = Ok matches →
  _suggest_cli_command typed names
  = Ok (match matches with
        | [] => ""
        | [_] => singular_header ++ textwrap.indent (py.join LF matches) "    "
        | _ => plural_header ++ textwrap.indent (py.join LF matches) "    "
        end)%string.
Proof.
  intros H. unfold _suggest_cli_command. rewrite H.
  destruct matches as [|m1 [|m2 ms]]; reflexivity.
Qed.

(** C7, as the code has it.  For every typed name and candidate list the
    suggester keeps at most 3 candidates, each a member of the list whose
    similarity ratio with the typed name is at least 1/2: the first three
    of the candidates that clear the cutoff, ranked by descending ratio and,
    among candidates of equal ratio, in descending string order (whatever
    order the caller gave them in).  The output is the empty string exactly
    when no candidate clears the cutoff; with one match it starts with the
    singular header; with two or three it is the plural header followed by
    the indented candidates, each on a line of its own when the candidates
    are one line each.  For [buid] among [build], [run], [test] the message
    mentions [build] and neither [run] nor [test]; for [xyz123] and [build]
    it is empty. *)
Theorem suggest_cli_command_spec :
  (∀ (typed : string) (names : list string),
     ∃ (ranked : list (Q * string)) (matches : list string) (out : string),
       ranked ≡ₚ difflib.scored typed <$> filter (clears_cutoff typed) names
       ∧ (∀ i j p q, (i < j)%nat → ranked !! i = Some p → ranked !! j = Some q →
            (q.1 <= p.1)%Q ∧ ((q.1 == p.1)%Q → String.leb q.2 p.2 = true))
       ∧ matches = (take 3 ranked).*2
       ∧ difflib.get_close_matches typed names MAX_SUGGESTIONS CUTOFF = Ok matches
       ∧ (length matches ≤ 3)%nat
       ∧ (∀ m, m ∈ matches →
            m ∈ names
            ∧ (1 # 2 <= difflib.ratio (list_ascii_of_string m)
                                      (list_ascii_of_string typed))%Q)
       ∧ _suggest_cli_command typed names = Ok out
       ∧ (matches = [] ↔ out = "")
       ∧ (out = "" ↔
          ∀ x, x ∈ names →
               ¬ (1 # 2 <= difflib.ratio (list_ascii_of_string x)
                                         (list_ascii_of_string typed))%Q)
       ∧ (length matches = 1%nat → ∃ tail, out = (singular_header ++ tail)%string)
       ∧ ((2 ≤ length matches)%nat →
            out = (plural_header ++ textwrap.indent (py.join LF matches) "    ")%string
            ∧ (Forall one_line matches →
               out = (plural_header
                      ++ py.join LF ((fun m => ("    " ++ m)%string) <$> matches))%string)))
  ∧ (∃ out, _suggest_cli_command "buid" ["build"; "run"; "test"] = Ok out
            ∧ py.contains "build" out = true
            ∧ py.contains "run" out = false
            ∧ py.contains "test" out = false)
  ∧ _suggest_cli_command "xyz123" ["build"] = Ok "".
Proof.
  split; [|split; [eexists; split; [vm_compute; reflexivity|by vm_compute]
                  |vm_compute; reflexivity]].
  intros typed names.
  destruct (get_close_matches_ranked typed names) as (Hget & Hperm & Hsorted).
  cbn zeta in *.
  set (ranked := merge_sort heapq.tuple_ge
                   (difflib.scored typed <$> filter (clears_cutoff typed) names)) in *.
  exists ranked, (take 3 ranked).*2.
  pose proof (suggest_unfold typed names _ Hget) as Hout.
  pose proof (no_close_match typed names ranked Hperm) as Hnone.
  eexists. split; [exact Hperm|]. split.
  { intros i j p q Hij Hi Hj.
    pose proof (StronglySorted_lookup _ _ _ _ _ _ Hsorted Hij Hi Hj) as Hge.
    split; [by apply tuple_ge_score|by apply tuple_ge_tie]. }
  split; [reflexivity|]. split; [exact Hget|]. split.
  { rewrite length_fmap, length_take. lia. }
  split; [intros m; by apply close_match_is_candidate|].
  split; [exact Hout|].
  destruct ((take 3 ranked).*2) as [|m1 [|m2 ms]] eqn:E.
  - split; [done|]. split; [by rewrite <- Hnone|]. split; [cbn; lia|]. cbn. lia.
  - split; [split; [done|by intros ?]|].
    split; [rewrite <- Hnone; split; [by intros ?|done]|].
    split; [eauto|]. cbn. lia.
  - split; [split; [done|by intros ?]|].
    split; [rewrite <- Hnone; split; [by intros ?|done]|].
    split; [cbn; lia|]. intros _.
    split; [reflexivity|]. intros Hone. by rewrite indent_one_line_each.
Qed.

(** Two candidates as close to [ab] as each other are listed in descending
    string order, [abd] before [abc], though the caller gave [abc] first;
    the other order of the candidates gives the same message. *)
Lemma suggest_ties_in_descending_string_order :
  (difflib.ratio (list_ascii_of_string "abc") (list_ascii_of_string "ab")
   == difflib.ratio (list_ascii_of_string "abd") (list_ascii_of_string "ab"))%Q
  ∧ difflib.get_close_matches "ab" ["abc"; "abd"] MAX_SUGGESTIONS CUTOFF = Ok ["abd"; "abc"]
  ∧ _suggest_cli_command "ab" ["abc"; "abd"]
    = Ok (plural_header ++ "    abd" ++ LF ++ "    abc")%string
  ∧ _suggest_cli_command "ab" ["abd"; "abc"] = _suggest_cli_command "ab" ["abc"; "abd"].
Proof. repeat split; vm_compute; reflexivity. Qed.

(** With a single match the header has no line feed after it: the candidate
    follows on the header's own line. *)
Lemma suggest_single_match_layout :
  _suggest_cli_command "buid" ["build"; "run"; "test"]
  = Ok (LF ++ LF ++ "Did you mean this?" ++ "    build")%string.
Proof. vm_compute. reflexivity. Qed.

(** ** The config-file callback *)

Lemma prefix_app (x t : string) : String.prefix x (x ++ t) = true.
Proof.
  induction x as [|c x IH]; [by destruct t|].
  rewrite append_cons. cbn. by destruct (ascii_dec c c).
Qed.

Lemma contains_prefix (x s : string) : String.prefix x s = true → py.contains x s = true.
Proof. destruct s; cbn [py.contains]; by intros ->. Qed.

Lemma contains_app (s x t : string) : py.contains x (s ++ x ++ t) = true.
Proof.
  induction s as [|c s IH].
  - change (py.contains x (x ++ t) = true). apply contains_prefix, prefix_app.
  - rewrite append_cons. cbn [py.contains]. rewrite IH. apply orb_true_r.
Qed.


(** The suggester never raises, and what it suggests is drawn from the
    names it was given. *)
Lemma suggest_total typed names :
  ∃ matches message,
    difflib.get_close_matches typed names MAX_SUGGESTIONS CUTOFF = Ok matches
    ∧ (∀ m, m ∈ matches → m ∈ names)
    ∧ _suggest_cli_command typed names = Ok message.
Proof.
  destruct (get_close_matches_ranked typed names) as (Hget & Hperm & _).
  cbn zeta in *. eexists. eexists. split; [exact Hget|]. split.
  - intros m Hm. by eapply close_match_is_candidate.
  - by apply suggest_unfold.
Qed.

Lemma validate_accepted run_params accepted key w :
  list_remove "config" (param_name <$> run_params) = Some accepted →
  key ∈ accepted →
  _validate_config_file run_params key w = (Ok tt, w).
Proof.
  intros Hrm Hkey. unfold _validate_config_file. rewrite Hrm.
  by rewrite bool_decide_eq_true_2.
Qed.

Lemma validate_rejected run_params accepted key w :
  list_remove "config" (param_name <$> run_params) = Some accepted →
  key ∉ accepted →
  ∃ matches message,
    difflib.get_close_matches key accepted MAX_SUGGESTIONS CUTOFF = Ok matches
    ∧ (∀ m, m ∈ matches → m ∈ accepted)
    ∧ _suggest_cli_command key accepted = Ok message
    ∧ _validate_config_file run_params key w
      = (Raise (KedroCliError (invalid_key_message key message)),
         {| ctx := ctx w; VERBOSE_EXISTS := false |}).
Proof.
  intros Hrm Hkey. destruct (suggest_total key accepted) as (ms & msg & Hget & Hin & Hs).
  exists ms, msg. split; [done|]. split; [done|]. split; [done|].
  unfold _validate_config_file. rewrite Hrm, bool_decide_eq_false_2 by done.
  by rewrite Hs.
Qed.

Lemma last_cons_default {A : Type} (l : list A) x d1 d2 :
  List.last (x :: l) d1 = List.last (x :: l) d2.
Proof.
  revert x. induction l as [|y l IH]; intros x; [reflexivity|].
  change (List.last (y :: l) d1 = List.last (y :: l) d2). apply IH.
Qed.

Lemma validate_items_accepted run_params accepted items value w :
  list_remove "config" (param_name <$> run_params) = Some accepted →
  (∀ k, k ∈ items.*1 → k ∈ accepted) →
  validate_items run_params items value w
  = (Ok (List.last items.*2 value), w).
Proof.
  intros Hrm. revert value. induction items as [|[k v] items IH]; intros value Hall;
    [reflexivity|].
  cbn [validate_items].
  rewrite (validate_accepted _ _ _ _ Hrm) by (apply Hall; by apply elem_of_cons; left).
  rewrite IH by (intros ? ?; apply Hall; by apply elem_of_cons; right).
  do 2 f_equal. rewrite fmap_cons. cbn [snd].
  destruct (items.*2) as [|y l]; [reflexivity|].
  change (List.last (y :: l) v = List.last (y :: l) value). apply last_cons_default.
Qed.






(** * Further properties of the module *)

(** ** str.split and str.join *)

Lemma append_nil_l (s : string) : ("" ++ s)%string = s.
Proof. reflexivity. Qed.

Lemma split_cons_inv sep s : ∃ piece pieces, pystr.split sep s = piece :: pieces.
Proof.
  induction s as [|c s (p & ps & IH)]; cbn; [eauto|].
  destruct (Ascii.eqb c sep); [eauto|]. rewrite IH. eauto.
Qed.

Lemma split_free sep x : free_of sep x = true → pystr.split sep x = [x].
Proof.
  induction x as [|c x IH]; [done|]. cbn. intros [Hc Hx]%andb_prop.
  apply negb_true_iff in Hc. rewrite Hc, IH by done. reflexivity.
Qed.

Lemma split_app_sep sep x rest :
  free_of sep x = true →
  pystr.split sep (x ++ String sep rest) = x :: pystr.split sep rest.
Proof.
  induction x as [|c x IH]; rewrite ?append_nil_l, ?append_cons;
    cbn [pystr.split free_of].
  - intros _. by rewrite Ascii.eqb_refl.
  - intros [Hc Hx]%andb_prop. apply negb_true_iff in Hc. rewrite Hc, IH by done.
    reflexivity.
Qed.

Lemma split_pieces_free sep s : Forall (fun p => free_of sep p = true) (pystr.split sep s).
Proof.
  induction s as [|c s IH]; cbn; [by repeat constructor|].
  destruct (Ascii.eqb c sep) eqn:E; [by constructor|].
  destruct (pystr.split sep s) as [|p ps]; [by repeat constructor; cbn; rewrite E|].
  inversion_clear IH. constructor; [|done]. cbn. by rewrite E.
Qed.

Lemma join_cons2 sep p q l :
  py.join sep (p :: q :: l) = (p ++ sep ++ py.join sep (q :: l))%string.
Proof. reflexivity. Qed.

Lemma split_join sep item items :
  Forall (fun p => free_of sep p = true) (item :: items) →
  pystr.split sep (py.join (String sep "") (item :: items)) = item :: items.
Proof.
  revert item. induction items as [|q items IH]; intros item Hall.
  - inversion_clear Hall. cbn [py.join]. by apply split_free.
  - inversion_clear Hall. rewrite join_cons2.
    change (String sep "" ++ py.join (String sep "") (q :: items))%string
      with (String sep (py.join (String sep "") (q :: items))).
    rewrite split_app_sep by done. by rewrite IH.
Qed.

Lemma split_join_ne sep items :
  items ≠ [] →
  Forall (fun p => free_of sep p = true) items →
  pystr.split sep (py.join (String sep "") items) = items.
Proof. destruct items; [done|]. intros _. apply split_join. Qed.

Lemma join_split sep s : py.join (String sep "") (pystr.split sep s) = s.
Proof.
  induction s as [|c s IH]; [reflexivity|]. cbn [pystr.split].
  destruct (Ascii.eqb_spec c sep) as [->|Hne].
  - destruct (split_cons_inv sep s) as (p & ps & E). rewrite E in *.
    rewrite join_cons2, append_nil_l, append_cons, append_nil_l. by rewrite IH.
  - destruct (split_cons_inv sep s) as (p & ps & E). rewrite E in *.
    destruct ps as [|q ps].
    + cbn [py.join] in *. by rewrite IH.
    + rewrite join_cons2 in *. rewrite append_cons. by rewrite IH.
Qed.

(** ** str.strip *)

Lemma lstrip_nonspace c s : py.isspace c = false → py.lstrip (String c s) = String c s.
Proof. intros H. cbn. by rewrite H. Qed.

Lemma rstrip_idem s : py.rstrip (py.rstrip s) = py.rstrip s.
Proof.
  induction s as [|c s IH]; [reflexivity|]. cbn [py.rstrip].
  destruct (py.rstrip s) as [|a r] eqn:E.
  - destruct (py.isspace c) eqn:Ec; [reflexivity|]. cbn. by rewrite Ec.
  - cbn [py.rstrip]. cbn [py.rstrip] in IH. by rewrite IH.
Qed.

Lemma rstrip_head c s :
  py.isspace c = false → ∃ r, py.rstrip (String c s) = String c r.
Proof.
  intros Hc. cbn. destruct (py.rstrip s); [rewrite Hc|]; eauto.
Qed.

Lemma lstrip_head s : py.lstrip s = "" ∨ ∃ c r, py.lstrip s = String c r ∧ py.isspace c = false.
Proof.
  induction s as [|c s IH]; [by left|]. cbn. destruct (py.isspace c) eqn:E; [done|].
  right. eauto.
Qed.

Lemma strip_idem s : py.strip (py.strip s) = py.strip s.
Proof.
  unfold py.strip. destruct (lstrip_head s) as [->|(c & r & -> & Hc)]; [reflexivity|].
  destruct (rstrip_head c r Hc) as [r' Hr]. rewrite Hr, lstrip_nonspace by done.
  rewrite <- Hr. apply rstrip_idem.
Qed.

Lemma lstrip_free c s : free_of c s = true → free_of c (py.lstrip s) = true.
Proof.
  induction s as [|a s IH]; [done|]. cbn. intros [Ha Hs]%andb_prop.
  destruct (py.isspace a); [by apply IH|]. cbn. by rewrite Ha, Hs.
Qed.

Lemma rstrip_free c s : free_of c s = true → free_of c (py.rstrip s) = true.
Proof.
  induction s as [|a s IH]; [done|]. cbn. intros [Ha Hs]%andb_prop.
  specialize (IH Hs). destruct (py.rstrip s) as [|b r].
  - destruct (py.isspace a); [done|]. cbn. by rewrite Ha.
  - cbn [free_of]. cbn [free_of] in IH. by rewrite Ha, IH.
Qed.

Lemma strip_free c s : free_of c s = true → free_of c (py.strip s) = true.
Proof. intros H. by apply rstrip_free, lstrip_free. Qed.

Lemma truthy_nonempty s : py.truthy s = true ↔ s ≠ "".
Proof. destruct s; cbn; split; congruence. Qed.

(** ** split_string *)

Lemma split_string_items value item :
  item ∈ split_string value →
  item ≠ "" ∧ py.strip item = item ∧ free_of "," item = true.
Proof.
  unfold split_string. intros (piece & -> & [Hne Hin]%list_elem_of_filter)%list_elem_of_fmap.
  split; [by apply truthy_nonempty|]. split; [apply strip_idem|].
  apply strip_free. pose proof (split_pieces_free "," value) as Hall.
  rewrite List.Forall_forall in Hall. by apply Hall, list_elem_of_In.
Qed.

Lemma split_string_join items :
  Forall (fun p => free_of "," p = true) items →
  split_string (py.join "," items)
  = py.strip <$> filter (fun p => has_nonspace p = true) items.
Proof.
  intros Hall. unfold split_string.
  assert (∀ l : list string,
            filter (fun item => py.truthy (py.strip item) = true) l
            = filter (fun p => has_nonspace p = true) l) as Hf.
  { intros l. apply list_filter_iff. intros x. by rewrite strip_truthy. }
  rewrite Hf. destruct items as [|item items]; [reflexivity|].
  by rewrite split_join.
Qed.

Lemma blank_or_comma_split s :
  blank_or_comma s = true ↔ Forall (fun p => has_nonspace p = false) (pystr.split "," s).
Proof.
  induction s as [|c s IH]; [cbn; split; [by repeat constructor|done]|].
  cbn [blank_or_comma pystr.split].
  destruct (Ascii.eqb_spec c ",") as [->|Hne].
  - cbn. rewrite IH. split; [by constructor|by inversion 1].
  - rewrite orb_false_r.
    destruct (split_cons_inv "," s) as (p & ps & E). rewrite E in *.
    rewrite andb_true_iff, IH. split.
    + intros [Hc H]. inversion_clear H. constructor; [|done]. cbn. by rewrite Hc.
    + inversion_clear 1 as [|? ? Hp Hps]. cbn in Hp. apply orb_false_iff in Hp as [Hc Hp].
      apply negb_false_iff in Hc. split; [done|]. by constructor.
Qed.

Lemma split_string_nil value : split_string value = [] ↔ blank_or_comma value = true.
Proof.
  rewrite blank_or_comma_split. unfold split_string. split.
  - intros H%fmap_nil_inv. apply List.Forall_forall. intros p Hp%list_elem_of_In.
    destruct (has_nonspace p) eqn:E; [|done]. exfalso.
    assert (p ∈ filter (fun item => py.truthy (py.strip item) = true)
                       (pystr.split "," value)) as Hin.
    { apply list_elem_of_filter. split; [by rewrite strip_truthy|done]. }
    rewrite H in Hin. by apply elem_of_nil in Hin.
  - intros Hall. induction Hall as [|p ps Hp Hps IH]; [reflexivity|].
    rewrite filter_cons. destruct (decide (py.truthy (py.strip p) = true)) as [Ht|_];
      [|exact IH].
    rewrite strip_truthy in Ht. congruence.
Qed.

(** ** split_node_names: pieces with balanced brackets *)

Lemma split_loop_cons c s st :
  split_loop (String c s) st = split_loop s (split_node_names_step st c).
Proof. reflexivity. Qed.

Lemma string_app_cons_middle (arg : string) c x :
  ((arg ++ String c "") ++ x)%string = (arg ++ String c x)%string.
Proof. by rewrite string_app_assoc. Qed.

(** A piece without a comma at depth 0 goes to the current argument
    whole. *)
Lemma split_loop_balanced x : ∀ res arg d,
  balanced_from d x = true →
  split_loop x (SplitState res arg d) = SplitState res (arg ++ x) 0.
Proof.
  induction x as [|c x IH]; intros res arg d H.
  - cbn in H. apply Z.eqb_eq in H as ->. unfold split_loop. cbn.
    by rewrite string_app_nil_r.
  - cbn [balanced_from] in H. apply andb_prop in H as [Hc Hx].
    apply negb_true_iff in Hc. rewrite split_loop_cons.
    unfold split_node_names_step. cbn [match_state argument result].
    rewrite Hc. cbn [andb]. rewrite IH by done. by rewrite string_app_cons_middle.
Qed.

(** The comma after such a piece splits it off, stripped. *)
Lemma split_loop_piece x res :
  x ≠ "" → balanced_from 0 x = true →
  split_loop (x ++ ",") (SplitState res "" 0) = SplitState (res ++ [py.strip x]) "" 0.
Proof.
  intros Hne Hb. rewrite split_loop_app, split_loop_balanced by done.
  rewrite append_nil_l. unfold split_loop. cbn [list_ascii_of_string fold_left].
  unfold split_node_names_step. cbn [match_state argument result].
  change (Ascii.eqb "," "[") with false. change (Ascii.eqb "," "]") with false.
  change (Ascii.eqb "," ",") with true. cbv iota. cbn [Z.eqb andb].
  by destruct x.
Qed.

Lemma join_comma_snoc item items :
  (py.join "," (item :: items) ++ ",")%string
  = (item ++ "," ++ match items with
                    | [] => ""
                    | _ => py.join "," items ++ ","
                    end)%string.
Proof.
  destruct items as [|q items]; [reflexivity|].
  rewrite join_cons2. by rewrite !string_app_assoc.
Qed.

Lemma split_loop_pieces items : ∀ res,
  Forall (fun x => x ≠ "" ∧ balanced_from 0 x = true) items →
  items ≠ [] →
  split_loop (py.join "," items ++ ",") (SplitState res "" 0)
  = SplitState (res ++ (py.strip <$> items)) "" 0.
Proof.
  induction items as [|item items IH]; intros res Hall Hne; [done|].
  inversion_clear Hall as [|? ? [Hx Hb] Hrest].
  rewrite join_comma_snoc. rewrite <- string_app_assoc, split_loop_app.
  rewrite split_loop_piece by done.
  destruct items as [|q items].
  - unfold split_loop. cbn. reflexivity.
  - rewrite IH by done. rewrite fmap_cons, <- app_assoc. reflexivity.
Qed.

Lemma split_node_names_pieces items :
  Forall (fun x => x ≠ "" ∧ balanced_from 0 x = true) items →
  split_node_names (py.join "," items) = py.strip <$> items.
Proof.
  intros Hall. destruct items as [|item items]; [reflexivity|].
  unfold split_node_names. fold (split_loop (py.join "," (item :: items) ++ ",")
                                            (SplitState [] "" 0)).
  by rewrite split_loop_pieces.
Qed.

(** ** split_node_names: a bracket that is never closed *)

Lemma no_brackets_depth s : ∀ st,
  no_brackets s = true → match_state (split_loop s st) = match_state st.
Proof.
  induction s as [|c s IH]; intros st H; [reflexivity|].
  cbn [no_brackets] in H. apply andb_prop in H as [[Ho Hc]%andb_prop Hs].
  apply negb_true_iff in Ho, Hc. rewrite split_loop_cons, IH by done.
  unfold split_node_names_step. rewrite Ho, Hc.
  by destruct (_ && _ && _).
Qed.

Lemma no_brackets_app s t :
  no_brackets (s ++ t) = no_brackets s && no_brackets t.
Proof.
  induction s as [|c s IH]; [reflexivity|]. rewrite append_cons. cbn [no_brackets].
  by rewrite IH, andb_assoc.
Qed.

Lemma free_of_app c s t : free_of c (s ++ t) = free_of c s && free_of c t.
Proof.
  induction s as [|a s IH]; [reflexivity|]. rewrite append_cons. cbn [free_of].
  by rewrite IH, andb_assoc.
Qed.

(** Above depth 0 and without a closing bracket nothing is split off. *)
Lemma split_loop_unclosed x : ∀ res arg d,
  (1 ≤ d)%Z → free_of "]" x = true →
  result (split_loop x (SplitState res arg d)) = res.
Proof.
  induction x as [|c x IH]; intros res arg d Hd H; [reflexivity|].
  cbn [free_of] in H. apply andb_prop in H as [Hc Hx]. apply negb_true_iff in Hc.
  rewrite split_loop_cons. unfold split_node_names_step.
  cbn [match_state argument result]. rewrite Hc.
  destruct (Ascii.eqb c "[").
  - replace ((d + 1 =? 0)%Z) with false by lia. rewrite andb_false_r. cbn [andb].
    apply IH; [lia|done].
  - replace ((d =? 0)%Z) with false by lia. rewrite andb_false_r. cbn [andb].
    apply IH; [lia|done].
Qed.

Lemma split_node_names_unclosed_tail s x :
  match_state (split_loop s (SplitState [] "" 0)) = 0%Z →
  free_of "]" x = true →
  result (split_loop (s ++ "[" ++ x ++ ",") (SplitState [] "" 0))
  = result (split_loop s (SplitState [] "" 0)).
Proof.
  intros Hd Hx. rewrite split_loop_app.
  destruct (split_loop s (SplitState [] "" 0)) as [res arg d]. cbn in Hd. subst d.
  rewrite append_cons, append_nil_l, split_loop_cons.
  unfold split_node_names_step. cbn [match_state argument result].
  change (Ascii.eqb "[" "[") with true. change (Ascii.eqb "[" ",") with false.
  cbv iota. cbn [andb Z.add Z.eqb]. cbn [result].
  apply split_loop_unclosed; [lia|]. by rewrite free_of_app, Hx.
Qed.

(** ** split_node_names and split_string *)

Lemma no_brackets_balanced p : ∀ d,
  no_brackets p = true → free_of "," p = true → balanced_from d p = (d =? 0)%Z.
Proof.
  induction p as [|c p IH]; intros d Hb Hc; [reflexivity|].
  cbn [no_brackets free_of balanced_from] in *.
  apply andb_prop in Hb as [[Ho Hcl]%andb_prop Hb]. apply andb_prop in Hc as [Hc Hp].
  apply negb_true_iff in Ho, Hcl, Hc. rewrite Ho, Hcl, Hc. cbn [andb negb].
  by apply IH.
Qed.

Lemma split_pieces_no_brackets sep s :
  no_brackets s = true → Forall (fun p => no_brackets p = true) (pystr.split sep s).
Proof.
  induction s as [|c s IH]; cbn [pystr.split no_brackets]; [by repeat constructor|].
  intros [Hc Hs]%andb_prop. specialize (IH Hs).
  destruct (Ascii.eqb c sep); [by constructor|].
  destruct (pystr.split sep s) as [|p ps]; [by repeat constructor; cbn; rewrite Hc|].
  inversion_clear IH. constructor; [|done]. cbn. by rewrite Hc.
Qed.

Lemma split_node_names_no_brackets s :
  no_brackets s = true →
  Forall (fun p => p ≠ "") (pystr.split "," s) →
  split_node_names s = py.strip <$> pystr.split "," s.
Proof.
  intros Hb Hne. rewrite <- (join_split "," s) at 1.
  apply split_node_names_pieces.
  pose proof (split_pieces_no_brackets "," s Hb) as H1.
  pose proof (split_pieces_free "," s) as H2.
  rewrite List.Forall_forall in *. intros p Hp. split; [by apply Hne|].
  rewrite no_brackets_balanced; [done|by apply H1|by apply H2].
Qed.

Lemma filter_length_all {A : Type} (P : A → Prop) `{∀ x, Decision (P x)} (l : list A) :
  length (filter P l) = length l → Forall P l.
Proof.
  induction l as [|x l IH]; [by constructor|]. rewrite filter_cons.
  pose proof (length_filter P l). destruct (decide (P x)); cbn; intros Hlen; [|lia].
  constructor; [done|]. apply IH. lia.
Qed.

Lemma filter_all {A : Type} (P : A → Prop) `{∀ x, Decision (P x)} (l : list A) :
  Forall P l → filter P l = l.
Proof.
  induction 1 as [|x l Hx Hl IH]; [reflexivity|].
  rewrite filter_cons, decide_True by done. by rewrite IH.
Qed.

(** ** Cutting at the first separator *)

Lemma split_once_free sep s : free_of sep s = true → pystr.split_once sep s = [s].
Proof.
  induction s as [|c s IH]; [done|]. cbn. intros [Hc Hs]%andb_prop.
  apply negb_true_iff in Hc. by rewrite Hc, IH.
Qed.

Lemma split_once_first sep k v :
  free_of sep k = true → pystr.split_once sep (k ++ String sep v) = [k; v].
Proof.
  induction k as [|c k IH]; rewrite ?append_nil_l, ?append_cons;
    cbn [pystr.split_once free_of].
  - intros _. by rewrite Ascii.eqb_refl.
  - intros [Hc Hk]%andb_prop. apply negb_true_iff in Hc. by rewrite Hc, IH.
Qed.

Lemma find_free sep s : free_of sep s = true → pystr.find sep s = (-1)%Z.
Proof.
  induction s as [|c s IH]; [done|]. cbn. intros [Hc Hs]%andb_prop.
  apply negb_true_iff in Hc. by rewrite Hc, IH.
Qed.

Lemma find_nonneg sep s : (-1 ≤ pystr.find sep s)%Z.
Proof.
  induction s as [|c s IH]; cbn; [lia|]. destruct (Ascii.eqb c sep); [lia|].
  destruct (Z.eqb_spec (pystr.find sep s) (-1)); lia.
Qed.

Lemma find_first sep k v :
  free_of sep k = true → pystr.find sep (k ++ String sep v) = Z.of_nat (String.length k).
Proof.
  induction k as [|c k IH]; rewrite ?append_nil_l, ?append_cons;
    cbn [pystr.find free_of String.length].
  - intros _. by rewrite Ascii.eqb_refl.
  - intros [Hc Hk]%andb_prop. apply negb_true_iff in Hc. rewrite Hc, IH by done.
    destruct (Z.eqb_spec (Z.of_nat (String.length k)) (-1)); lia.
Qed.

Lemma partition_first sep k v :
  free_of sep k = true →
  pystr.partition sep (k ++ String sep v) = (k, String sep "", v).
Proof.
  induction k as [|c k IH]; rewrite ?append_nil_l, ?append_cons;
    cbn [pystr.partition free_of].
  - intros _. by rewrite Ascii.eqb_refl.
  - intros [Hc Hk]%andb_prop. apply negb_true_iff in Hc. by rewrite Hc, IH.
Qed.

(** ** Stripping around a character that is not whitespace *)

Lemma lstrip_app_nonspace k c v :
  py.isspace c = false → py.lstrip (k ++ String c v) = (py.lstrip k ++ String c v)%string.
Proof.
  intros Hc. induction k as [|a k IH]; rewrite ?append_nil_l, ?append_cons.
  - cbn. by rewrite Hc.
  - cbn [py.lstrip]. destruct (py.isspace a); [exact IH|]. by rewrite append_cons.
Qed.

Lemma rstrip_app_nonspace k c v :
  py.isspace c = false → py.rstrip (k ++ String c v) = (k ++ String c (py.rstrip v))%string.
Proof.
  intros Hc. induction k as [|a k IH]; rewrite ?append_nil_l, ?append_cons.
  - cbn. destruct (py.rstrip v); [by rewrite Hc|done].
  - cbn [py.rstrip]. rewrite IH. by destruct k.
Qed.

Lemma strip_around k c v :
  py.isspace c = false →
  py.strip (k ++ String c v) = (py.lstrip k ++ String c (py.rstrip v))%string.
Proof.
  intros Hc. unfold py.strip. by rewrite lstrip_app_nonspace, rstrip_app_nonspace.
Qed.

Lemma lstrip_idem s : py.lstrip (py.lstrip s) = py.lstrip s.
Proof.
  destruct (lstrip_head s) as [->|(c & r & -> & Hc)]; [reflexivity|].
  by apply lstrip_nonspace.
Qed.

Lemma strip_lstrip s : py.strip (py.lstrip s) = py.strip s.
Proof. unfold py.strip. by rewrite lstrip_idem. Qed.

Lemma lstrip_free_iff c s :
  py.isspace c = false → free_of c (py.lstrip s) = free_of c s.
Proof.
  intros Hc. induction s as [|a s IH]; [reflexivity|]. cbn.
  destruct (py.isspace a) eqn:Ea; [|reflexivity]. rewrite IH.
  destruct (Ascii.eqb_spec a c) as [->|]; [congruence|reflexivity].
Qed.

Lemma rstrip_free_iff c s :
  py.isspace c = false → free_of c (py.rstrip s) = free_of c s.
Proof.
  intros Hc. induction s as [|a s IH]; [reflexivity|]. cbn.
  destruct (py.rstrip s) as [|b r] eqn:E.
  - rewrite <- IH. cbn. destruct (py.isspace a) eqn:Ea; cbn; [|by rewrite andb_true_r].
    destruct (Ascii.eqb_spec a c) as [->|]; [congruence|reflexivity].
  - cbn [free_of] in *. by rewrite IH.
Qed.

Lemma strip_free_iff c s :
  py.isspace c = false → free_of c (py.strip s) = free_of c s.
Proof. intros Hc. unfold py.strip. by rewrite rstrip_free_iff, lstrip_free_iff. Qed.

(** ** _split_load_versions *)

Lemma load_versions_loop_pairs pairs : ∀ d,
  Forall (fun kv => free_of ":" kv.1 = true) pairs →
  load_versions_loop ((fun kv => (kv.1 ++ ":" ++ kv.2)%string) <$> pairs) d
  = Ok (foldl (fun d kv => <[py.lstrip kv.1 := py.rstrip kv.2]> d) d pairs).
Proof.
  induction pairs as [|[k v] pairs IH]; intros d Hall; [reflexivity|].
  inversion_clear Hall as [|? ? Hk Hrest]. cbn [fst snd] in Hk.
  rewrite fmap_cons. cbn [load_versions_loop fst snd].
  change (k ++ ":" ++ v)%string with (k ++ String ":" v)%string.
  rewrite strip_around by reflexivity.
  rewrite split_once_first by (by rewrite lstrip_free_iff).
  by rewrite IH.
Qed.

Lemma load_versions_loop_bad before bad after : ∀ d,
  Forall (fun p => free_of ":" p = false) before →
  free_of ":" bad = true →
  load_versions_loop (before ++ bad :: after) d
  = Raise (KedroCliError (load_versions_message (py.strip bad))).
Proof.
  induction before as [|p before IH]; intros d Hall Hbad.
  - cbn [app load_versions_loop].
    by rewrite split_once_free by (by rewrite strip_free_iff).
  - inversion_clear Hall as [|? ? Hp Hrest]. cbn [app load_versions_loop].
    assert (free_of ":" (py.strip p) = false) as Hs by (by rewrite strip_free_iff).
    assert (∃ k v, pystr.split_once ":" (py.strip p) = [k; v]) as (k & v & ->).
    { clear -Hs. induction (py.strip p) as [|c s IHs]; [done|]. cbn in *.
      destruct (Ascii.eqb c ":"); [eauto|]. cbn in Hs.
      destruct (IHs Hs) as (k & v & ->). eauto. }
    by apply IH.
Qed.

Lemma join_nonempty_truthy sep items :
  py.join sep items ≠ "" → negb (py.truthy (py.join sep items)) = false.
Proof. by destruct (py.join sep items). Qed.

(** ** _split_params *)

Lemma split_params_loop_pairs option_name pairs : ∀ dot_list,
  Forall (fun kv => free_of "=" kv.1 = true ∧ has_nonspace kv.1 = true) pairs →
  split_params_loop option_name
    ((fun kv => (py.lstrip kv.1 ++ "=" ++ py.rstrip kv.2)%string) <$> pairs) dot_list
  = Pass (dot_list ++ ((fun kv => (py.strip kv.1 ++ "=" ++ py.rstrip kv.2)%string) <$> pairs)).
Proof.
  induction pairs as [|[k v] pairs IH]; intros dot_list Hall.
  - cbn. by rewrite app_nil_r.
  - inversion_clear Hall as [|? ? [Hk Hns] Hrest]. cbn [fst snd] in *.
    rewrite !fmap_cons. cbn [split_params_loop fst snd].
    change (py.lstrip k ++ "=" ++ py.rstrip v)%string
      with (py.lstrip k ++ String "=" (py.rstrip v))%string.
    assert (free_of "=" (py.lstrip k) = true) as Hk' by (by rewrite lstrip_free_iff).
    rewrite find_first, partition_first by done.
    replace ((Z.of_nat (String.length (py.lstrip k)) =? -1)%Z) with false
      by (symmetry; apply Z.eqb_neq; lia).
    rewrite strip_lstrip, strip_truthy, Hns. cbn [negb].
    rewrite IH by done. by rewrite <- app_assoc.
Qed.

Lemma has_nonspace_middle k c v :
  py.isspace c = false → has_nonspace (k ++ String c v) = true.
Proof.
  intros Hc. rewrite has_nonspace_app. cbn. rewrite Hc. cbn. apply orb_true_r.
Qed.

Lemma split_string_pairs sep pairs :
  py.isspace sep = false →
  Forall (fun kv => free_of "," kv.1 = true ∧ free_of "," kv.2 = true) pairs →
  sep ≠ ","%char →
  split_string (py.join "," ((fun kv => (kv.1 ++ String sep kv.2)%string) <$> pairs))
  = (fun kv => (py.lstrip kv.1 ++ String sep (py.rstrip kv.2))%string) <$> pairs.
Proof.
  intros Hsep Hall Hne. rewrite split_string_join.
  - rewrite filter_all.
    + rewrite <- list_fmap_compose. apply list_fmap_ext. intros _ [k v] _. cbn.
      by apply strip_around.
    + apply List.Forall_forall. intros p (kv & -> & _)%list_elem_of_In%list_elem_of_fmap.
      by apply has_nonspace_middle.
  - apply List.Forall_forall. intros p (kv & -> & Hin)%list_elem_of_In%list_elem_of_fmap.
    rewrite List.Forall_forall in Hall. destruct (Hall kv) as [H1 H2];
      [by apply list_elem_of_In|].
    rewrite free_of_app, H1. cbn. rewrite H2.
    destruct (Ascii.eqb_spec sep ","); [done|reflexivity].
Qed.

Lemma split_params_loop_valid option_name before rest : ∀ dot_list,
  Forall (fun item => ∃ k v, item = (k ++ "=" ++ v)%string
                             ∧ free_of "=" k = true ∧ has_nonspace k = true) before →
  ∃ dot_list', split_params_loop option_name (before ++ rest) dot_list
               = split_params_loop option_name rest dot_list'.
Proof.
  induction before as [|item before IH]; intros dot_list Hall; [by eexists|].
  inversion_clear Hall as [|? ? (k & v & -> & Hk & Hns) Hrest].
  cbn [app split_params_loop].
  change (k ++ "=" ++ v)%string with (k ++ String "=" v)%string.
  rewrite find_first, partition_first by done.
  replace ((Z.of_nat (String.length k) =? -1)%Z) with false
    by (symmetry; apply Z.eqb_neq; lia).
  rewrite strip_truthy, Hns. cbn [negb]. by apply IH.
Qed.

(** ** split_string: what it returns *)

(** X1: every item that [split_string] returns is not empty, has no
    whitespace at either end and contains no comma, whatever the input. *)
Theorem split_string_items_clean (value : string) :
  Forall (fun item => item ≠ "" ∧ py.strip item = item ∧ free_of "," item = true)
         (split_string value).
Proof.
  apply List.Forall_forall. intros item Hin%list_elem_of_In.
  by apply (split_string_items value).
Qed.

(** X2: [split_string] undoes a join with commas: for items without a
    comma, splitting their join gives back the items that are not blank,
    each stripped, in order; items that are already stripped and not empty
    come back as they are. *)
Theorem split_string_join_round_trip (items : list string) :
  Forall (fun p => free_of "," p = true) items →
  split_string (py.join "," items)
  = py.strip <$> filter (fun p => has_nonspace p = true) items
  ∧ (Forall (fun p => p ≠ "" ∧ py.strip p = p) items →
     split_string (py.join "," items) = items).
Proof.
  intros Hall. pose proof (split_string_join items Hall) as Hjoin.
  split; [exact Hjoin|]. intros Hclean. rewrite Hjoin. clear Hjoin Hall.
  induction Hclean as [|p ps [Hne Hs] Hps IH]; [reflexivity|].
  rewrite filter_cons.
  assert (has_nonspace p = true) as Hns.
  { rewrite <- strip_truthy, Hs. by apply truthy_nonempty. }
  rewrite decide_True by done. by rewrite fmap_cons, Hs, IH.
Qed.

Lemma split_string_join_round_trip_witness :
  Forall (fun p => free_of "," p = true) ["run"; "  "; " data science "; ""]
  ∧ split_string (py.join "," ["run"; "  "; " data science "; ""])
    = ["run"; "data science"].
Proof.
  assert (Forall (fun p => free_of "," p = true) ["run"; "  "; " data science "; ""])
    as H by (repeat constructor).
  split; [exact H|].
  destruct (split_string_join_round_trip _ H) as [-> _]. reflexivity.
Defined.

(** X3: [split_string] returns the empty list exactly when its input is
    made of whitespace and commas only (the empty string included). *)
Theorem split_string_empty_iff (value : string) :
  split_string value = [] ↔ blank_or_comma value = true.
Proof. apply split_string_nil. Qed.

(** ** split_node_names: further behaviour *)

(** X4: [split_node_names] undoes a join with commas of pieces whose
    brackets balance: when every piece is non-empty, meets no comma while
    the bracket counter is 0 and leaves the counter at 0, the result is the
    list of the pieces, each stripped, however deeply the brackets nest. *)
Theorem split_node_names_balanced_pieces (items : list string) :
  Forall (fun x => x ≠ "" ∧ balanced_from 0 x = true) items →
  split_node_names (py.join "," items) = py.strip <$> items.
Proof. apply split_node_names_pieces. Qed.

Lemma split_node_names_balanced_pieces_witness :
  Forall (fun x => x ≠ "" ∧ balanced_from 0 x = true) ["f([a,[b,c]]) -> [d,e]"; " g "]
  ∧ split_node_names "f([a,[b,c]]) -> [d,e], g " = ["f([a,[b,c]]) -> [d,e]"; "g"].
Proof.
  assert (Forall (fun x => x ≠ "" ∧ balanced_from 0 x = true)
                 ["f([a,[b,c]]) -> [d,e]"; " g "]) as H
    by (repeat constructor; done).
  split; [exact H|].
  exact (split_node_names_balanced_pieces _ H).
Defined.

(** X5: a square bracket that is never closed makes [split_node_names]
    drop, without an error, everything from the last comma before it: the
    input ["[" ++ x] gives no name at all, and [a ++ ",[" ++ x] gives the
    names of [a] only. *)
Theorem split_node_names_unclosed_bracket (x : string) :
  free_of "]" x = true →
  split_node_names ("[" ++ x) = []
  ∧ ∀ a, no_brackets a = true →
         split_node_names (a ++ "," ++ "[" ++ x) = split_node_names a.
Proof.
  intros Hx. split.
  - unfold split_node_names. fold (split_loop (("[" ++ x) ++ ",") (SplitState [] "" 0)).
    rewrite string_app_assoc.
    exact (split_node_names_unclosed_tail "" x eq_refl Hx).
  - intros a Ha. unfold split_node_names.
    fold (split_loop ((a ++ "," ++ "[" ++ x) ++ ",") (SplitState [] "" 0)).
    fold (split_loop (a ++ ",") (SplitState [] "" 0)).
    replace ((a ++ "," ++ "[" ++ x) ++ ",")%string
      with ((a ++ ",") ++ "[" ++ x ++ ",")%string by (by rewrite !string_app_assoc).
    apply split_node_names_unclosed_tail; [|done].
    rewrite no_brackets_depth; [done|]. by rewrite no_brackets_app, Ha.
Qed.

Lemma split_node_names_unclosed_bracket_witness :
  free_of "]" "a,b" = true
  ∧ split_node_names "[a,b" = []
  ∧ split_node_names "n1,n2,[a,b" = ["n1"; "n2"].
Proof.
  split; [reflexivity|].
  destruct (split_node_names_unclosed_bracket "a,b" eq_refl) as [H1 H2].
  split; [exact H1|]. exact (H2 "n1,n2" eq_refl).
Defined.

(** X6: on an input without square brackets whose comma-separated pieces
    are all non-empty, [split_node_names] returns every piece stripped; it
    agrees with [split_string] exactly when no piece is blank (a blank
    piece gives an empty name, which [split_string] leaves out). *)
Theorem split_node_names_agrees_with_split_string (s : string) :
  no_brackets s = true →
  Forall (fun p => p ≠ "") (pystr.split "," s) →
  split_node_names s = py.strip <$> pystr.split "," s
  ∧ (split_node_names s = split_string s
     ↔ Forall (fun p => has_nonspace p = true) (pystr.split "," s)).
Proof.
  intros Hb Hne. pose proof (split_node_names_no_brackets s Hb Hne) as Hs.
  split; [exact Hs|]. rewrite Hs. unfold split_string.
  assert (filter (fun item => py.truthy (py.strip item) = true) (pystr.split "," s)
          = filter (fun p => has_nonspace p = true) (pystr.split "," s)) as ->.
  { apply list_filter_iff. intros p. by rewrite strip_truthy. }
  split.
  - intros Heq. apply (filter_length_all (fun p => has_nonspace p = true)).
    apply (f_equal length) in Heq. by rewrite !length_fmap in Heq.
  - intros Hall. by rewrite filter_all.
Qed.

Lemma split_node_names_agrees_with_split_string_witness :
  no_brackets "a, ,b" = true
  ∧ Forall (fun p => p ≠ "") (pystr.split "," "a, ,b")
  ∧ split_node_names "a, ,b" = ["a"; ""; "b"]
  ∧ split_string "a, ,b" = ["a"; "b"].
Proof.
  assert (Forall (fun p => p ≠ "") (pystr.split "," "a, ,b")) as H
    by (repeat constructor; done).
  split; [reflexivity|]. split; [exact H|].
  destruct (split_node_names_agrees_with_split_string "a, ,b" eq_refl H) as [-> _].
  split; reflexivity.
Defined.

(** ** _split_load_versions *)

Lemma foldl_insert_last {V : Type} (f : string → string) (g : string → V)
    (pairs : list (string * string)) : ∀ (d : gmap string V) before k v after,
  pairs = before ++ (k, v) :: after →
  f k ∉ f <$> after.*1 →
  foldl (fun d kv => <[f kv.1 := g kv.2]> d) d pairs !! f k = Some (g v).
Proof.
  intros d before k v after -> Hlast. rewrite foldl_app. cbn [foldl fst snd].
  generalize (foldl (fun d kv => <[f kv.1 := g kv.2]> d) d before). intros d0.
  assert (∀ d1 : gmap string V, d1 !! f k = Some (g v) →
            foldl (fun d kv => <[f kv.1 := g kv.2]> d) d1 after !! f k = Some (g v)) as H.
  { induction after as [|[k' v'] after IH]; intros d1 Hd1; [done|]. cbn [foldl fst snd].
    apply IH.
    - intros Hin. apply Hlast. rewrite !fmap_cons. by apply elem_of_cons; right.
    - rewrite lookup_insert_ne; [done|]. intros Heq. apply Hlast.
      rewrite !fmap_cons. cbn. apply elem_of_cons. by left. }
  apply H. apply lookup_insert_eq.
Qed.

Lemma foldl_insert_dom {V : Type} (f : string → string) (g : string → V)
    (pairs : list (string * string)) : ∀ (d : gmap string V),
  dom (foldl (fun d kv => <[f kv.1 := g kv.2]> d) d pairs)
  = dom d ∪ list_to_set (f <$> pairs.*1).
Proof.
  induction pairs as [|[k v] pairs IH]; intros d; cbn [foldl fst snd].
  - cbn. set_solver.
  - rewrite IH, dom_insert_L, !fmap_cons. cbn. set_solver.
Qed.

(** X8: [_split_load_versions] reads a comma-separated list of
    [dataset:version] pieces into a dict.  For pieces whose dataset name has
    no colon, the dict binds each name (without the whitespace before it) to
    what follows the first colon (without the whitespace after it, so a
    version may itself contain colons); whitespace next to the colon is
    kept; and a name given twice keeps its last version. *)
Theorem split_load_versions_pairs (pairs : list (string * string)) :
  Forall (fun kv => free_of ":" kv.1 = true ∧ free_of "," kv.1 = true
                    ∧ free_of "," kv.2 = true) pairs →
  let installed := foldl (fun d kv => <[py.lstrip kv.1 := py.rstrip kv.2]> d) ∅ pairs in
  _split_load_versions (py.join "," ((fun kv => (kv.1 ++ ":" ++ kv.2)%string) <$> pairs))
  = Ok installed
  ∧ (∀ before k v after,
       pairs = before ++ (k, v) :: after →
       py.lstrip k ∉ py.lstrip <$> after.*1 →
       installed !! py.lstrip k = Some (py.rstrip v))
  ∧ dom installed = list_to_set (py.lstrip <$> pairs.*1).
Proof.
  intros Hall installed. split; [|split].
  - unfold _split_load_versions. destruct pairs as [|kv pairs]; [reflexivity|].
    set (pieces := (fun kv => (kv.1 ++ ":" ++ kv.2)%string) <$> kv :: pairs).
    assert (py.truthy (py.join "," pieces) = true) as ->.
    { unfold pieces. rewrite fmap_cons.
      destruct pairs; [cbn [fmap list_fmap py.join]|rewrite fmap_cons, join_cons2];
        by destruct (kv.1). }
    cbn [negb]. rewrite split_join_ne.
    + apply load_versions_loop_pairs.
      eapply List.Forall_impl; [|exact Hall]. by intros ? (? & _).
    + unfold pieces. by rewrite fmap_cons.
    + apply List.Forall_forall.
      intros p (kv' & -> & Hin)%list_elem_of_In%list_elem_of_fmap.
      rewrite List.Forall_forall in Hall.
      destruct (Hall kv') as (_ & H1 & H2); [by apply list_elem_of_In|].
      by rewrite !free_of_app, H1, H2.
  - intros before k v after Hsplit Hlast.
    by apply (foldl_insert_last py.lstrip py.rstrip pairs ∅ before k v after).
  - unfold installed. rewrite foldl_insert_dom. set_solver.
Qed.

Lemma split_load_versions_pairs_witness :
  Forall (fun kv => free_of ":" kv.1 = true ∧ free_of "," kv.1 = true
                    ∧ free_of "," kv.2 = true)
         [("cars", "2024-01-01T10.00.00.000Z"); (" boats ", " v:1 ")]
  ∧ _split_load_versions "cars:2024-01-01T10.00.00.000Z, boats : v:1 "
    = Ok (<["boats " := " v:1"]> (<["cars" := "2024-01-01T10.00.00.000Z"]> ∅)).
Proof.
  assert (Forall (fun kv => free_of ":" kv.1 = true ∧ free_of "," kv.1 = true
                            ∧ free_of "," kv.2 = true)
                 [("cars", "2024-01-01T10.00.00.000Z"); (" boats ", " v:1 ")]) as H
    by (repeat constructor).
  split; [exact H|].
  destruct (split_load_versions_pairs _ H) as [Hrun _]. exact Hrun.
Defined.

(** X7: [_split_load_versions] rejects the whole option at the first
    comma-separated piece without a colon: it raises a [KedroCliError]
    whose message quotes that piece, stripped, and returns no dict, whatever
    the pieces after it are.  A trailing comma is such a piece (the empty
    one). *)
Theorem split_load_versions_bad_piece (before : list string) (bad : string)
    (after : list string) :
  Forall (fun p => free_of "," p = true) (before ++ bad :: after) →
  Forall (fun p => free_of ":" p = false) before →
  free_of ":" bad = true →
  py.join "," (before ++ bad :: after) ≠ "" →
  _split_load_versions (py.join "," (before ++ bad :: after))
  = Raise (KedroCliError (load_versions_message (py.strip bad))).
Proof.
  intros Hcomma Hbefore Hbad Hne. unfold _split_load_versions.
  rewrite join_nonempty_truthy by done.
  destruct (before ++ bad :: after) as [|p ps] eqn:E; [by destruct before|].
  rewrite split_join by done. rewrite <- E. by apply load_versions_loop_bad.
Qed.

Lemma split_load_versions_bad_piece_witness :
  Forall (fun p => free_of "," p = true) (["cars:v1"] ++ "" :: [])
  ∧ Forall (fun p => free_of ":" p = false) ["cars:v1"]
  ∧ free_of ":" "" = true
  ∧ py.join "," (["cars:v1"] ++ "" :: []) ≠ ""
  ∧ _split_load_versions "cars:v1,"
    = Raise (KedroCliError
        "Expected the form of 'load_versions' to be 'dataset_name:YYYY-MM-DDThh.mm.ss.sssZ',found  instead").
Proof.
  assert (Forall (fun p => free_of "," p = true) (["cars:v1"] ++ "" :: [])) as H1
    by (repeat constructor).
  assert (Forall (fun p => free_of ":" p = false) ["cars:v1"]) as H2
    by (repeat constructor).
  assert (py.join "," (["cars:v1"] ++ "" :: []) ≠ "") as H3 by done.
  split; [exact H1|]. split; [exact H2|]. split; [reflexivity|]. split; [exact H3|].
  exact (split_load_versions_bad_piece ["cars:v1"] "" [] H1 H2 eq_refl H3).
Defined.

(** ** _split_params *)

(** X9: for [key=value] pieces joined by commas, where no key holds an
    equals sign or is blank and neither side holds a comma,
    [_split_params] hands to OmegaConf one [key=value] string per piece, in
    order, with the whitespace around the key and after the value removed
    and the whitespace between the equals sign and the value kept. *)
Theorem split_params_pairs {dict : Type} (from_dotlist : list string → dict)
    (param : ClickParameter) (pairs : list (string * string)) :
  Forall (fun kv => free_of "=" kv.1 = true ∧ has_nonspace kv.1 = true
                    ∧ free_of "," kv.1 = true ∧ free_of "," kv.2 = true) pairs →
  _split_params from_dotlist param
    (inr (py.join "," ((fun kv => (kv.1 ++ "=" ++ kv.2)%string) <$> pairs)))
  = Pass (from_dotlist
            ((fun kv => (py.strip kv.1 ++ "=" ++ py.rstrip kv.2)%string) <$> pairs)).
Proof.
  intros Hall. unfold _split_params.
  change (fun kv : string * string => (kv.1 ++ "=" ++ kv.2)%string)
    with (fun kv : string * string => (kv.1 ++ String "=" kv.2)%string).
  rewrite (split_string_pairs "=") by
    (first [reflexivity | done
           | eapply List.Forall_impl; [|exact Hall]; by intros ? (_ & _ & ? & ?)]).
  change (fun kv : string * string => (py.lstrip kv.1 ++ String "=" (py.rstrip kv.2))%string)
    with (fun kv : string * string => (py.lstrip kv.1 ++ "=" ++ py.rstrip kv.2)%string).
  rewrite split_params_loop_pairs; [done|].
  eapply List.Forall_impl; [|exact Hall]. by intros ? (? & ? & _).
Qed.

Lemma split_params_pairs_witness :
  Forall (fun kv => free_of "=" kv.1 = true ∧ has_nonspace kv.1 = true
                    ∧ free_of "," kv.1 = true ∧ free_of "," kv.2 = true)
         [(" lr ", " 0.1 "); ("model.name", "a=b")]
  ∧ _split_params (fun dot_list => dot_list) {| param_name := "params" |}
      (inr " lr = 0.1 ,model.name=a=b")
    = Pass ["lr= 0.1"; "model.name=a=b"].
Proof.
  assert (Forall (fun kv => free_of "=" kv.1 = true ∧ has_nonspace kv.1 = true
                            ∧ free_of "," kv.1 = true ∧ free_of "," kv.2 = true)
                 [(" lr ", " 0.1 "); ("model.name", "a=b")]) as H
    by (repeat constructor).
  split; [exact H|].
  exact (split_params_pairs (fun dot_list => dot_list) {| param_name := "params" |} _ H).
Defined.

(** X10: [_split_params] fails at the first item of [split_string] that
    is not a [key=value] with a non-blank key, through [ctx.fail]: an item
    without an equals sign fails with the message that names the option and
    quotes the item, an item whose key is blank with the message that the
    key cannot be empty; nothing reaches OmegaConf.  A value that is a dict
    already is returned as it is. *)
Theorem split_params_errors {dict : Type} (from_dotlist : list string → dict)
    (param : ClickParameter) (s : string) (before : list string) (item : string)
    (after : list string) :
  split_string s = before ++ item :: after →
  Forall (fun item => ∃ k v, item = (k ++ "=" ++ v)%string
                             ∧ free_of "=" k = true ∧ has_nonspace k = true) before →
  (free_of "=" item = true →
   _split_params from_dotlist param (inr s)
   = Fail (missing_equals_message (param_name param) item))
  ∧ (∀ k v, item = (k ++ "=" ++ v)%string → free_of "=" k = true →
            has_nonspace k = false →
            _split_params from_dotlist param (inr s)
            = Fail (empty_key_message (param_name param)))
  ∧ ∀ d, _split_params from_dotlist param (inl d) = Pass d.
Proof.
  intros Hs Hvalid. unfold _split_params. rewrite Hs.
  destruct (split_params_loop_valid (param_name param) before (item :: after) [] Hvalid)
    as [dot_list ->].
  split; [|split; [|done]].
  - intros Hfree. cbn [split_params_loop]. by rewrite find_free.
  - intros k v -> Hk Hns. cbn [split_params_loop].
    change (k ++ "=" ++ v)%string with (k ++ String "=" v)%string.
    rewrite find_first, partition_first by done.
    replace ((Z.of_nat (String.length k) =? -1)%Z) with false
      by (symmetry; apply Z.eqb_neq; lia).
    by rewrite strip_truthy, Hns.
Qed.

Lemma split_params_errors_witness :
  split_string "a=1, b ,=3" = ["a=1"] ++ "b" :: ["=3"]
  ∧ _split_params (fun dot_list => dot_list) {| param_name := "params" |} (inr "a=1, b ,=3")
    = Fail "Invalid format of `params` option: Item `b` must contain a key and a value separated by `=`."
  ∧ _split_params (fun dot_list => dot_list) {| param_name := "params" |} (inr "a=1,=3")
    = Fail "Invalid format of `params` option: Parameter key cannot be an empty string.".
Proof.
  assert (Forall (fun item => ∃ k v, item = (k ++ "=" ++ v)%string
                                     ∧ free_of "=" k = true ∧ has_nonspace k = true)
                 ["a=1"]) as Hv.
  { constructor; [|constructor]. by exists "a", "1". }
  split; [reflexivity|]. split.
  - destruct (split_params_errors (fun dot_list => dot_list) {| param_name := "params" |}
                "a=1, b ,=3" ["a=1"] "b" ["=3"] eq_refl Hv) as [H _].
    exact (H eq_refl).
  - destruct (split_params_errors (fun dot_list => dot_list) {| param_name := "params" |}
                "a=1,=3" ["a=1"] "=3" [] eq_refl Hv) as (_ & H & _).
    exact (H "" "3" eq_refl eq_refl eq_refl).
Defined.

(** ** Deduplication: what it leaves alone *)

Lemma set_commands_same (g : Group) : set_commands g (commands g) = g.
Proof. by destruct g. Qed.

Lemma set_sources_same (c : CommandCollection) : set_sources c (cc_sources c) = c.
Proof. by destruct c. Qed.

Lemma dedupe_fold_attrs (l : list nat) : ∀ (st : store) (seen : gset string) (r : nat),
  let st' := (foldl dedupe_group (st, seen) l).1 in
  name (st' r) = name (st r) ∧ help (st' r) = help (st r)
  ∧ callback (st' r) = callback (st r) ∧ params (st' r) = params (st r).
Proof.
  induction l as [|r0 l IH]; intros st seen r; cbn [foldl]; [done|].
  rewrite dedupe_group_unfold. cbn zeta in *.
  destruct (IH (<[r0:=set_commands (st r0)
             (filter (λ kv : string * Command, kv.1 ∉ seen) (commands (st r0)))]> st)
             (seen ∪ dom (commands (st r0))) r) as (-> & -> & -> & ->).
  destruct (decide (r = r0)) as [->|Hne].
  - by rewrite fn_lookup_insert.
  - by rewrite fn_lookup_insert_ne.
Qed.

(** Groups whose names are disjoint from each other and from the names seen
    so far go through the first pass unchanged. *)
Lemma dedupe_fold_disjoint (st : store) (l : list nat) :
  ∀ (st0 : store) (seen : gset string),
  (∀ r, st0 r = st r) →
  NoDup l →
  (∀ r, r ∈ l → dom (commands (st r)) ## seen) →
  (∀ n r1 r2, r1 ∈ l → r2 ∈ l →
     n ∈ dom (commands (st r1)) → n ∈ dom (commands (st r2)) → r1 = r2) →
  ∀ r, (foldl dedupe_group (st0, seen) l).1 r = st r.
Proof.
  induction l as [|r0 l IH]; intros st0 seen Heq Hnd Hseen Huniq r; cbn [foldl]; [done|].
  apply list.NoDup_cons in Hnd as [Hr0 Hnd].
  rewrite dedupe_group_unfold. apply IH; [|done| |].
  - intros r'. destruct (decide (r' = r0)) as [->|Hne].
    + rewrite fn_lookup_insert, Heq.
      replace (filter (λ kv : string * Command, kv.1 ∉ seen) (commands (st r0)))
        with (commands (st r0)); [apply set_commands_same|].
      symmetry. apply map_filter_id. intros n c Hn. cbn.
      intros Hs. apply (Hseen r0 (ltac:(left)) n); [|done]. apply elem_of_dom. eauto.
    + by rewrite fn_lookup_insert_ne.
  - intros r' Hr'. rewrite Heq. apply disjoint_union_r. split.
    + apply Hseen. by right.
    + intros n Hn1 Hn2. assert (r' = r0) as ->; [|done].
      apply (Huniq n); [by right|by left|done|done].
  - intros n r1 r2 H1 H2. apply Huniq; by right.
Qed.

Lemma first_command_is_Some (st : store) l n :
  is_Some (click.first_command st l n) ↔ n ∈ names_of st l.
Proof.
  induction l as [|r l IH]; cbn [click.first_command].
  - rewrite elem_of_names_of. split; [by intros [? ?]|].
    by intros (? & ?%elem_of_nil & _).
  - unfold click.group_get_command. rewrite elem_of_names_of.
    destruct (commands (st r) !! n) as [c|] eqn:E.
    + split; [|eauto]. intros _. exists r. split; [left|]. apply elem_of_dom. eauto.
    + rewrite IH, elem_of_names_of. split.
      * intros (r' & ? & ?). exists r'. split; [by right|done].
      * intros (r' & [->|?]%elem_of_cons & Hn); [|eauto].
        apply elem_of_dom in Hn as [? ?]. congruence.
Qed.

Lemma dedupe_names_shrink (st : store) cli_collections :
  names_of (_dedupe_commands st cli_collections).1
           (group_refs (_dedupe_commands st cli_collections).2)
  ⊆ names_of st (group_refs cli_collections).
Proof.
  intros n (r & Hr & Hn)%elem_of_names_of. apply elem_of_names_of.
  cbn [_dedupe_commands fst snd] in *. rewrite group_refs_remove_empty in Hr.
  apply list_elem_of_filter in Hr as [_ Hr]. exists r. split; [done|].
  rewrite dedupe_pass_flat in Hn.
  eapply subseteq_dom; [apply dedupe_fold_shrink|exact Hn].
Qed.

(** After deduplication a name resolves as if the original groups were
    consulted from the last one to the first. *)
Lemma dedupe_resolve_reverse (st : store) cli_collections n :
  NoDup (group_refs cli_collections) →
  resolve (_dedupe_commands st cli_collections).1
          (_dedupe_commands st cli_collections).2 n
  = click.first_command st (reverse (group_refs cli_collections)) n.
Proof.
  intros Hnd.
  destruct (decide (n ∈ names_of st (group_refs cli_collections))) as [Hin|Hnin].
  - apply last_provider in Hin as (l1 & r & l2 & Hflat & Hn & Hlast).
    apply elem_of_dom in Hn as [cmd Hcmd].
    pose proof (dedupe_commands_exact st _ _ _ _ Hnd Hflat) as Hexact.
    pose proof (dedupe_commands_survivors st cli_collections) as Hsurv.
    destruct (_dedupe_commands st cli_collections) as [st' sources'] eqn:E.
    cbn [fst snd] in *. destruct Hsurv as (Hnodup & Huniq & _).
    assert (commands (st' r) !! n = Some cmd) as Hr.
    { rewrite Hexact. apply map_lookup_filter_Some. split; [done|]. done. }
    assert (r ∈ group_refs sources') as Hin.
    { unfold _dedupe_commands in E. injection E as E1 <-. rewrite E1.
      rewrite group_refs_remove_empty. apply list_elem_of_filter. split.
      - unfold has_commands. intros Hempty. by rewrite Hempty in Hr.
      - rewrite Hflat. set_solver. }
    rewrite resolve_flat. apply list_elem_of_split in Hin as (k1 & k2 & Hk).
    rewrite Hk, first_command_app_none.
    + cbn. unfold click.group_get_command. rewrite Hr.
      rewrite Hflat, reverse_app, reverse_cons, <- app_assoc.
      rewrite first_command_app_none by (by rewrite names_of_reverse).
      cbn. unfold click.group_get_command. by rewrite Hcmd.
    + intros (r' & Hr' & Hn')%elem_of_names_of.
      assert (r' = r) as ->.
      { apply (Huniq n); [rewrite Hk; set_solver|rewrite Hk; set_solver|done|].
        apply elem_of_dom. eauto. }
      rewrite Hk in Hnodup. apply list.NoDup_app in Hnodup as (_ & Hdisj & _).
      apply (Hdisj r Hr'). left.
  - rewrite (first_command_none st (reverse _)) by (by rewrite names_of_reverse).
    rewrite resolve_flat. apply first_command_none.
    intros Hin. by apply Hnin, dedupe_names_shrink.
Qed.

(** ** Deduplication: properties *)

(** X11: [_dedupe_commands] is idempotent: run a second time on its own
    result, it changes neither any group nor the sources of any collection
    (also when the first run started from shared group objects). *)
Theorem dedupe_commands_idempotent (st : store)
    (cli_collections : list CommandCollection) :
  let '(st1, sources1) := _dedupe_commands st cli_collections in
  let '(st2, sources2) := _dedupe_commands st1 sources1 in
  sources2 = sources1 ∧ ∀ r, st2 r = st1 r.
Proof.
  pose proof (dedupe_commands_survivors st cli_collections) as Hsurv.
  destruct (_dedupe_commands st cli_collections) as [st1 sources1] eqn:E1.
  destruct Hsurv as (Hnd & Huniq & _).
  assert (∀ r, r ∈ group_refs sources1 → commands (st1 r) ≠ ∅) as Hfull.
  { unfold _dedupe_commands in E1. injection E1 as E1 <-. rewrite E1.
    intros r. rewrite group_refs_remove_empty. by intros [? _]%list_elem_of_filter. }
  destruct (_dedupe_commands st1 sources1) as [st2 sources2] eqn:E2.
  unfold _dedupe_commands in E2. injection E2 as E2 <-.
  assert (∀ r, st2 r = st1 r) as Hsame.
  { rewrite <- E2, dedupe_pass_flat.
    apply (dedupe_fold_disjoint st1); [done|by rewrite reverse_Permutation| |].
    - intros; set_solver.
    - intros n r1 r2 H1 H2 H3 H4. rewrite elem_of_reverse in H1, H2.
      by apply (Huniq n). }
  split; [|exact Hsame].
  rewrite E2. clear E2 E1 Hnd Huniq.
  induction sources1 as [|c cs IH]; [reflexivity|]. rewrite fmap_cons. f_equal.
  - unfold remove_empty_groups. rewrite filter_all; [apply set_sources_same|].
    apply List.Forall_forall. intros r Hr%list_elem_of_In. unfold has_commands.
    rewrite Hsame. apply Hfull. unfold group_refs. rewrite fmap_cons. cbn [concat].
    set_solver.
  - apply IH. intros r Hr. apply Hfull. unfold group_refs in *. rewrite fmap_cons.
    cbn [concat]. set_solver.
Qed.

Lemma dedupe_lookup_reverse (st : store) (cli_collections : list CommandCollection) :
  NoDup (group_refs cli_collections) →
  let '(st', sources') := _dedupe_commands st cli_collections in
  (∀ n, resolve st' sources' n
        = click.first_command st (reverse (group_refs cli_collections)) n)
  ∧ provided_names st' sources' = provided_names st cli_collections.
Proof.
  intros Hnd. pose proof (dedupe_resolve_reverse st cli_collections) as Hres.
  destruct (_dedupe_commands st cli_collections) as [st' sources'] eqn:E.
  cbn [fst snd] in Hres. split; [intros n; by apply Hres|].
  apply set_eq. intros n. rewrite !provided_names_refs.
  rewrite <- (first_command_is_Some st'), <- resolve_flat, Hres by done.
  by rewrite first_command_is_Some, names_of_reverse.
Qed.

(** X12: with no group object listed twice, a lookup after
    [_dedupe_commands] gives, for every name, what consulting the original
    groups from the last one to the first gives; in particular no command
    name is lost and none is added. *)
Theorem dedupe_lookup_last_provider (st : store)
    (cli_collections : list CommandCollection) :
  NoDup (group_refs cli_collections) →
  let '(st', sources') := _dedupe_commands st cli_collections in
  (∀ n, resolve st' sources' n
        = click.first_command st (reverse (group_refs cli_collections)) n)
  ∧ provided_names st' sources' = provided_names st cli_collections.
Proof. exact (dedupe_lookup_reverse st cli_collections). Qed.

Lemma dedupe_lookup_last_provider_witness :
  NoDup (group_refs sample_sources)
  ∧ resolve (_dedupe_commands sample_store sample_sources).1
            (_dedupe_commands sample_store sample_sources).2 "info"
    = Some (CommandObj 11).
Proof.
  assert (NoDup (group_refs sample_sources)) as H
    by (apply (bool_decide_unpack _); vm_compute; exact I).
  split; [exact H|].
  pose proof (dedupe_lookup_last_provider sample_store sample_sources H) as Hl.
  destruct (_dedupe_commands sample_store sample_sources) as [st' sources'].
  destruct Hl as [Hl _]. cbn [fst snd]. rewrite Hl. vm_compute. reflexivity.
Defined.

(** X13: [_dedupe_commands] only removes entries from the [commands] of
    the groups it is given: no group gets a command it did not have or a
    different command under a name it keeps, the name, help, callback and
    parameters of every group stay as they were, and a group that no
    collection lists is not touched. *)
Theorem dedupe_commands_frame (st : store) (cli_collections : list CommandCollection) :
  let st' := (_dedupe_commands st cli_collections).1 in
  ∀ r,
    commands (st' r) ⊆ commands (st r)
    ∧ name (st' r) = name (st r) ∧ help (st' r) = help (st r)
    ∧ callback (st' r) = callback (st r) ∧ params (st' r) = params (st r)
    ∧ (r ∉ group_refs cli_collections → st' r = st r).
Proof.
  cbn zeta. intros r. cbn [_dedupe_commands fst]. rewrite dedupe_pass_flat.
  split; [apply dedupe_fold_shrink|].
  destruct (dedupe_fold_attrs (reverse (group_refs cli_collections)) st ∅ r)
    as (H1 & H2 & H3 & H4).
  repeat (split; [done|]).
  intros Hr. apply dedupe_fold_frame. by rewrite elem_of_reverse.
Qed.

(** ** Merging: every group ends up in one collection *)

Section partition_by_key.

Context {A K : Type} `{EqDecision K} (f : A → K).

Lemma filter_key_not_in (l : list A) k :
  k ∉ f <$> l → filter (fun x => f x = k) l = [].
Proof.
  induction l as [|x l IH]; [done|]. rewrite fmap_cons, not_elem_of_cons.
  intros [Hne Hk]. rewrite filter_cons, decide_False by done. by apply IH.
Qed.

(** Filing the elements under the distinct keys [ks] and chaining the
    files gives back the elements whose key is in [ks], in another order. *)
Lemma concat_filter_keys (l : list A) (ks : list K) :
  NoDup ks →
  (∀ x, x ∈ l → f x ∈ ks) →
  concat ((fun k => filter (fun x => f x = k) l) <$> ks) ≡ₚ l.
Proof.
  intros Hnd. induction l as [|x l IH]; intros Hcover.
  - clear. induction ks as [|k ks IH]; [done|]. by rewrite fmap_cons.
  - assert (f x ∈ ks) as Hin by (apply Hcover; left).
    apply list_elem_of_split in Hin as (ks1 & ks2 & ->).
    apply NoDup_app in Hnd as Hnd'. destruct Hnd' as (_ & Hdisj & Hnd2).
    apply list.NoDup_cons in Hnd2 as [Hk2 _].
    assert (f x ∉ ks1) as Hk1 by (intros ?; eapply Hdisj; [done|left]).
    assert (∀ ks' : list K, f x ∉ ks' →
              (fun k => filter (fun y => f y = k) (x :: l)) <$> ks'
              = (fun k => filter (fun y => f y = k) l) <$> ks') as Hother.
    { intros ks' Hks'. apply list_fmap_ext. intros _ k Hk%list_elem_of_lookup_2.
      rewrite filter_cons, decide_False; [done|]. by intros <-. }
    rewrite fmap_app, fmap_cons, concat_app. cbn [concat].
    rewrite !Hother by done. rewrite filter_cons, decide_True by done.
    rewrite <- app_comm_cons, <- Permutation_middle. constructor.
    etrans; [|apply IH; intros ? ?; apply Hcover; by right].
    rewrite fmap_app, fmap_cons, concat_app. reflexivity.
Qed.

Lemma first_seen_NoDup_id (l : list K) : NoDup l → first_seen l = l.
Proof.
  induction 1 as [|x l Hx Hl IH]; [reflexivity|]. cbn [first_seen]. rewrite IH.
  f_equal. apply filter_all. apply List.Forall_forall. intros y Hy%list_elem_of_In.
  by intros ->.
Qed.

Lemma filter_key_unique (l : list A) x :
  NoDup (f <$> l) → x ∈ l → filter (fun y => f y = f x) l = [x].
Proof.
  induction l as [|a l IH]; [by intros _ ?%elem_of_nil|].
  rewrite fmap_cons. intros [Ha Hnd]%list.NoDup_cons [->|Hin]%elem_of_cons.
  - rewrite filter_cons, decide_True by done. f_equal. by apply filter_key_not_in.
  - rewrite filter_cons, decide_False; [by apply IH|].
    intros Heq. apply Ha. rewrite Heq. by apply list_elem_of_fmap_2.
Qed.

End partition_by_key.

Lemma merge_group_refs (st : store) (groups : list gref) :
  group_refs (_merge_same_name_collections st groups) ≡ₚ groups.
Proof.
  destruct (merge_same_name_closed st groups) as [Hnames Hall]. cbn zeta in *.
  unfold group_refs.
  assert (cc_sources <$> _merge_same_name_collections st groups
          = (fun k => filter (fun r => name (st r) = k) groups)
              <$> first_seen ((fun r => name (st r)) <$> groups)) as ->.
  { rewrite <- Hnames, <- list_fmap_compose. apply list_fmap_ext.
    intros i c Hc%list_elem_of_lookup_2. rewrite List.Forall_forall in Hall.
    destruct (Hall c) as [-> _]; [by apply list_elem_of_In|]. reflexivity. }
  apply (concat_filter_keys (fun r => name (st r))); [apply first_seen_NoDup|].
  intros r Hr. apply first_seen_elem_of.
  by apply (list_elem_of_fmap_2 (fun r => name (st r))).
Qed.

Lemma merge_sources_nonempty (st : store) (groups : list gref) :
  Forall (fun c => cc_sources c ≠ []) (_merge_same_name_collections st groups).
Proof.
  destruct (merge_same_name_closed st groups) as [_ Hall]. cbn zeta in *.
  eapply List.Forall_impl; [|exact Hall].
  intros c (-> & _ & first & rest & -> & _). done.
Qed.

Lemma merge_nil_iff (st : store) (groups : list gref) :
  _merge_same_name_collections st groups = [] ↔ groups = [].
Proof.
  split; [|by intros ->].
  intros H. pose proof (merge_group_refs st groups) as Hp. rewrite H in Hp.
  by apply Permutation_nil_l in Hp.
Qed.

(** The head of the merged list is built around the first group. *)
Lemma merge_head (st : store) (g : gref) (groups : list gref) :
  ∃ c rest, _merge_same_name_collections st (g :: groups) = c :: rest
            ∧ cc_callback c = callback (st g) ∧ cc_params c = params (st g)
            ∧ cc_name c = name (st g).
Proof.
  destruct (merge_same_name_closed st (g :: groups)) as [Hnames Hall]. cbn zeta in *.
  rewrite fmap_cons in Hnames. cbn [first_seen] in Hnames.
  destruct (_merge_same_name_collections st (g :: groups)) as [|c rest]; [done|].
  rewrite fmap_cons in Hnames. injection Hnames as Hname _.
  inversion_clear Hall as [|? ? (Hsrc & _ & first & rest' & Hcons & Hcb & Hpar) _].
  exists c, rest. split; [done|].
  unfold constituents in Hcons. rewrite Hname, filter_cons, decide_True in Hcons by done.
  injection Hcons as <- _. done.
Qed.

(** ** Merging: groups with distinct names *)

Lemma merge_distinct (st : store) (groups : list gref) :
  NoDup ((fun r => name (st r)) <$> groups) →
  _merge_same_name_collections st groups = collection_of st <$> groups.
Proof.
  intros Hnd. destruct (merge_same_name_closed st groups) as [Hnames Hall].
  cbn zeta in *. rewrite first_seen_NoDup_id in Hnames by done.
  apply list_eq. intros i. rewrite list_lookup_fmap.
  pose proof (f_equal (fun l => l !! i) Hnames) as Hi. cbn beta in Hi.
  rewrite !list_lookup_fmap in Hi.
  destruct (_merge_same_name_collections st groups !! i) as [c|] eqn:Ec;
    destruct (groups !! i) as [r|] eqn:Er; cbn in *; try done.
  injection Hi as Hname. f_equal.
  rewrite List.Forall_forall in Hall.
  destruct (Hall c) as (Hsrc & Hhelp & first & rest & Hcons & Hcb & Hpar);
    [by eapply list_elem_of_In, list_elem_of_lookup_2|].
  unfold constituents in *. rewrite Hname in *.
  rewrite (filter_key_unique (fun r => name (st r)) groups r Hnd) in *
    by (by eapply list_elem_of_lookup_2).
  injection Hcons as <- <-.
  destruct c as [cn cs ch cc cp]. cbn in *. unfold collection_of. subst.
  f_equal. unfold helps_of. cbn. unfold truthy_help.
  destruct (help (st r)) as [h|]; [|reflexivity]. by destruct h.
Qed.

(** ** The router as [__init__] builds it *)

Lemma elem_of_concat {A : Type} (x : A) (ls : list (list A)) :
  x ∈ concat ls ↔ ∃ l, l ∈ ls ∧ x ∈ l.
Proof.
  rewrite list_elem_of_In, in_concat. split; intros (l & H1 & H2); exists l;
    by rewrite ?list_elem_of_In in *.
Qed.

Lemma concat_nil_iff {A : Type} (ls : list (list A)) :
  concat ls = [] ↔ Forall (fun l => l = []) ls.
Proof.
  induction ls as [|l ls IH]; cbn; [split; [constructor|done]|]. split.
  - intros [-> H]%app_eq_nil. constructor; [done|by apply IH].
  - inversion_clear 1; subst. by apply IH.
Qed.

Lemma regroup_fmap {A B : Type} (f : B → B) (gs : list (A * list B)) :
  regroup gs (f <$> concat gs.*2) = (fun g : A * list B => (g.1, f <$> g.2)) <$> gs.
Proof.
  induction gs as [|[t l] gs IH]; [reflexivity|].
  rewrite !fmap_cons. cbn [concat snd fst regroup]. rewrite fmap_app.
  rewrite <- (length_fmap f l) at 1 2.
  rewrite take_app_length, drop_app_length, IH. reflexivity.
Qed.

Lemma list_commands_of_collections (st : store) cs :
  list_commands_of st (SrcCollection <$> cs) = Ok (provided_names st cs).
Proof.
  induction cs as [|c cs IH]; [reflexivity|]. rewrite fmap_cons.
  cbn [list_commands_of source_list_commands]. by rewrite IH.
Qed.

Lemma collections_not_none (cs : list CommandCollection) : SrcNone ∉ SrcCollection <$> cs.
Proof. by intros (c & ? & _)%list_elem_of_fmap. Qed.

(** The merged collections of all titles, chained: [sources] before
    [_dedupe_commands]. *)
Lemma init_unfold (st : store) (groups : list (string * list gref)) eps :
  let merged := (fun g : string * list gref =>
                   (g.1, _merge_same_name_collections st g.2)) <$> groups in
  let st' := (dedupe_pass st (concat merged.*2)).1 in
  __init__ st groups eps
  = match remove_empty_groups st' <$> concat merged.*2 with
    | [] => Raise IndexError
    | first :: rest =>
        Ok (st',
            {| rt_groups := (fun g => (g.1, remove_empty_groups st' <$> g.2)) <$> merged;
               rt_cli := {| sources := SrcCollection <$> first :: rest;
                            lazy_groups := eps; loads := []; warnings := [] |};
               rt_help := py.join blank_line (helps_of st (group_refs (concat merged.*2)));
               rt_params := cc_params first;
               rt_callback := cc_callback first |})
    end.
Proof.
  cbn zeta. unfold __init__, _dedupe_commands. cbn zeta.
  rewrite regroup_fmap.
  by destruct (remove_empty_groups _ <$> concat _).
Qed.

Lemma merged_sources_nil (st : store) (groups : list (string * list gref)) :
  concat ((fun g : string * list gref =>
             (g.1, _merge_same_name_collections st g.2)) <$> groups).*2 = []
  ↔ Forall (fun g => g.2 = []) groups.
Proof.
  rewrite concat_nil_iff, <- list_fmap_compose, Forall_fmap.
  apply Forall_iff. intros [t l]. cbn. apply merge_nil_iff.
Qed.

Lemma merged_group_refs (st : store) (groups : list (string * list gref)) :
  group_refs (concat ((fun g : string * list gref =>
                         (g.1, _merge_same_name_collections st g.2)) <$> groups).*2)
  = concat ((fun g : string * list gref =>
               group_refs (_merge_same_name_collections st g.2)) <$> groups).
Proof.
  induction groups as [|[t l] groups IH]; [reflexivity|].
  rewrite !fmap_cons. cbn [concat fst snd]. unfold group_refs in *.
  by rewrite fmap_app, concat_app, IH.
Qed.

Lemma merged_order_Permutation (st : store) (groups : list (string * list gref)) :
  concat ((fun g : string * list gref =>
             group_refs (_merge_same_name_collections st g.2)) <$> groups)
  ≡ₚ concat groups.*2.
Proof.
  induction groups as [|[t l] groups IH]; [reflexivity|].
  rewrite !fmap_cons. cbn [concat fst snd]. by rewrite IH, merge_group_refs.
Qed.

Lemma merged_order_distinct (st : store) (groups : list (string * list gref)) :
  Forall (fun g => NoDup ((fun r => name (st r)) <$> g.2)) groups →
  concat ((fun g : string * list gref =>
             group_refs (_merge_same_name_collections st g.2)) <$> groups)
  = concat groups.*2.
Proof.
  induction 1 as [|[t l] groups Hl Hgs IH]; [reflexivity|].
  rewrite !fmap_cons. cbn [concat fst snd] in *. rewrite IH. f_equal.
  rewrite merge_distinct by done. unfold group_refs.
  clear. induction l as [|r l IHl]; [reflexivity|]. rewrite !fmap_cons. cbn.
  by rewrite IHl.
Qed.

Lemma remove_empty_sources_nil (st : store) c :
  cc_sources (remove_empty_groups st c) = []
  ↔ click.list_commands st (remove_empty_groups st c) = ∅.
Proof.
  rewrite list_commands_names_of. cbn [remove_empty_groups set_sources cc_sources].
  split; [by intros ->|]. intros Hempty.
  destruct (filter (has_commands st) (cc_sources c)) as [|r l] eqn:E; [done|]. exfalso.
  assert (r ∈ filter (has_commands st) (cc_sources c)) as Hr by (rewrite E; left).
  apply list_elem_of_filter in Hr as [Hne _]. apply Hne.
  apply map_empty. intros n. apply not_elem_of_dom. intros Hn.
  assert (n ∈ names_of st (r :: l)) as Hin by (apply elem_of_names_of; exists r; split; [left|done]).
  rewrite Hempty in Hin. set_solver.
Qed.

(** ** Merging: properties *)

(** X14: [_merge_same_name_collections] loses no group and repeats none:
    the sources of the collections it returns, chained, are the given
    groups in another order; no returned collection is without a source;
    and nothing is returned only when nothing was given. *)
Theorem merge_same_name_keeps_every_group (st : store) (groups : list gref) :
  group_refs (_merge_same_name_collections st groups) ≡ₚ groups
  ∧ Forall (fun c => cc_sources c ≠ []) (_merge_same_name_collections st groups)
  ∧ (_merge_same_name_collections st groups = [] ↔ groups = []).
Proof.
  split; [apply merge_group_refs|]. split; [apply merge_sources_nonempty|].
  apply merge_nil_iff.
Qed.

(** X15: on groups with pairwise distinct names
    [_merge_same_name_collections] merges nothing: it returns, in the given
    order, one collection per group, with that group as its only source and
    with the group's name, help (empty when the group has none), callback
    and parameters. *)
Theorem merge_same_name_distinct_names (st : store) (groups : list gref) :
  NoDup ((fun r => name (st r)) <$> groups) →
  _merge_same_name_collections st groups = collection_of st <$> groups.
Proof. apply merge_distinct. Qed.

Lemma merge_same_name_distinct_names_witness :
  NoDup ((fun r => name (sample_store r)) <$> [0; 1]%nat)
  ∧ _merge_same_name_collections sample_store [0; 1]%nat = sample_sources.
Proof.
  assert (NoDup ((fun r => name (sample_store r)) <$> [0; 1]%nat)) as H
    by (apply (bool_decide_unpack _); vm_compute; exact I).
  split; [exact H|].
  exact (merge_same_name_distinct_names sample_store [0; 1]%nat H).
Defined.

(** ** CommandCollection.__init__ *)

(** X16: [__init__] raises [IndexError] exactly when every titled list of
    groups it is given is empty (it reads [sources[0]] without a check);
    otherwise it builds the router. *)
Theorem init_raises_iff_no_group (st : store) (groups : list (string * list gref))
    (plugin_entry_points : list (string * EntryPoint)) :
  (__init__ st groups plugin_entry_points = Raise IndexError
   ↔ Forall (fun g => g.2 = []) groups)
  ∧ (¬ Forall (fun g => g.2 = []) groups →
     ∃ st' router, __init__ st groups plugin_entry_points = Ok (st', router)).
Proof.
  rewrite init_unfold. cbn zeta. rewrite <- (merged_sources_nil st).
  destruct (concat _) as [|c cs]; [split; [done|by intros []]|].
  rewrite fmap_cons. split; [split; done|]. intros _. eauto.
Qed.

(** X17: when some list holds a group, [__init__] succeeds, and the
    router takes its callback and its parameters from the first group of
    the first non-empty list; it keeps the given plugin entry points as its
    lazy groups with nothing loaded, none of its sources is [None], and its
    help is the truthy helps of all the given groups (those that end with no
    command included), in some order, joined by blank lines. *)
Theorem init_first_group (st : store) (groups : list (string * list gref))
    (plugin_entry_points : list (string * EntryPoint))
    (before : list (string * list gref)) (title : string) (g : gref) (rest : list gref)
    (after : list (string * list gref)) :
  groups = before ++ (title, g :: rest) :: after →
  Forall (fun e => e.2 = []) before →
  ∃ st' router,
    __init__ st groups plugin_entry_points = Ok (st', router)
    ∧ rt_callback router = callback (st g)
    ∧ rt_params router = params (st g)
    ∧ lazy_groups (rt_cli router) = plugin_entry_points
    ∧ loads (rt_cli router) = []
    ∧ SrcNone ∉ sources (rt_cli router)
    ∧ ∃ texts, rt_help router = py.join blank_line texts
               ∧ texts ≡ₚ helps_of st (concat groups.*2).
Proof.
  intros Hgroups Hbefore. rewrite init_unfold. cbn zeta.
  set (merged := (fun g : string * list gref =>
                    (g.1, _merge_same_name_collections st g.2)) <$> groups).
  destruct (merge_head st g rest) as (c & cs & Hc & Hcb & Hpar & _).
  assert (∃ more, concat merged.*2 = c :: more) as [more Hmore].
  { unfold merged. rewrite Hgroups, !fmap_app, concat_app, !fmap_cons.
    cbn [concat fst snd]. rewrite Hc.
    assert (concat ((fun g : string * list gref =>
                       (g.1, _merge_same_name_collections st g.2)) <$> before).*2 = [])
      as -> by (by apply merged_sources_nil).
    cbn. eauto. }
  rewrite Hmore, fmap_cons. eexists. eexists. split; [reflexivity|].
  cbn [rt_callback rt_params rt_cli rt_help lazy_groups loads sources].
  repeat (split; [done|]).
  split; [rewrite <- fmap_cons; apply collections_not_none|].
  eexists. split; [reflexivity|]. rewrite <- Hmore. unfold merged.
  rewrite merged_group_refs. unfold helps_of.
  by rewrite merged_order_Permutation.
Qed.

Lemma init_first_group_witness :
  [("Commands", [0; 1; 2]%nat)] = [] ++ ("Commands", 0%nat :: [1; 2]%nat) :: []
  ∧ ∃ st' router,
      __init__ clustered_store [("Commands", [0; 1; 2]%nat)] [] = Ok (st', router)
      ∧ rt_callback router = Some 7%nat
      ∧ rt_params router = [ {| param_name := "env" |} ].
Proof.
  split; [reflexivity|].
  destruct (init_first_group clustered_store [("Commands", [0; 1; 2]%nat)] []
              [] "Commands" 0%nat [1; 2]%nat [] eq_refl (List.Forall_nil _))
    as (st' & router & Hrun & Hcb & Hpar & _).
  exists st', router. split; [exact Hrun|]. split; [exact Hcb|exact Hpar].
Defined.

(** X18: a router built by [__init__] from groups that are distinct
    objects lists exactly the command names that the given groups hold, and
    resolves each name as if the groups were consulted from the last one to
    the first in the order of the merged collections: per title, the groups
    clustered by name at the first occurrence of the name.  That order is
    the given one when the names within each list are distinct; otherwise a
    group can lose to one that was given before it. *)
Theorem init_router_commands (st : store) (groups : list (string * list gref))
    (plugin_entry_points : list (string * EntryPoint)) (st' : store)
    (router : Router) :
  __init__ st groups plugin_entry_points = Ok (st', router) →
  NoDup (concat groups.*2) →
  let order := concat ((fun g : string * list gref =>
                          group_refs (_merge_same_name_collections st g.2)) <$> groups) in
  order ≡ₚ concat groups.*2
  ∧ (Forall (fun g => NoDup ((fun r => name (st r)) <$> g.2)) groups →
     order = concat groups.*2)
  ∧ list_commands_of st' (sources (rt_cli router)) = Ok (names_of st (concat groups.*2))
  ∧ ∃ sources',
      sources (rt_cli router) = SrcCollection <$> sources'
      ∧ ∀ n, resolve st' sources' n = click.first_command st (reverse order) n.
Proof.
  intros Hinit Hnd order.
  pose proof (merged_order_Permutation st groups) as Hperm. fold order in Hperm.
  split; [exact Hperm|]. split; [apply merged_order_distinct|].
  rewrite init_unfold in Hinit. cbn zeta in Hinit.
  set (merged := (fun g : string * list gref =>
                    (g.1, _merge_same_name_collections st g.2)) <$> groups) in *.
  assert (group_refs (concat merged.*2) = order) as Horder by apply merged_group_refs.
  assert (NoDup (group_refs (concat merged.*2))) as Hnd'
    by (by rewrite Horder, Hperm).
  pose proof (dedupe_lookup_reverse st (concat merged.*2) Hnd') as Hlast.
  unfold _dedupe_commands in Hlast. cbn zeta in Hlast. destruct Hlast as [Hres Hnames].
  destruct (remove_empty_groups _ <$> concat merged.*2) as [|first more] eqn:E;
    [done|].
  injection Hinit as <- <-. cbn [rt_cli sources]. split.
  - etrans; [apply (list_commands_of_collections _ (first :: more))|].
    rewrite Hnames, provided_names_refs, Horder.
    f_equal. apply set_eq. intros n. rewrite !elem_of_names_of.
    split; intros (r & Hr & Hn); exists r; split; try done.
    + by rewrite <- Hperm.
    + by rewrite Hperm.
  - exists (first :: more). split; [done|]. intros n. by rewrite Hres, Horder.
Qed.

Lemma clustered_router_built :
  ∃ st' router, __init__ clustered_store [("Commands", [0; 1; 2]%nat)] [] = Ok (st', router).
Proof. eexists. eexists. vm_compute. reflexivity. Qed.

Lemma init_router_commands_witness :
  ∃ st' router,
    __init__ clustered_store [("Commands", [0; 1; 2]%nat)] [] = Ok (st', router)
    ∧ NoDup (concat [("Commands", [0; 1; 2]%nat)].*2)
    ∧ ∃ sources',
        sources (rt_cli router) = SrcCollection <$> sources'
        ∧ resolve st' sources' "run" = Some (CommandObj 2).
Proof.
  destruct clustered_router_built as (st' & router & Hrun).
  assert (NoDup (concat [("Commands", [0; 1; 2]%nat)].*2)) as Hnd
    by (apply (bool_decide_unpack _); vm_compute; exact I).
  exists st', router. split; [exact Hrun|]. split; [exact Hnd|].
  destruct (init_router_commands clustered_store _ [] st' router Hrun Hnd)
    as (_ & _ & _ & sources' & Hsrc & Hres).
  exists sources'. split; [exact Hsrc|]. rewrite Hres. vm_compute. reflexivity.
Defined.

(** ** CommandCollection.format_commands *)

Lemma format_commands_calls (gs : list (string * list CommandCollection)) call :
  call ∈ format_commands gs ↔
  ∃ title cs c, (title, cs) ∈ gs ∧ c ∈ cs ∧ cc_sources c ≠ []
                ∧ (call = write_styled (heading title c) "green"
                   ∨ call = group_format_commands c).
Proof.
  unfold format_commands. rewrite elem_of_concat. split.
  - intros (l & ([title cs] & -> & Hin)%list_elem_of_fmap & Hcall).
    cbn [fst snd] in Hcall. apply elem_of_concat in Hcall as (l' & Hl' & Hcall).
    apply list_elem_of_fmap in Hl' as (c & -> & Hc).
    exists title, cs, c. split; [done|]. split; [done|].
    destruct (cc_sources c) as [|r rs]; [by apply elem_of_nil in Hcall|].
    split; [done|].
    apply elem_of_cons in Hcall as [->|Hcall]; [by left|].
    apply list_elem_of_singleton in Hcall as ->. by right.
  - intros (title & cs & c & Hin & Hc & Hne & Hcall).
    eexists. split; [apply list_elem_of_fmap; exists (title, cs); split; [reflexivity|done]|].
    cbn [fst snd]. apply elem_of_concat. eexists.
    split; [apply list_elem_of_fmap; exists c; split; [reflexivity|done]|].
    destruct (cc_sources c) as [|r rs]; [done|].
    destruct Hcall as [->| ->]; [left|right; left].
Qed.

(** X19: in the help of a router built by [__init__], [format_commands]
    goes through the collections as [_dedupe_commands] left them: a
    collection gets its green heading and formats its commands exactly when
    it still lists a command, so a collection whose commands were all taken
    over by later groups is not shown; and every command the router lists is
    listed by a collection that is shown. *)
Theorem format_commands_shows_surviving_collections (st : store)
    (groups : list (string * list gref)) (plugin_entry_points : list (string * EntryPoint))
    (st' : store) (router : Router) :
  __init__ st groups plugin_entry_points = Ok (st', router) →
  rt_groups router
  = (fun g : string * list gref =>
       (g.1, remove_empty_groups st' <$> _merge_same_name_collections st g.2)) <$> groups
  ∧ (∀ call, call ∈ format_commands (rt_groups router) ↔
       ∃ title cs c, (title, cs) ∈ rt_groups router ∧ c ∈ cs
                     ∧ click.list_commands st' c ≠ ∅
                     ∧ (call = write_styled (heading title c) "green"
                        ∨ call = group_format_commands c))
  ∧ (∀ n, n ∈ listed st' (sources (rt_cli router)) →
       ∃ c, group_format_commands c ∈ format_commands (rt_groups router)
            ∧ n ∈ click.list_commands st' c).
Proof.
  intros Hinit. rewrite init_unfold in Hinit. cbn zeta in Hinit.
  set (merged := (fun g : string * list gref =>
                    (g.1, _merge_same_name_collections st g.2)) <$> groups) in *.
  set (st1 := (dedupe_pass st (concat merged.*2)).1) in *.
  destruct (remove_empty_groups st1 <$> concat merged.*2) as [|first more] eqn:E;
    [done|].
  injection Hinit as <- <-. cbn [rt_groups rt_cli sources].
  assert (∀ title cs c,
            (title, cs) ∈ (fun g : string * list CommandCollection =>
                             (g.1, remove_empty_groups st1 <$> g.2)) <$> merged →
            c ∈ cs → (cc_sources c ≠ [] ↔ click.list_commands st1 c ≠ ∅)) as Hshown.
  { intros title cs c ([t l] & [= -> ->] & _)%list_elem_of_fmap
                       (c0 & -> & _)%list_elem_of_fmap.
    by rewrite remove_empty_sources_nil. }
  split; [|split].
  - unfold merged. rewrite <- list_fmap_compose. reflexivity.
  - intros call. rewrite format_commands_calls.
    split; intros (title & cs & c & Hin & Hc & Hne & Hcall); exists title, cs, c;
      (split; [done|]); (split; [done|]); (split; [|done]);
      by apply (Hshown title cs c).
  - intros n Hn. change (n ∈ listed st1 (SrcCollection <$> first :: more)) in Hn.
    unfold listed in Hn. rewrite <- E in Hn.
    rewrite list_commands_of_collections in Hn.
    unfold provided_names in Hn. apply elem_of_union_list in Hn as (X & HX & Hn).
    apply list_elem_of_fmap in HX as (c & -> & Hc).
    exists c. split; [|done]. apply format_commands_calls.
    apply list_elem_of_fmap in Hc as (c0 & -> & Hc0).
    apply elem_of_concat in Hc0 as (l & Hl & Hc0).
    apply list_elem_of_fmap in Hl as ([t l0] & -> & Hl).
    apply list_elem_of_fmap in Hl as ([t' l'] & [= -> ->] & Hl).
    exists t', (remove_empty_groups st1 <$> _merge_same_name_collections st l'),
           (remove_empty_groups st1 c0).
    split; [apply list_elem_of_fmap; eexists; split; [|apply list_elem_of_fmap_2, Hl];
            reflexivity|].
    split; [by apply list_elem_of_fmap_2|].
    split; [|by right]. intros Hnil. apply remove_empty_sources_nil in Hnil.
    rewrite Hnil in Hn. set_solver.
Qed.

Lemma format_commands_shows_surviving_collections_witness :
  ∃ st' router,
    __init__ clustered_store [("Commands", [0; 1; 2]%nat)] [] = Ok (st', router)
    ∧ format_commands (rt_groups router)
      = [write_styled (LF ++ "Commands from b") "green";
         group_format_commands
           {| cc_name := Some "b"; cc_sources := [1%nat]; cc_help := "";
              cc_callback := None; cc_params := [] |}].
Proof.
  destruct clustered_router_built as (st' & router & Hrun).
  exists st', router. split; [exact Hrun|].
  destruct (format_commands_shows_surviving_collections clustered_store _ [] st' router Hrun)
    as (-> & _).
  assert (Hst := Hrun). vm_compute in Hst. injection Hst as <- _.
  vm_compute. reflexivity.
Defined.

(** ** CommandCollection.resolve_command *)

Lemma sorted_names_elem_of (names : gset string) m : m ∈ sorted_names names ↔ m ∈ names.
Proof. unfold sorted_names. rewrite merge_sort_Permutation. apply elem_of_elements. Qed.

(** X20: [resolve_command] returns what click's [resolve_command]
    returns and lets through what it raises, except for a [UsageError]:
    that one is raised again with the answer of [_suggest_cli_command], for
    the first argument among the listed commands, added to its message.  The
    suggested names are listed commands; with no close name the message is
    unchanged.  When a source of the router is [None] the listing inside the
    handler raises [AttributeError], which replaces the usage error. *)
Theorem resolve_command_spec {A : Type} (super_resolve_command : list string → resolution A)
    (st : store) (args : list string) (s : cli) :
  (∀ a, super_resolve_command args = Resolved a →
        resolve_command super_resolve_command st args s = Resolved a)
  ∧ (∀ e, super_resolve_command args = Raised e →
          resolve_command super_resolve_command st args s = Raised e)
  ∧ (∀ message, super_resolve_command args = UsageError message →
       match args with
       | [] => resolve_command super_resolve_command st args s = Raised IndexError
       | original_command_name :: _ =>
           (SrcNone ∈ sources s →
            resolve_command super_resolve_command st args s = Raised AttributeError)
           ∧ (SrcNone ∉ sources s →
              ∃ matches suggestion,
                difflib.get_close_matches original_command_name
                  (sorted_names (listed st (sources s))) MAX_SUGGESTIONS CUTOFF
                = Ok matches
                ∧ (∀ m, m ∈ matches → m ∈ listed st (sources s))
                ∧ _suggest_cli_command original_command_name
                    (sorted_names (listed st (sources s))) = Ok suggestion
                ∧ (matches = [] → suggestion = "")
                ∧ resolve_command super_resolve_command st args s
                  = UsageError (message ++ suggestion))
       end).
Proof.
  unfold resolve_command. split; [by intros a ->|]. split; [by intros e ->|].
  intros message ->. destruct args as [|arg0 rest]; [done|]. split.
  - intros Hnone. by rewrite list_commands_of_none.
  - intros Hnone. rewrite list_commands_of_ok by done.
    destruct (suggest_total arg0 (sorted_names (listed st (sources s))))
      as (matches & suggestion & Hget & Hin & Hs).
    exists matches, suggestion. split; [done|]. split.
    { intros m Hm. by apply sorted_names_elem_of, Hin. }
    split; [done|]. split; [|by rewrite Hs].
    intros ->. rewrite (suggest_unfold _ _ _ Hget) in Hs. by injection Hs as <-.
Qed.

Lemma resolve_command_spec_witness :
  resolve_command (A := unit) (fun _ => UsageError "No such command 'inf'.")
    sample_store ["inf"] viz_cli
  = UsageError ("No such command 'inf'." ++ LF ++ LF ++ "Did you mean this?    info").
Proof.
  destruct (resolve_command_spec (A := unit) (fun _ => UsageError "No such command 'inf'.")
              sample_store ["inf"] viz_cli) as (_ & _ & H).
  destruct (H _ eq_refl) as [_ H2].
  destruct H2 as (matches & suggestion & _ & _ & Hs & _ & ->).
  { simpl. intros [[=]|[]%elem_of_nil]%elem_of_cons. }
  vm_compute in Hs. injection Hs as <-. reflexivity.
Defined.

(** ** load_entry_points *)

Lemma load_warning_escaping env ep e : escaping env ep = Some e → load_warning env ep = None.
Proof.
  unfold escaping, load_warning.
  destruct (env ep); [done| |done]. by destruct (ep_module ep).
Qed.

Lemma after_load_warnings env ep s :
  warnings (after_load env ep s) = warnings s ++ option_list (load_warning env ep).
Proof.
  unfold after_load, load_warning. cbn [warnings].
  destruct (env ep); [done| |done]. by destruct (ep_module ep).
Qed.

(** One call of the loader that comes back. *)
Lemma safe_load_entry_point_returns env ep s :
  escaping env ep = None →
  _safe_load_entry_point env ep s
  = (Ok (loaded_group env ep),
     {| sources := sources s; lazy_groups := lazy_groups s;
        loads := loads s ++ [ep];
        warnings := warnings s ++ option_list (load_warning env ep) |}).
Proof.
  unfold escaping, _safe_load_entry_point, loaded_group, load_warning.
  destruct (env ep); [by rewrite app_nil_r| |done].
  destruct (ep_module ep); [done|done].
Qed.

(** One call of the loader that an exception leaves. *)
Lemma safe_load_entry_point_escapes env ep e s :
  escaping env ep = Some e →
  _safe_load_entry_point env ep s = (Raise e, after_abort ep s).
Proof.
  unfold escaping, _safe_load_entry_point, after_abort.
  destruct (env ep); [done| |by intros [= <-]].
  destruct (ep_module ep); [done|by intros [= <-]].
Qed.

Lemma omap_cons_option_list {A B : Type} (f : A → option B) x l :
  omap f (x :: l) = option_list (f x) ++ omap f l.
Proof. cbn. by destruct (f x). Qed.

Lemma load_entry_points_run env eps : ∀ s,
  Forall (fun ep => escaping env ep = None) eps →
  load_entry_points env eps s
  = (Ok (omap (loaded_group env) eps),
     {| sources := sources s; lazy_groups := lazy_groups s;
        loads := loads s ++ eps;
        warnings := warnings s ++ omap (load_warning env) eps |}).
Proof.
  induction eps as [|ep eps IH]; intros s Hok.
  - cbn. rewrite !app_nil_r. by destruct s.
  - inversion_clear Hok as [|? ? Hep Heps].
    cbn [load_entry_points]. rewrite bind_unfold, (safe_load_entry_point_returns _ _ _ Hep).
    rewrite bind_unfold, IH by done. cbn [sources lazy_groups loads warnings ret].
    rewrite (omap_cons_option_list (load_warning env)), <- !app_assoc.
    cbn [omap list_omap]. by destruct (loaded_group env ep).
Qed.

Lemma load_entry_points_escape env before ep after e : ∀ s,
  Forall (fun ep => escaping env ep = None) before →
  escaping env ep = Some e →
  load_entry_points env (before ++ ep :: after) s
  = (Raise e,
     {| sources := sources s; lazy_groups := lazy_groups s;
        loads := loads s ++ before ++ [ep];
        warnings := warnings s ++ omap (load_warning env) before |}).
Proof.
  induction before as [|ep0 before IH]; intros s Hok Hep.
  - cbn [app load_entry_points]. rewrite bind_unfold, (safe_load_entry_point_escapes _ _ _ _ Hep).
    cbn. by rewrite app_nil_r.
  - inversion_clear Hok as [|? ? Hep0 Hbefore].
    cbn [app load_entry_points].
    rewrite bind_unfold, (safe_load_entry_point_returns _ _ _ Hep0).
    rewrite bind_unfold, IH by done. cbn [sources lazy_groups loads warnings].
    by rewrite (omap_cons_option_list (load_warning env)), <- !app_assoc.
Qed.

(** X21: [load_entry_points] skips an entry point that fails to load
    with an [Exception], as long as the entry point's [module] can be read
    for the warning.  When every load returns or fails in that way, it
    returns, in order, the groups of the entry points that loaded, logs one
    warning for each one that failed, in order, has called the loader once
    on every entry point and leaves the sources alone.  An exception does
    leave it in two cases: a load raises something that is not an
    [Exception], or a load raises an [Exception] and reading [module] in
    the handler raises as well (an entry point whose value does not parse).
    The loop then ends at that entry point, with what the handler or the
    load raised; the later entry points are not loaded and no list is
    returned. *)
Theorem load_entry_points_spec (env : EntryPoint → load_outcome) (eps : list EntryPoint)
    (s : cli) :
  (Forall (fun ep => (∃ plugin, env ep = Loaded plugin)
                     ∨ (∃ exc module, env ep = LoadError exc ∧ ep_module ep = Ok module))
          eps →
   load_entry_points env eps s
   = (Ok (omap (loaded_group env) eps),
      {| sources := sources s; lazy_groups := lazy_groups s;
         loads := loads s ++ eps;
         warnings := warnings s ++ omap (load_warning env) eps |}))
  ∧ (∀ before ep after e,
       eps = before ++ ep :: after →
       Forall (fun ep => (∃ plugin, env ep = Loaded plugin)
                         ∨ (∃ exc module, env ep = LoadError exc ∧ ep_module ep = Ok module))
              before →
       (∃ what, env ep = LoadAbort what ∧ e = BaseException what)
       ∨ (∃ exc, env ep = LoadError exc ∧ ep_module ep = Raise e) →
       load_entry_points env eps s
       = (Raise e,
          {| sources := sources s; lazy_groups := lazy_groups s;
             loads := loads s ++ before ++ [ep];
             warnings := warnings s ++ omap (load_warning env) before |})).
Proof.
  assert (∀ l, Forall (fun ep => (∃ plugin, env ep = Loaded plugin)
                                 ∨ (∃ exc module, env ep = LoadError exc
                                                  ∧ ep_module ep = Ok module)) l
               → Forall (fun ep => escaping env ep = None) l) as Hback.
  { intros l Hl. eapply Forall_impl; [exact Hl|].
    intros ep [[plugin H]|(exc & module & H & Hm)].
    - by eapply escaping_loaded.
    - by eapply escaping_logged. }
  split; [intros Hok; by apply load_entry_points_run, Hback|].
  intros before ep after e -> Hbefore Hep. apply load_entry_points_escape; [by apply Hback|].
  destruct Hep as [(what & H & ->)|(exc & H & Hm)].
  - unfold escaping. by rewrite H.
  - by eapply escaping_handler.
Qed.

Lemma load_entry_points_spec_witness :
  load_entry_points half_broken_env [viz_ep; docker_ep] (fresh_cli [])
  = (Ok [0%nat],
     {| sources := []; lazy_groups := [];
        loads := [viz_ep; docker_ep];
        warnings := [ {| warn_module := "kedro_viz.launchers.cli";
                         warn_entry_point := viz_ep;
                         warn_exc := "No module named kedro_viz" |} ] |})
  ∧ load_entry_points malformed_env [viz_ep; malformed_ep; docker_ep] (fresh_cli [])
    = (Raise AttributeError,
       {| sources := []; lazy_groups := [];
          loads := [viz_ep; malformed_ep];
          warnings := [ {| warn_module := "kedro_viz.launchers.cli";
                           warn_entry_point := viz_ep;
                           warn_exc := "No module named kedro_viz" |} ] |}).
Proof.
  split.
  - destruct (load_entry_points_spec half_broken_env [viz_ep; docker_ep] (fresh_cli []))
      as [H _].
    rewrite H; [reflexivity|].
    constructor; [right|constructor; [left|constructor]].
    + exists "No module named kedro_viz", "kedro_viz.launchers.cli". by split.
    + by exists 0%nat.
  - destruct (load_entry_points_spec malformed_env [viz_ep; malformed_ep; docker_ep]
                (fresh_cli [])) as [_ H].
    rewrite (H [viz_ep] malformed_ep [docker_ep] AttributeError); [reflexivity|reflexivity| |].
    + constructor; [right|constructor].
      exists "No module named kedro_viz", "kedro_viz.launchers.cli". by split.
    + right. exists "'NoneType' object has no attribute 'group'". by split.
Defined.

(** ** _partial_match *)

Lemma prefix_inv (x s : string) : String.prefix x s = true → ∃ t, s = (x ++ t)%string.
Proof.
  revert s. induction x as [|c x IH]; intros s; [by exists s|].
  destruct s as [|a s]; cbn; [done|]. destruct (ascii_dec c a) as [->|]; [|done].
  intros (t & ->)%IH. by exists t.
Qed.

Lemma contains_substring (x s : string) : py.contains x s = true ↔ substring_of x s.
Proof.
  split.
  - induction s as [|a s IH]; cbn [py.contains].
    + rewrite orb_false_r. intros (t & ->)%prefix_inv. by exists "", t.
    + intros [(t & ->)%prefix_inv|(b & t & ->)%IH]%orb_prop; [by exists "", t|].
      by exists (String a b), t.
  - intros (b & t & ->). apply contains_app.
Qed.

(** X22: [_partial_match] returns the first plugin name, in the order
    given, in which the command name occurs as a substring, and [None]
    exactly when it occurs in none; the empty command name occurs in every
    name, so it selects the first plugin. *)
Theorem partial_match_spec (plugin_names : list string) (command_name : string) :
  (∀ n, _partial_match plugin_names command_name = Some n ↔
        ∃ before after,
          plugin_names = before ++ n :: after
          ∧ substring_of command_name n
          ∧ ∀ m, m ∈ before → ¬ substring_of command_name m)
  ∧ (_partial_match plugin_names command_name = None ↔
     ∀ m, m ∈ plugin_names → ¬ substring_of command_name m)
  ∧ _partial_match plugin_names "" = head plugin_names.
Proof.
  split; [|split].
  - intros n. rewrite partial_match_first. split;
      intros (before & after & -> & Hn & Hb); exists before, after;
      (split; [done|]); rewrite <- ?contains_substring in *;
      (split; [done|]); intros m Hm; specialize (Hb m Hm);
      rewrite <- ?contains_substring in *; by destruct (py.contains command_name m).
  - induction plugin_names as [|p ps IH]; cbn [_partial_match].
    + split; [by intros _ m ?%elem_of_nil|done].
    + destruct (py.contains command_name p) eqn:E.
      * split; [done|]. intros Hall. exfalso. apply (Hall p); [left|].
        by apply contains_substring.
      * rewrite IH. split.
        -- intros Hall m [->|Hm]%elem_of_cons; [|by apply Hall].
           rewrite <- contains_substring. by rewrite E.
        -- intros Hall m Hm. apply Hall. by right.
  - destruct plugin_names as [|p ps]; [reflexivity|]. cbn.
    by destruct p.
Qed.

(** ** _load_plugins: what it adds *)

Lemma added_source_returns env ep :
  escaping env ep = None → added_source env ep = Some (plugin_source env ep).
Proof. intros E. unfold added_source. by rewrite E. Qed.

Lemma added_source_escapes env ep e : escaping env ep = Some e → added_source env ep = None.
Proof. intros E. unfold added_source. by rewrite E. Qed.

Lemma load_all_plugins_appends env (st : store) command_name eps : ∀ s,
  ∃ new,
    let r := load_all_plugins env st command_name eps s in
    loads r.2 = loads s ++ new
    ∧ sources r.2 = sources s ++ omap (added_source env) new
    ∧ warnings r.2 = warnings s ++ omap (load_warning env) new
    ∧ lazy_groups r.2 = lazy_groups s
    ∧ (∀ ep e, ep ∈ new → escaping env ep = Some e → r.1 = Raise e).
Proof.
  induction eps as [|ep rest IH]; intros s.
  - exists []. cbn. rewrite !app_nil_r. repeat split. by intros ? ? ?%elem_of_nil.
  - rewrite load_all_plugins_cons.
    destruct (list_commands_of st (sources s)) as [names|e0];
      [|exists []; cbn; rewrite !app_nil_r; repeat split; by intros ? ? ?%elem_of_nil].
    destruct (bool_decide (command_name ∈ names));
      [exists []; cbn; rewrite !app_nil_r; repeat split; by intros ? ? ?%elem_of_nil|].
    destruct (IH (after_load env ep s)) as (new & Hl & Hs & Hw & Hg & He). cbn zeta in *.
    rewrite after_load_warnings in Hw.
    cbn [after_load sources loads lazy_groups] in Hl, Hs, Hg.
    destruct (escaping env ep) as [e|] eqn:E.
    + exists [ep]. cbn [omap list_omap].
      rewrite (added_source_escapes _ _ _ E), (load_warning_escaping _ _ _ E).
      cbn. rewrite !app_nil_r.
      repeat split. intros ep' e' ->%list_elem_of_singleton. rewrite E. by intros [= ->].
    + exists (ep :: new). rewrite Hl, Hs, Hw, Hg.
      rewrite (omap_cons_option_list (load_warning env)),
        (omap_cons_option_list (added_source env)).
      rewrite (added_source_returns _ _ E). cbn [option_list app].
      rewrite <- !app_assoc. repeat split.
      intros ep' e' [->|Hin]%elem_of_cons; [by rewrite E|by apply He].
Qed.

Lemma load_partial_match_appends env (st : store) command_name s :
  ∃ new,
    let r := load_partial_match env st command_name s in
    loads r.2 = loads s ++ new
    ∧ sources r.2 = sources s ++ omap (added_source env) new
    ∧ warnings r.2 = warnings s ++ omap (load_warning env) new
    ∧ lazy_groups r.2 = lazy_groups s
    ∧ (∀ ep e, ep ∈ new → escaping env ep = Some e → r.1 = Raise e).
Proof.
  rewrite load_partial_match_unfold.
  destruct (partial_match_load (lazy_groups s) command_name) as [|ep l];
    [exists []; cbn; rewrite !app_nil_r; repeat split; by intros ? ? ?%elem_of_nil|].
  exists [ep]. cbn zeta. rewrite (omap_cons_option_list (load_warning env)),
    (omap_cons_option_list (added_source env)). cbn [omap list_omap]. rewrite !app_nil_r.
  destruct (escaping env ep) as [e|] eqn:E.
  - rewrite (added_source_escapes _ _ _ E), (load_warning_escaping _ _ _ E).
    cbn. rewrite !app_nil_r. repeat split.
    intros ep' e' ->%list_elem_of_singleton. rewrite E. by intros [= ->].
  - rewrite (added_source_returns _ _ E).
    pose proof (after_load_warnings env ep s) as Hw.
    destruct (list_commands_of st (sources (after_load env ep s))); cbn [fst snd];
      rewrite Hw; cbn [after_load sources loads lazy_groups option_list];
      repeat split; intros ep' e' ->%list_elem_of_singleton; by rewrite E.
Qed.

Lemma load_plugins_appends (env : EntryPoint → load_outcome) (st : store)
    (command_name : string) (s : cli) :
  ∃ new,
    let r := _load_plugins env st command_name s in
    loads r.2 = loads s ++ new
    ∧ sources r.2 = sources s ++ omap (added_source env) new
    ∧ warnings r.2 = warnings s ++ omap (load_warning env) new
    ∧ lazy_groups r.2 = lazy_groups s
    ∧ (∀ ep e, ep ∈ new → escaping env ep = Some e → r.1 = Raise e).
Proof.
  unfold _load_plugins. rewrite bind_unfold.
  destruct (load_partial_match_appends env st command_name s)
    as (new1 & Hl & Hs & Hw & Hg & He).
  cbn zeta in *.
  destruct (load_partial_match env st command_name s) as [[returned|e] s1];
    cbn [fst snd] in *;
    [|exists new1; repeat split; try done;
      intros ep e0 Hin E; by injection (He ep e0 Hin E) as ->].
  assert (∀ ep, ep ∈ new1 → escaping env ep = None) as Hnone1.
  { intros ep Hin. destruct (escaping env ep) as [e|] eqn:E; [|done].
    by specialize (He ep e Hin E). }
  destruct returned.
  { exists new1. repeat split; try done. intros ep e Hin E. by rewrite Hnone1 in E. }
  destruct (load_all_plugins_appends env st command_name (lazy_groups s1).*2 s1)
    as (new2 & Hl2 & Hs2 & Hw2 & Hg2 & He2). cbn zeta in *.
  exists (new1 ++ new2). rewrite Hl2, Hs2, Hw2, Hg2, Hl, Hs, Hw, Hg.
  rewrite !omap_app, <- !app_assoc. repeat split.
  intros ep e [Hin|Hin]%elem_of_app E; [by rewrite Hnone1 in E|].
  rewrite <- Hg. by eapply He2.
Qed.

(** X23: [_load_plugins] only appends to the router's sources, whatever
    the loads do: after it the sources are the old ones followed by one
    source for every call of the loader that came back, in loading order:
    the plugin's group, or [None] for a load whose [Exception] the loader
    caught and logged.  One warning was logged for every such [None], and
    the lazy groups are unchanged.  A call of the loader that an exception
    leaves (a load that raises something that is not an [Exception], or a
    failed load of an entry point whose [module] cannot be read) adds no
    source and no warning.  No source is removed, replaced or reordered. *)
Theorem load_plugins_appends_sources (env : EntryPoint → load_outcome) (st : store)
    (command_name : string) (s : cli) :
  ∃ new,
    let s' := (_load_plugins env st command_name s).2 in
    loads s' = loads s ++ new
    ∧ sources s' = sources s ++ omap (added_source env) new
    ∧ warnings s' = warnings s ++ omap (load_warning env) new
    ∧ lazy_groups s' = lazy_groups s
    ∧ (∀ ep, added_source env ep
             = match env ep, ep_module ep with
               | Loaded plugin, _ => Some (SrcGroup plugin)
               | LoadError _, Ok _ => Some SrcNone
               | LoadError _, Raise _ => None
               | LoadAbort _, _ => None
               end)
    ∧ (∀ ep, load_warning env ep
             = match env ep, ep_module ep with
               | LoadError exc, Ok module =>
                   Some {| warn_module := module; warn_entry_point := ep; warn_exc := exc |}
               | _, _ => None
               end).
Proof.
  destruct (load_plugins_appends env st command_name s) as (new & Hl & Hs & Hw & Hg & _).
  exists new. cbn zeta in *. repeat split; try done.
  intros ep. unfold added_source, escaping, plugin_source.
  destruct (env ep); [done| |done]. by destruct (ep_module ep).
Qed.

(** X24: a load that fails and is logged inside [_load_plugins] leaves
    the router unusable, whichever entry point it was and whatever else was
    loaded.  Let the loader have been called on an entry point whose load
    raises an [Exception].  When the entry point's [module] can be read,
    the loader logs the warning and returns [None]: the sources afterwards
    hold a [None], and listing the commands raises [AttributeError] from
    then on.  When reading [module] raises, what it raises ends
    [_load_plugins] instead. *)
Theorem failed_load_poisons_router (env : EntryPoint → load_outcome) (st : store)
    (command_name : string) (s : cli) (ep : EntryPoint) (exc : string) :
  let s' := (_load_plugins env st command_name s).2 in
  (∃ i, (length (loads s) ≤ i)%nat ∧ loads s' !! i = Some ep) →
  env ep = LoadError exc →
  (∀ module, ep_module ep = Ok module →
     SrcNone ∈ sources s'
     ∧ {| warn_module := module; warn_entry_point := ep; warn_exc := exc |} ∈ warnings s'
     ∧ list_commands st s' = (Raise AttributeError, s'))
  ∧ (∀ e, ep_module ep = Raise e →
       (_load_plugins env st command_name s).1 = Raise e).
Proof.
  cbn zeta. intros (i & Hi & Hep) Hload.
  destruct (load_plugins_appends env st command_name s) as (new & Hl & Hs & Hw & _ & He).
  cbn zeta in *. rewrite Hl in Hep. rewrite lookup_app_r in Hep by done.
  apply list_elem_of_lookup_2 in Hep. split.
  - intros module Hm.
    assert (SrcNone ∈ sources (_load_plugins env st command_name s).2) as Hnone.
    { rewrite Hs. apply elem_of_app. right. apply list_elem_of_omap. exists ep.
      split; [done|]. unfold added_source, plugin_source.
      by rewrite (escaping_logged _ _ _ _ Hload Hm), Hload. }
    split; [exact Hnone|]. split.
    + rewrite Hw. apply elem_of_app. right. apply list_elem_of_omap. exists ep.
      split; [done|]. unfold load_warning. by rewrite Hload, Hm.
    + unfold list_commands. by rewrite list_commands_of_none.
  - intros e Hm. apply (He ep e Hep). by eapply escaping_handler.
Qed.

Lemma failed_load_poisons_router_witness :
  ((∃ i, (length (loads viz_cli) ≤ i)%nat
         ∧ loads (_load_plugins broken_env sample_store "viz" viz_cli).2 !! i = Some viz_ep)
   ∧ broken_env viz_ep = LoadError "No module named kedro_viz"
   ∧ SrcNone ∈ sources (_load_plugins broken_env sample_store "viz" viz_cli).2)
  ∧ ((∃ i, (length (loads (fresh_cli [("kedro-telemetry", malformed_ep)])) ≤ i)%nat
           ∧ loads (_load_plugins malformed_env sample_store "telemetry"
                      (fresh_cli [("kedro-telemetry", malformed_ep)])).2 !! i
             = Some malformed_ep)
     ∧ malformed_env malformed_ep = LoadError "'NoneType' object has no attribute 'group'"
     ∧ _load_plugins malformed_env sample_store "telemetry"
         (fresh_cli [("kedro-telemetry", malformed_ep)])
       = (Raise AttributeError,
          {| sources := []; lazy_groups := [("kedro-telemetry", malformed_ep)];
             loads := [malformed_ep]; warnings := [] |})).
Proof.
  split.
  - assert (∃ i, (length (loads viz_cli) ≤ i)%nat
                 ∧ loads (_load_plugins broken_env sample_store "viz" viz_cli).2 !! i
                   = Some viz_ep) as H
      by (exists 0%nat; split; [cbn; lia|vm_compute; reflexivity]).
    split; [exact H|]. split; [reflexivity|].
    destruct (failed_load_poisons_router broken_env sample_store "viz" viz_cli viz_ep
                "No module named kedro_viz" H eq_refl) as [Hlogged _].
    destruct (Hlogged "kedro_viz.launchers.cli" eq_refl) as [Hnone _]. exact Hnone.
  - assert (∃ i, (length (loads (fresh_cli [("kedro-telemetry", malformed_ep)])) ≤ i)%nat
                 ∧ loads (_load_plugins malformed_env sample_store "telemetry"
                            (fresh_cli [("kedro-telemetry", malformed_ep)])).2 !! i
                   = Some malformed_ep) as H
      by (exists 0%nat; split; [cbn; lia|vm_compute; reflexivity]).
    split; [exact H|]. split; [reflexivity|].
    destruct (failed_load_poisons_router malformed_env sample_store "telemetry"
                (fresh_cli [("kedro-telemetry", malformed_ep)]) malformed_ep
                "'NoneType' object has no attribute 'group'" H eq_refl) as [_ Hraises].
    specialize (Hraises AttributeError eq_refl).
    destruct (_load_plugins malformed_env sample_store "telemetry"
                (fresh_cli [("kedro-telemetry", malformed_ep)])) as [r s'] eqn:E.
    cbn [fst] in Hraises. subst r.
    vm_compute in E. by injection E as <-.
Defined.

(** ** main: a command that a plugin provides is found *)

Lemma listed_group (st : store) srcs g :
  SrcNone ∉ srcs → SrcGroup g ∈ srcs → dom (commands (st g)) ⊆ listed st srcs.
Proof.
  intros Hnone Hin. unfold listed.
  induction srcs as [|src srcs IH]; [by apply elem_of_nil in Hin|].
  apply not_elem_of_cons in Hnone as [Hsrc Hnone].
  pose proof (list_commands_of_ok st (src :: srcs)) as Hok.
  rewrite Hok by (by intros [?|?]%elem_of_cons). unfold listed.
  cbn [list_commands_of]. rewrite (list_commands_of_ok st srcs Hnone).
  apply elem_of_cons in Hin as [<-|Hin].
  - cbn. set_solver.
  - specialize (IH Hnone Hin). rewrite (list_commands_of_ok st srcs Hnone) in IH.
    destruct src; cbn; [set_solver..|done].
Qed.

(** X25: [main] finds a command that a lazily registered plugin
    provides, when every lazy handle loads and no source is [None]: click's
    [main] is then entered with the command among the listed ones, on a
    router whose earlier sources are all still there, in place. *)
Theorem main_finds_plugin_command {R : Type} (super_main : option (list string) → M R)
    (env : EntryPoint → load_outcome) (st : store)
    (arg0 : string) (rest : list string) (s : cli) (ep : EntryPoint) (g : gref) :
  SrcNone ∉ sources s →
  (∀ ep, ep ∈ (lazy_groups s).*2 → ∃ g, env ep = Loaded g) →
  ep ∈ (lazy_groups s).*2 →
  env ep = Loaded g →
  arg0 ∈ dom (commands (st g)) →
  ∃ s',
    main super_main env st (Some (arg0 :: rest)) s = super_main (Some (arg0 :: rest)) s'
    ∧ arg0 ∈ listed st (sources s')
    ∧ SrcNone ∉ sources s'
    ∧ sources s `prefix_of` sources s'.
Proof.
  intros Hnone Hok Hep Hg Harg.
  destruct (decide (arg0 ∈ listed st (sources s))) as [Hin|Hnin].
  - exists s. split; [|split; [done|split; [done|reflexivity]]].
    unfold main. rewrite !bind_unfold. unfold list_commands.
    rewrite list_commands_of_ok by done. by rewrite bool_decide_eq_true_2.
  - destruct (load_plugins_ok env st arg0 s Hnone Hok) as (k & Hrun & _ & Hat).
    cbn zeta in *.
    set (new := partial_match_load (lazy_groups s) arg0 ++ take k (lazy_groups s).*2) in *.
    exists (with_loaded env s new).
    assert (SrcNone ∉ sources (with_loaded env s new)) as Hnone'.
    { cbn. intros [?|(ep' & Heq & Hep')%list_elem_of_fmap]%elem_of_app; [done|].
      destruct (Hok ep') as [g' Hg'].
      - unfold new in Hep'. apply elem_of_app in Hep' as [Hp|Ht].
        + by apply (partial_match_load_elem_of _ arg0).
        + by eapply subseteq_take.
      - unfold plugin_source in Heq. by rewrite Hg' in Heq. }
    split; [|split; [|split; [done|by eexists]]].
    + unfold main. rewrite !bind_unfold. unfold list_commands.
      rewrite list_commands_of_ok by done. rewrite bool_decide_eq_false_2 by done.
      by rewrite Hrun.
    + destruct Hat as [->|Hat]; [|exact Hat].
      apply (listed_group st _ g Hnone'); [|done]. cbn. apply elem_of_app. right.
      apply list_elem_of_fmap. exists ep. split; [unfold plugin_source; by rewrite Hg|].
      unfold new. rewrite take_ge by done. apply elem_of_app. by right.
Qed.

Lemma main_finds_plugin_command_witness :
  SrcNone ∉ sources (fresh_cli two_plugins)
  ∧ docker_ep ∈ (lazy_groups (fresh_cli two_plugins)).*2
  ∧ plugins_env docker_ep = Loaded 0%nat
  ∧ "info" ∈ dom (commands (sample_store 0%nat))
  ∧ ∃ s',
      main (fun _ => ret tt) plugins_env sample_store (Some ["info"]) (fresh_cli two_plugins)
      = (Ok tt, s')
      ∧ "info" ∈ listed sample_store (sources s').
Proof.
  assert (SrcNone ∉ sources (fresh_cli two_plugins)) as H1
    by (simpl; apply not_elem_of_nil).
  assert (∀ ep, ep ∈ (lazy_groups (fresh_cli two_plugins)).*2
                → ∃ g, plugins_env ep = Loaded g) as H2
    by (intros ep _; unfold plugins_env; destruct (decide (ep = viz_ep)); eauto).
  assert (docker_ep ∈ (lazy_groups (fresh_cli two_plugins)).*2) as H3
    by (cbn; left).
  assert ("info" ∈ dom (commands (sample_store 0%nat))) as H4
    by (apply (bool_decide_unpack _); vm_compute; exact I).
  split; [exact H1|]. split; [exact H3|]. split; [reflexivity|]. split; [exact H4|].
  destruct (main_finds_plugin_command (fun _ => ret tt) plugins_env sample_store
              "info" [] (fresh_cli two_plugins) docker_ep 0%nat H1 H2 H3 eq_refl H4)
    as (s' & Hrun & Hin & _).
  exists s'. split; [exact Hrun|exact Hin].
Defined.

(** ** _suggest_cli_command: the order of the candidates does not matter *)

Lemma scored_antisym word x y :
  heapq.tuple_ge (difflib.scored word x) (difflib.scored word y) →
  heapq.tuple_ge (difflib.scored word y) (difflib.scored word x) →
  difflib.scored word x = difflib.scored word y.
Proof.
  unfold heapq.tuple_ge, heapq.tuple_geb, difflib.scored. cbn [fst snd].
  set (rx := difflib.ratio (list_ascii_of_string x) (list_ascii_of_string word)).
  set (ry := difflib.ratio (list_ascii_of_string y) (list_ascii_of_string word)).
  rewrite <- (Qcompare_antisym rx ry).
  destruct (Qcompare rx ry); cbn [CompOpp]; try done.
  intros H1 H2. subst rx ry. assert (x = y) as ->; [|done].
  by apply String.leb_antisym.
Qed.

Lemma ranked_Permutation word (names names' : list string) :
  names ≡ₚ names' →
  merge_sort heapq.tuple_ge (difflib.scored word <$> filter (clears_cutoff word) names)
  = merge_sort heapq.tuple_ge (difflib.scored word <$> filter (clears_cutoff word) names').
Proof.
  intros Hperm. apply (StronglySorted_unique_strong heapq.tuple_ge).
  - intros p q Hp Hq. rewrite merge_sort_Permutation in Hp, Hq.
    apply list_elem_of_fmap in Hp as (x & -> & _).
    apply list_elem_of_fmap in Hq as (y & -> & _). apply scored_antisym.
  - apply StronglySorted_merge_sort; apply _.
  - apply StronglySorted_merge_sort; apply _.
  - rewrite !merge_sort_Permutation. by rewrite Hperm.
Qed.

(** X26: the answer of [_suggest_cli_command] does not depend on the
    order in which the candidate names are given: two candidate lists that
    are permutations of each other give the same matches and the same
    message. *)
Theorem suggest_order_independent (typed : string) (names names' : list string) :
  names ≡ₚ names' →
  difflib.get_close_matches typed names MAX_SUGGESTIONS CUTOFF
  = difflib.get_close_matches typed names' MAX_SUGGESTIONS CUTOFF
  ∧ _suggest_cli_command typed names = _suggest_cli_command typed names'.
Proof.
  intros Hperm.
  destruct (get_close_matches_ranked typed names) as (Hget & _).
  destruct (get_close_matches_ranked typed names') as (Hget' & _).
  cbn zeta in *. rewrite (ranked_Permutation typed names names' Hperm) in Hget.
  split; [by rewrite Hget, Hget'|].
  by rewrite (suggest_unfold _ _ _ Hget), (suggest_unfold _ _ _ Hget').
Qed.

Lemma suggest_order_independent_witness :
  ["run"; "build"; "test"; "buil"] ≡ₚ ["buil"; "test"; "build"; "run"]
  ∧ _suggest_cli_command "buid" ["buil"; "test"; "build"; "run"]
    = Ok (plural_header ++ "    build" ++ LF ++ "    buil")%string.
Proof.
  assert (["run"; "build"; "test"; "buil"] ≡ₚ ["buil"; "test"; "build"; "run"]) as H
    by (symmetry; apply (reverse_Permutation ["run"; "build"; "test"; "buil"])).
  split; [exact H|].
  destruct (suggest_order_independent "buid" _ _ H) as [_ <-].
  vm_compute. reflexivity.
Defined.

(** ** _suggest_cli_command: what a suggestion shares with the typed name *)

Lemma calculate_ratio_half c T :
  (1 # 2 <= difflib._calculate_ratio c T)%Q → (T ≤ 4 * c)%nat.
Proof.
  unfold difflib._calculate_ratio. destruct T as [|n]; [lia|].
  cbn [Nat.eqb]. unfold Qle. cbn [Qnum Qden].
  rewrite <- Pos.of_nat_succ, Zpos_P_of_succ_nat. lia.
Qed.

(** X27: a name that [_suggest_cli_command] suggests has, counted with
    multiplicity, at least a quarter of the characters of the two names
    together in common with the typed name; so it is at most three times as
    long as the typed name and at least a third as long. *)
Theorem suggestion_shares_characters (typed : string) (names matches : list string)
    (m : string) :
  difflib.get_close_matches typed names MAX_SUGGESTIONS CUTOFF = Ok matches →
  m ∈ matches →
  let a := list_ascii_of_string m in
  let b := list_ascii_of_string typed in
  (length a + length b ≤ 4 * common a b)%nat
  ∧ (length a ≤ 3 * length b)%nat
  ∧ (length b ≤ 3 * length a)%nat.
Proof.
  intros Hget Hm a b.
  destruct (get_close_matches_ranked typed names) as (Hget' & Hperm & _).
  cbn zeta in *. rewrite Hget in Hget'. injection Hget' as ->.
  destruct (close_match_is_candidate typed names _ m Hperm Hm) as [_ Hratio].
  fold a b in Hratio.
  assert (length a + length b ≤ 4 * common a b)%nat as Hc.
  { apply calculate_ratio_half. eapply Qle_trans; [exact Hratio|].
    eapply Qle_trans; [apply ratio_le_quick_ratio|]. unfold difflib.quick_ratio.
    cbn zeta. rewrite quick_matches_common. apply Qle_refl. }
  pose proof (common_le_l a b). pose proof (common_le_r a b). lia.
Qed.

Lemma suggestion_shares_characters_witness :
  difflib.get_close_matches "buid" ["build"; "run"; "test"] MAX_SUGGESTIONS CUTOFF
  = Ok ["build"]
  ∧ (5 + 4 ≤ 4 * common (list_ascii_of_string "build") (list_ascii_of_string "buid"))%nat.
Proof.
  assert (difflib.get_close_matches "buid" ["build"; "run"; "test"] MAX_SUGGESTIONS CUTOFF
          = Ok ["build"]) as H by (vm_compute; reflexivity).
  split; [exact H|].
  destruct (suggestion_shares_characters "buid" _ ["build"] "build" H) as [Hc _];
    [left|exact Hc].
Defined.

(** ** The config-file callback: further behaviour *)

Lemma list_remove_NoDup x (l : list string) :
  NoDup l → x ∈ l →
  ∃ l', list_remove x l = Some l' ∧ x ∉ l' ∧ ∀ y, y ∈ l' ↔ y ∈ l ∧ y ≠ x.
Proof.
  induction l as [|a l IH]; [by intros _ ?%elem_of_nil|].
  intros [Ha Hnd]%list.NoDup_cons Hin. cbn [list_remove].
  destruct (String.eqb_spec a x) as [->|Hne].
  - exists l. split; [done|]. split; [done|]. intros y. rewrite elem_of_cons.
    split; [intros ?; split; [by right|by intros ->]|by intros [[->|?] ?]].
  - apply elem_of_cons in Hin as [->|Hin]; [done|].
    destruct (IH Hnd Hin) as (l' & -> & Hx & Hl'). exists (a :: l').
    split; [done|]. split.
    + intros [->|?]%elem_of_cons; done.
    + intros y. rewrite !elem_of_cons, Hl'. split.
      * intros [->|[? ?]]; [split; [by left|by intros ->]|split; [by right|done]].
      * intros [[->|?] ?]; [by left|by right].
Qed.

Lemma list_remove_missing x (l : list string) : x ∉ l → list_remove x l = None.
Proof.
  induction l as [|a l IH]; [done|]. intros [Hne Hl]%not_elem_of_cons.
  cbn. destruct (String.eqb_spec a x) as [->|_]; [done|]. by rewrite IH.
Qed.

(** X28: the key [config] itself is not accepted in a config file: for a
    run command whose parameter names are distinct and include [config],
    [_validate_config_file] accepts exactly the other parameter names, and
    for the key [config] it raises the [KedroCliError] for an invalid key
    and clears [VERBOSE_EXISTS]. *)
Theorem config_key_is_not_accepted (run_params : list ClickParameter) (w : config_world) :
  NoDup (param_name <$> run_params) →
  "config" ∈ param_name <$> run_params →
  (∀ key, key ∈ param_name <$> run_params → key ≠ "config" →
          _validate_config_file run_params key w = (Ok tt, w))
  ∧ ∃ message,
      _validate_config_file run_params "config" w
      = (Raise (KedroCliError (invalid_key_message "config" message)),
         {| ctx := ctx w; VERBOSE_EXISTS := false |}).
Proof.
  intros Hnd Hin.
  destruct (list_remove_NoDup "config" _ Hnd Hin) as (accepted & Hrm & Hnot & Hacc).
  split.
  - intros key Hkey Hne. apply (validate_accepted _ accepted); [done|]. by apply Hacc.
  - destruct (validate_rejected run_params accepted "config" w Hrm Hnot)
      as (_ & message & _ & _ & _ & Hv). eauto.
Qed.

Lemma config_key_is_not_accepted_witness :
  NoDup (param_name <$> sample_run_params)
  ∧ "config" ∈ param_name <$> sample_run_params
  ∧ _validate_config_file sample_run_params "env" sample_world = (Ok tt, sample_world)
  ∧ ∃ message,
      _validate_config_file sample_run_params "config" sample_world
      = (Raise (KedroCliError (invalid_key_message "config" message)),
         {| ctx := ctx sample_world; VERBOSE_EXISTS := false |}).
Proof.
  assert (NoDup (param_name <$> sample_run_params)) as H1
    by (apply (bool_decide_unpack _); vm_compute; exact I).
  assert ("config" ∈ param_name <$> sample_run_params) as H2
    by (apply (bool_decide_unpack _); vm_compute; exact I).
  split; [exact H1|]. split; [exact H2|].
  destruct (config_key_is_not_accepted sample_run_params sample_world H1 H2)
    as [Hacc Hrej].
  split; [|exact Hrej]. apply Hacc; [|done].
  apply (bool_decide_unpack _). vm_compute. exact I.
Defined.

(** X29: when every key of the config section is accepted,
    [_config_file_callback] returns the value of the last entry of the
    section, not the config path it was called with: the loop variable of
    the validation loop has the name of the callback's argument.  It returns
    the path only for an empty section.  When no parameter of the run
    command is named [config], the first key makes it raise [ValueError]
    (from [list.remove]). *)
Theorem config_callback_returns_last_value
    (load_config : pyvalue → string → raising (list (string * pyvalue)))
    (run_params : list ClickParameter) (value : pyvalue) (w : config_world)
    (config : list (string * pyvalue)) :
  value_truthy value = true →
  load_config value (info_name (ctx w)) = Ok config →
  ("config" ∈ param_name <$> run_params →
   (∀ k, k ∈ config.*1 → k ∈ param_name <$> run_params ∧ k ≠ "config") →
   NoDup (param_name <$> run_params) →
   (_config_file_callback load_config run_params value w).1
   = Ok (List.last config.*2 value))
  ∧ ("config" ∉ param_name <$> run_params → config ≠ [] →
     (_config_file_callback load_config run_params value w).1 = Raise ValueError).
Proof.
  intros Htruthy Hload. split.
  - intros Hin Hkeys Hnd.
    destruct (list_remove_NoDup "config" _ Hnd Hin) as (accepted & Hrm & _ & Hacc).
    unfold _config_file_callback. rewrite Htruthy. cbn [set_default_map ctx info_name].
    rewrite Hload, (validate_items_accepted _ accepted); [done|done|].
    intros k Hk. by apply Hacc, Hkeys.
  - intros Hnot Hne. unfold _config_file_callback. rewrite Htruthy.
    cbn [set_default_map ctx info_name]. rewrite Hload.
    destruct config as [|[k v] config]; [done|]. cbn [validate_items].
    unfold _validate_config_file. by rewrite list_remove_missing.
Qed.

Lemma config_callback_returns_last_value_witness :
  value_truthy (VStr "conf.yml") = true
  ∧ (_config_file_callback (fun _ _ => Ok [("env", VStr "prod"); ("pipeline", VInt 3)])
       sample_run_params (VStr "conf.yml") sample_world).1
    = Ok (VInt 3).
Proof.
  split; [reflexivity|].
  destruct (config_callback_returns_last_value
              (fun _ _ => Ok [("env", VStr "prod"); ("pipeline", VInt 3)])
              sample_run_params (VStr "conf.yml") sample_world
              [("env", VStr "prod"); ("pipeline", VInt 3)] eq_refl eq_refl) as [H _].
  apply H.
  - apply (bool_decide_unpack _). vm_compute. exact I.
  - intros k Hk. split.
    + cbn in Hk. apply elem_of_cons in Hk as [->|Hk];
        [|apply list_elem_of_singleton in Hk as ->];
        apply (bool_decide_unpack _); vm_compute; exact I.
    + cbn in Hk. apply elem_of_cons in Hk as [->|Hk];
        [|apply list_elem_of_singleton in Hk as ->]; done.
  - apply (bool_decide_unpack _). vm_compute. exact I.
Defined.

(** ** KedroCliError.show after a rejected config key *)

Lemma validate_config_file_flag run_params key w message w' :
  _validate_config_file run_params key w = (Raise (KedroCliError message), w') →
  VERBOSE_EXISTS w' = false.
Proof.
  unfold _validate_config_file.
  destruct (list_remove "config" (param_name <$> run_params)) as [run_args|]; [|done].
  destruct (bool_decide (key ∈ run_args)); [done|].
  by destruct (_suggest_cli_command key run_args); intros [= _ <-].
Qed.

Lemma validate_config_file_keeps_flag_down run_params key w :
  VERBOSE_EXISTS w = false →
  VERBOSE_EXISTS (_validate_config_file run_params key w).2 = false.
Proof.
  unfold _validate_config_file. intros Hw.
  destruct (list_remove "config" (param_name <$> run_params)) as [run_args|]; [|done].
  destruct (bool_decide (key ∈ run_args)); [done|].
  by destruct (_suggest_cli_command key run_args).
Qed.

Lemma validate_items_flag run_params items : ∀ value w message w',
  validate_items run_params items value w = (Raise (KedroCliError message), w') →
  VERBOSE_EXISTS w' = false.
Proof.
  induction items as [|[k v] items IH]; intros value w message w'; [done|].
  cbn [validate_items].
  destruct (_validate_config_file run_params k w) as [[[]|e] w1] eqn:E.
  - apply IH.
  - intros [= -> <-]. by apply validate_config_file_flag in E.
Qed.

Lemma validate_items_keeps_flag_down run_params items : ∀ value w,
  VERBOSE_EXISTS w = false →
  VERBOSE_EXISTS (validate_items run_params items value w).2 = false.
Proof.
  induction items as [|[k v] items IH]; intros value w Hw; [done|].
  cbn [validate_items].
  pose proof (validate_config_file_keeps_flag_down run_params k w Hw) as H1.
  destruct (_validate_config_file run_params k w) as [[[]|e] w1]; [|done].
  by apply IH.
Qed.

(** X30: when [_config_file_callback] ends with the [KedroCliError] of a
    rejected key, the class attribute [VERBOSE_EXISTS] is off afterwards,
    and [show], without the verbose flag, then prints the formatted
    exception only, in yellow, without the hint to run with [--verbose].
    Nothing in the callback turns the attribute on again: once off, it is
    off after every later call. *)
Theorem show_after_rejected_key
    (load_config : pyvalue → string → raising (list (string * pyvalue)))
    (run_params : list ClickParameter) (value : pyvalue) (w : config_world) :
  (∀ config message w',
     load_config value (info_name (ctx w)) = Ok config →
     _config_file_callback load_config run_params value w
     = (Raise (KedroCliError message), w') →
     VERBOSE_EXISTS w' = false
     ∧ ∀ format_exc format_exception_only format_exception,
         show false w' format_exc format_exception_only format_exception
         = {| secho_message := py.concat_str format_exception_only;
              secho_nl := true; secho_fg := "yellow" |})
  ∧ (VERBOSE_EXISTS w = false →
     VERBOSE_EXISTS (_config_file_callback load_config run_params value w).2 = false).
Proof.
  split.
  - intros config message w' Hload Hrun.
    assert (VERBOSE_EXISTS w' = false) as Hflag.
    { unfold _config_file_callback in Hrun. destruct (value_truthy value); [|done].
      cbn [set_default_map ctx info_name] in Hrun. rewrite Hload in Hrun.
      destruct (validate_items _ _ _ _) as [[v|e] w2] eqn:E; [done|].
      injection Hrun as -> <-. by apply validate_items_flag in E. }
    split; [exact Hflag|]. intros. unfold show. by rewrite Hflag.
  - intros Hw. unfold _config_file_callback. destruct (value_truthy value); [|done].
    cbn [set_default_map ctx info_name].
    destruct (load_config value (info_name (ctx w))) as [config|e]; [|done].
    pose proof (validate_items_keeps_flag_down run_params config value
                  (set_default_map w (default ∅ (default_map (ctx w)))) Hw) as H.
    by destruct (validate_items _ _ _ _) as [[v|e] w2].
Qed.

Lemma show_after_rejected_key_witness :
  ∃ message w',
    _config_file_callback (fun _ _ => Ok sample_config) sample_run_params
      (VStr "conf.yml") sample_world
    = (Raise (KedroCliError message), w')
    ∧ show false w' "Traceback (most recent call last): ..."
        ["kedro.framework.cli.utils.KedroCliError: Key `bogus_key` is not valid."] []
      = {| secho_message :=
             "kedro.framework.cli.utils.KedroCliError: Key `bogus_key` is not valid.";
           secho_nl := true; secho_fg := "yellow" |}.
Proof.
  destruct (_config_file_callback (fun _ _ => Ok sample_config) sample_run_params
              (VStr "conf.yml") sample_world) as [[v|e] w'] eqn:E;
    [vm_compute in E; discriminate E|].
  destruct e as [| | | |message|]; try (vm_compute in E; discriminate E).
  exists message, w'. split; [reflexivity|].
  destruct (show_after_rejected_key (fun _ _ => Ok sample_config) sample_run_params
              (VStr "conf.yml") sample_world) as [H _].
  destruct (H sample_config message w' eq_refl E) as [_ Hshow].
  rewrite Hshow. reflexivity.
Defined.
